(** * A shallow embedding of the bitcask engine (package [engine])

    The development follows the Go sources [engine/engine.go] and
    [engine/file_entry.go].  The host file system, the wall clock and the
    [encoding/gob] codec are the program's environment: the file system and
    the clock are explicit components of a [World] that every operation
    threads through, and the codec is an interface ([GobCodec]) of which the
    engine only uses the round-trip law. *)

From Stdlib Require Import ZArith DecimalString DecimalZ DecimalPos Decimal.
From Stdlib Require Import Strings.Byte Strings.String Strings.Ascii Sorted.
From stdpp Require Import gmap strings list fin_maps.

Local Open Scope Z_scope.

(** ** Machine integers

    Go's fixed-width integers are kept as [Z]; every conversion and every
    arithmetic operation of the source that can wrap goes through one of
    the functions below. *)

Definition uint32 (z : Z) : Z := z mod 2 ^ 32.
Definition uint64 (z : Z) : Z := z mod 2 ^ 64.
Definition int64 (z : Z) : Z := (z + 2 ^ 63) mod 2 ^ 64 - 2 ^ 63.

Definition min_int64 : Z := - 2 ^ 63.
Definition max_int64 : Z := 2 ^ 63 - 1.

(** ** Bytes *)

Definition byte_of_Z (z : Z) : Byte.byte :=
  match Byte.of_N (Z.to_N (z mod 256)) with
  | Some b => b
  | None => Byte.x00
  end.

Definition Z_of_byte (b : Byte.byte) : Z := Z.of_N (Byte.to_N b).

(** [binary.BigEndian.PutUint64] and [binary.BigEndian.Uint64] on a buffer
    of [n] bytes ([n = 8] in the source). *)
Fixpoint put_be (n : nat) (v : Z) : list Byte.byte :=
  match n with
  | O => []
  | S n' => put_be n' (v / 256) ++ [byte_of_Z v]
  end.

Definition get_be (bs : list Byte.byte) : Z :=
  fold_left (fun acc b => acc * 256 + Z_of_byte b) bs 0.

Definition PutUint64 (v : Z) : list Byte.byte := put_be 8 v.
Definition Uint64 (bs : list Byte.byte) : Z := get_be bs.

(** ** [hash/crc32], IEEE polynomial (the simple byte-at-a-time update) *)

Definition IEEE : Z := 0xedb88320.

Fixpoint crc_shift (n : nat) (crc : Z) : Z :=
  match n with
  | O => crc
  | S n' =>
      crc_shift n'
        (if Z.testbit crc 0 then Z.lxor (Z.shiftr crc 1) IEEE
         else Z.shiftr crc 1)
  end.

Definition simpleTable (i : Z) : Z := crc_shift 8 i.

Definition crc32_update (crc : Z) (p : list Byte.byte) : Z :=
  let crc0 := Z.lxor crc 0xffffffff in
  let crc1 :=
    fold_left
      (fun c v =>
         Z.lxor (simpleTable (Z.lxor (Z.land c 0xff) (Z_of_byte v)))
                (Z.shiftr c 8))
      p crc0 in
  Z.lxor crc1 0xffffffff.

(** ** Strings: [strings.HasSuffix], [strings.TrimSuffix], comparison *)

Fixpoint HasSuffix (s suffix : string) : bool :=
  String.eqb s suffix ||
  match s with
  | EmptyString => false
  | String _ s' => HasSuffix s' suffix
  end.

Fixpoint TrimSuffix (s suffix : string) : string :=
  if String.eqb s suffix then EmptyString
  else match s with
       | EmptyString => EmptyString
       | String c s' => String c (TrimSuffix s' suffix)
       end.

(** Go compares strings byte-wise. *)
Definition string_lt (a b : string) : bool :=
  match String.compare a b with
  | Lt => true
  | _ => false
  end.

(** [fmt.Sprintf("%d", z)] and [strconv.ParseInt(s, 10, 64)]. *)
Definition Sprintf_d (z : Z) : string :=
  NilZero.string_of_int (Z.to_int z).

(** [fmt.Sprintf("%d.data", z)] *)
Definition Sprintf_d_data (z : Z) : string := Sprintf_d z +:+ ".data".

Definition ParseInt (s : string) : option Z :=
  let d :=
    match s with
    | String "+"%char s' => option_map Pos (NilZero.uint_of_string s')
    | _ => NilZero.int_of_string s
    end in
  match d with
  | Some d =>
      let z := Z.of_int d in
      if (min_int64 <=? z) && (z <=? max_int64) then Some z else None
  | None => None
  end.

(** [sort.Slice]: the insertion sort the Go runtime runs on slices of at
    most twelve elements (element [i] moves left while it is less than its
    left neighbour).  Whenever [less] is a strict total order on the
    elements every sorting algorithm returns this same list. *)
Fixpoint insert_from_right {A} (less : A -> A -> bool) (x : A)
    (rev_prefix : list A) : list A :=
  match rev_prefix with
  | [] => [x]
  | y :: r =>
      if less x y then y :: insert_from_right less x r
      else x :: y :: r
  end.

Definition sort_Slice {A} (less : A -> A -> bool) (l : list A) : list A :=
  rev (fold_left (fun acc x => insert_from_right less x acc) l []).

(** ** Records of the engine *)

(** [type FileEntry struct] of [file_entry.go]. *)
Module FileEntry.
Record t := mk {
  Crc : Z;             (* uint32 *)
  Tstamp : Z;          (* int64  *)
  Ksz : Z;             (* uint32 *)
  ValueSz : Z;         (* uint32 *)
  Key : string;
  Value : string;
  IsTombstone : bool
}.
End FileEntry.

(** [type KeyDir struct]: its declaration ([keydir.go]) is not among the
    sources; the fields and their types are those the engine reads and
    writes ([FileID string], [ValueSz uint64], [ValuePos int64],
    [Tstamp int64]). *)
Module KeyDir.
Record t := mk {
  FileID : string;
  ValueSz : Z;
  ValuePos : Z;
  Tstamp : Z
}.
End KeyDir.

(** [*os.File]: the path it was opened with, the descriptor's offset, and
    whether [Close] was called on it. *)
Record File := mkFile {
  file_name : string;
  file_offset : Z;
  file_closed : bool
}.

(** [type BitcaskEngine struct] (the mutex is not modelled: every
    operation below is one critical section). *)
Record BitcaskEngine := mkEngine {
  Keydir : gmap string KeyDir.t;
  ActiveFile : option File;
  ActiveDir : string;
  MaxFileSize : Z
}.

(** ** The environment: file system and clock *)

Inductive Node :=
| RegularFile (content : list Byte.byte)
| Directory.

(** [clock] lists the successive readings of [time.Now().Unix()];
    [ticks] counts the readings made so far.  [open_files] is the table
    of the descriptors the process holds open for writing: the path of
    each, once for every descriptor. *)
Record World := mkWorld {
  files : gmap string Node;
  clock : nat -> Z;
  ticks : nat;
  open_files : list string
}.

Record DirEntry := mkDirEntry {
  Name : string;
  IsDir : bool
}.

(** ** Errors

    [Errorf msg] stands for [fmt.Errorf] with the format string [msg], and
    [Errorw msg cause] for a format string that wraps [cause] with [%w].
    The other constructors are the errors of the environment. *)
Inductive error :=
| ErrInvalid            (* os.ErrInvalid: a method called on a nil *os.File *)
| ErrClosed             (* os.ErrClosed: a method called on a closed file *)
| ErrNotExist
| ErrIsDir
| ErrNotDir
| EOF
| ErrUnexpectedEOF
| ErrNegativeOffset
| ErrGobDecode
| PanicMakeslice        (* runtime panic: makeslice: len out of range *)
| PanicNilPointer       (* runtime panic: nil pointer dereference *)
| OutOfFuel             (* artefact of the model, see [processOldFile_fuel] *)
| Fatalf (msg : string) (cause : error)   (* log.Fatalf: the process exits *)
| Errorf (msg : string)
| Errorw (msg : string) (cause : error).

(** ** The codec

    [encoding/gob] is used through [Encode] and [Decode] only; [Encode]
    does not fail on a [FileEntry], and [Decode] gives back what was
    encoded. *)
Class GobCodec := {
  gob_encode : FileEntry.t -> list Byte.byte;
  gob_decode : list Byte.byte -> option FileEntry.t;
  gob_decode_encode : forall fe, gob_decode (gob_encode fe) = Some fe
}.

(** ** The monad of engine operations

    A method of [*BitcaskEngine] reads and updates the engine and the
    world, and returns a value or an error; the state is kept on both
    outcomes, as the Go code keeps every effect made before an error. *)
Record State := mkState {
  engine : BitcaskEngine;
  world : World
}.

Definition M (A : Type) : Type := State -> (error + A) * State.

Definition ret {A} (a : A) : M A := fun s => (inr a, s).
Definition fail {A} (e : error) : M A := fun s => (inl e, s).
Definition bind {A B} (m : M A) (k : A -> M B) : M B :=
  fun s =>
    match m s with
    | (inl e, s') => (inl e, s')
    | (inr a, s') => k a s'
    end.

(** [m] with its error, if any, wrapped as [fmt.Errorf(msg, err)] does. *)
Definition wrap {A} (msg : string) (m : M A) : M A :=
  fun s =>
    match m s with
    | (inl e, s') => (inl (Errorw msg e), s')
    | r => r
    end.

(** [m] followed by [k] whatever the outcome of [m], whose result is
    returned ([err := m(); k(); return err]). *)
Definition and_then_always {A} (m : M A) (k : M unit) : M A :=
  fun s =>
    match m s with
    | (r, s') => (r, (k s').2)
    end.

#[global] Instance M_ret : MRet M := @ret.
#[global] Instance M_bind : MBind M := fun A B k m => bind m k.

Definition get_engine : M BitcaskEngine := fun s => (inr (engine s), s).
Definition get_world : M World := fun s => (inr (world s), s).
Definition put_engine (be : BitcaskEngine) : M unit :=
  fun s => (inr tt, mkState be (world s)).
Definition put_world (w : World) : M unit :=
  fun s => (inr tt, mkState (engine s) w).

Definition set_Keydir (kd : gmap string KeyDir.t) : M unit :=
  be ← get_engine;
  put_engine (mkEngine kd (ActiveFile be) (ActiveDir be) (MaxFileSize be)).

Definition set_ActiveFile (f : option File) : M unit :=
  be ← get_engine;
  put_engine (mkEngine (Keydir be) f (ActiveDir be) (MaxFileSize be)).

Definition set_files (fs : gmap string Node) : M unit :=
  w ← get_world;
  put_world (mkWorld fs (clock w) (ticks w) (open_files w)).

Definition set_open_files (fds : list string) : M unit :=
  w ← get_world;
  put_world (mkWorld (files w) (clock w) (ticks w) fds).

(** ** The operating system, as the engine uses it

    The file system maps a path to a node.  It has no inodes: a descriptor
    names its file by path (the engine never renames or removes a file).
    Of the directory tree only the nodes themselves are kept, so creating a
    file does not ask for its parent, and a system call takes its path as
    it is written (the engine passes the data directory as it was given,
    and below it the clean paths that [filepath.Join] returns).  A write
    on an open descriptor does not fail, and memory is not bounded.
    Reading a file ([os.Open] with its deferred [Close]) leaves the table
    of open descriptors as it was. *)

Definition len {A} (l : list A) : Z := Z.of_nat (length l).

(** [time.Now().Unix()] *)
Definition now (w : World) : Z := int64 (clock w (ticks w)).

Definition time_Now_Unix : M Z :=
  fun s =>
    let w := world s in
    (inr (now w),
     mkState (engine s)
       (mkWorld (files w) (clock w) (S (ticks w)) (open_files w))).

(** ** Paths: [strings.Split(path, "/")], [filepath.Clean] and
    [filepath.Join] (Unix) *)

Fixpoint split_path (s : string) : list string :=
  match s with
  | EmptyString => [EmptyString]
  | String c s' =>
      if Ascii.eqb c "/" then EmptyString :: split_path s'
      else match split_path s' with
           | e :: es => String c e :: es
           | [] => [String c EmptyString]
           end
  end.

Fixpoint join_path (es : list string) : string :=
  match es with
  | [] => EmptyString
  | e :: es' =>
      match es' with
      | [] => e
      | _ :: _ => e +:+ "/" +:+ join_path es'
      end
  end.

Definition is_rooted (path : string) : bool :=
  match path with
  | String c _ => Ascii.eqb c "/"
  | EmptyString => false
  end.

(** One element of the path met by the loop of [Clean]; [kept] holds the
    elements written so far, the last one first.  An empty element and
    [.] are dropped; [..] removes the element before it when there is
    one that is not itself a leading [..], is kept at the head of a path
    that is not rooted, and is dropped at the root. *)
Definition clean_step (rooted : bool) (kept : list string) (e : string)
    : list string :=
  if String.eqb e "" || String.eqb e "." then kept
  else if String.eqb e ".." then
    match kept with
    | top :: kept' =>
        if String.eqb top ".." then (if rooted then kept else e :: kept)
        else kept'
    | [] => if rooted then [] else [e]
    end
  else e :: kept.

(** The elements of the clean path, in order. *)
Definition clean_elements (path : string) : list string :=
  rev (fold_left (clean_step (is_rooted path)) (split_path path) []).

(** [filepath.Clean(path)] *)
Definition filepath_Clean (path : string) : string :=
  match clean_elements path with
  | [] => if is_rooted path then "/" else "."
  | es => (if is_rooted path then "/" else "") +:+ join_path es
  end.

(** [filepath.Join(dir, name)]: the elements that are not empty, joined
    by the separator, and the result cleaned. *)
Definition filepath_Join (dir name : string) : string :=
  match dir with
  | EmptyString =>
      match name with
      | EmptyString => EmptyString
      | _ => filepath_Clean name
      end
  | _ => filepath_Clean (dir +:+ "/" +:+ name)
  end.

(** What [filepath.Join(dir, name)] puts before a plain file name. *)
Definition dir_prefix (dir : string) : string :=
  match dir with
  | EmptyString => EmptyString
  | _ =>
      (if is_rooted dir then "/" else "") +:+
      match clean_elements dir with
      | [] => EmptyString
      | es => join_path es +:+ "/"
      end
  end.

(** The directories above [path]: its prefixes that end before a
    separator. *)
Fixpoint ancestors_from (seen : string) (s : string) : list string :=
  match s with
  | EmptyString => []
  | String c s' =>
      (if Ascii.eqb c "/" && negb (String.eqb seen "") then [seen] else [])
      ++ ancestors_from (seen +:+ String c EmptyString) s'
  end.

Definition ancestors (path : string) : list string :=
  ancestors_from EmptyString path.

(** [os.OpenFile(path, os.O_APPEND|os.O_CREATE|os.O_WRONLY, 0644)]: the
    file is created when missing and never truncated; the new descriptor
    starts at offset 0 whatever the size of the file, and is entered in
    the table of open descriptors. *)
Definition os_OpenFile (path : string) : M File :=
  w ← get_world;
  match files w !! path with
  | Some Directory => fail ErrIsDir
  | Some (RegularFile _) =>
      set_open_files (path :: open_files w);;
      mret (mkFile path 0 false)
  | None =>
      set_files (<[path := RegularFile []]> (files w));;
      set_open_files (path :: open_files w);;
      mret (mkFile path 0 false)
  end.

(** The table of open descriptors after one descriptor on [path] was
    closed. *)
Fixpoint close_one (path : string) (fds : list string) : list string :=
  match fds with
  | [] => []
  | q :: fds' => if String.eqb path q then fds' else q :: close_one path fds'
  end.

(** [be.ActiveFile.Stat()] followed by [Size()]. *)
Definition ActiveFile_Stat_Size : M Z :=
  be ← get_engine;
  w ← get_world;
  match ActiveFile be with
  | None => fail ErrInvalid
  | Some f =>
      if file_closed f then fail ErrClosed
      else
        match files w !! file_name f with
        | Some (RegularFile c) => mret (len c)
        | Some Directory => fail ErrIsDir
        | None => fail ErrNotExist
        end
  end.

(** [be.ActiveFile.Seek(0, io.SeekCurrent)] *)
Definition ActiveFile_Seek_Current : M Z :=
  be ← get_engine;
  match ActiveFile be with
  | None => fail ErrInvalid
  | Some f => if file_closed f then fail ErrClosed else mret (file_offset f)
  end.

(** [be.ActiveFile.Write(b)] on a descriptor opened with [O_APPEND]: the
    bytes go to the end of the file and the offset moves to the new end. *)
Definition ActiveFile_Write (b : list Byte.byte) : M Z :=
  be ← get_engine;
  w ← get_world;
  match ActiveFile be with
  | None => fail ErrInvalid
  | Some f =>
      if file_closed f then fail ErrClosed
      else
        match files w !! file_name f with
        | Some (RegularFile c) =>
            set_files (<[file_name f := RegularFile (c ++ b)]> (files w));;
            set_ActiveFile (Some (mkFile (file_name f) (len (c ++ b)) false));;
            mret (len b)
        | Some Directory => fail ErrIsDir
        | None => fail ErrNotExist
        end
  end.

(** [be.ActiveFile.Close()]: the descriptor leaves the table of open
    descriptors, and the [*os.File] is closed from then on. *)
Definition ActiveFile_Close : M unit :=
  be ← get_engine;
  w ← get_world;
  match ActiveFile be with
  | None => fail ErrInvalid
  | Some f =>
      if file_closed f then fail ErrClosed
      else
        set_open_files (close_one (file_name f) (open_files w));;
        set_ActiveFile (Some (mkFile (file_name f) (file_offset f) true))
  end.

(** [be.ActiveFile.Name()]; on a nil pointer the field access panics. *)
Definition ActiveFile_Name : M string :=
  be ← get_engine;
  match ActiveFile be with
  | None => fail PanicNilPointer
  | Some f => mret (file_name f)
  end.

(** [file.ReadAt(buf, off)] with [n = len(buf)]. *)
Definition ReadAt (c : list Byte.byte) (n off : Z) : error + list Byte.byte :=
  if off <? 0 then inl ErrNegativeOffset
  else if n =? 0 then inr []
  else
    let got := take (Z.to_nat n) (drop (Z.to_nat off) c) in
    if len got <? n then inl EOF else inr got.

(** [io.ReadFull(file, buf)] with [n = len(buf)] on the unread part [rest]
    of the file: the bytes read and the part left. *)
Definition ReadFull (rest : list Byte.byte) (n : Z)
    : error + (list Byte.byte * list Byte.byte) :=
  if n =? 0 then inr ([], rest)
  else if len rest =? 0 then inl EOF
  else if len rest <? n then inl ErrUnexpectedEOF
  else inr (take (Z.to_nat n) rest, drop (Z.to_nat n) rest).

Fixpoint strip_prefix (p s : string) : option string :=
  match p with
  | EmptyString => Some s
  | String c p' =>
      match s with
      | String d s' => if Ascii.eqb c d then strip_prefix p' s' else None
      | EmptyString => None
      end
  end.

Fixpoint has_separator (s : string) : bool :=
  match s with
  | EmptyString => false
  | String c s' => Ascii.eqb c "/" || has_separator s'
  end.

(** The entry of [dir] that the node [pn] is, if it is one: its path is
    the one [filepath.Join(dir, name)] gives for its name. *)
Definition entry_of (dir : string) (pn : string * Node) : option DirEntry :=
  match strip_prefix (dir_prefix dir) pn.1 with
  | Some name =>
      if String.eqb name "" || has_separator name then None
      else Some (mkDirEntry name
                   match pn.2 with Directory => true | RegularFile _ => false end)
  | None => None
  end.

(** [os.Stat(path)], as far as [NewBistcaskEngine] looks at it: the node,
    [ENOTDIR] when the path goes through a regular file, [ENOENT] when
    there is nothing (as for the empty path). *)
Definition is_regular (n : option Node) : bool :=
  match n with
  | Some (RegularFile _) => true
  | _ => false
  end.

Definition os_Stat (path : string) (w : World) : error + Node :=
  match files w !! path with
  | Some n => inr n
  | None =>
      if existsb (fun a => is_regular (files w !! a)) (ancestors path)
      then inl ErrNotDir
      else inl ErrNotExist
  end.

(** [os.MkdirAll(path, 0755)]: the directory and the missing directories
    above it are created; the empty path cannot be created, and nothing
    is created under or over a regular file. *)
Definition mkdir_if_missing (fs : gmap string Node) (path : string)
    : gmap string Node :=
  match fs !! path with
  | None => <[path := Directory]> fs
  | Some _ => fs
  end.

Definition os_MkdirAll (path : string) (w : World) : error + World :=
  match path with
  | EmptyString => inl ErrNotExist
  | _ =>
      if existsb (fun a => is_regular (files w !! a)) (ancestors path ++ [path])
      then inl ErrNotDir
      else
        inr (mkWorld
               (fold_left mkdir_if_missing (ancestors path ++ [path]) (files w))
               (clock w) (ticks w) (open_files w))
  end.

(** [os.ReadDir(dir)]: the entries of [dir], sorted by file name. *)
Definition os_ReadDir (dir : string) : M (list DirEntry) :=
  w ← get_world;
  match files w !! dir with
  | Some Directory =>
      mret (sort_Slice (fun a b => string_lt (Name a) (Name b))
              (omap (entry_of dir) (map_to_list (files w))))
  | Some (RegularFile _) => fail ErrNotDir
  | None => fail ErrNotExist
  end.

(** ** [file_entry.go] *)

Section Engine.
Context `{codec : GobCodec}.

(** [func NewFileEntry(key, value string, isTombstone bool)] *)
Definition NewFileEntry (key value : string) (isTombstone : bool)
    : M FileEntry.t :=
  tstamp ← time_Now_Unix;
  let crc :=
    crc32_update (crc32_update 0 (list_byte_of_string key))
      (list_byte_of_string value) in
  mret (FileEntry.mk crc tstamp
          (uint32 (Z.of_nat (String.length key)))
          (uint32 (Z.of_nat (String.length value)))
          key value isTombstone).

(** [func (fe *FileEntry) Serialize()] *)
Definition Serialize (fe : FileEntry.t) : list Byte.byte := gob_encode fe.

(** [func DeserializeFileEntry(buffer []byte)] *)
Definition DeserializeFileEntry (buffer : list Byte.byte)
    : error + FileEntry.t :=
  match gob_decode buffer with
  | Some fe => inr fe
  | None => inl (Errorw "unable to decode FileEntry: %w" ErrGobDecode)
  end.

(** ** [engine.go] *)

(** [func NewBistcaskEngine(directory string)]: every failure ends in
    [log.Fatalf], after which there is no engine. *)
Definition open_active_file (directory : string) (w : World)
    : (error + BitcaskEngine) * World :=
  let filename := Sprintf_d_data (now w) in
  let w2 := mkWorld (files w) (clock w) (S (ticks w)) (open_files w) in
  let activeFilePath := filepath_Join directory filename in
  let be0 := mkEngine ∅ None directory (1 * 1024 * 1024) in
  match os_OpenFile activeFilePath (mkState be0 w2) with
  | (inl e, s) => (inl (Fatalf "Error creating new file '%s': '%v'" e), world s)
  | (inr newActiveFile, s) =>
      (inr (mkEngine ∅ (Some newActiveFile) directory (1 * 1024 * 1024)),
       world s)
  end.

Definition NewBistcaskEngine (directory : string) (w : World)
    : (error + BitcaskEngine) * World :=
  match os_Stat directory w with
  | inl ErrNotExist =>
      match os_MkdirAll directory w with
      | inl e => (inl (Fatalf "Error creating directory '%s': %v" e), w)
      | inr w1 => open_active_file directory w1
      end
  | inl e => (inl (Fatalf "Error checking directory '%s': '%v'" e), w)
  | inr _ => open_active_file directory w
  end.

(** [func (be *BitcaskEngine) Close()]: the field is set to nil before
    the error of closing the file, if any, is returned. *)
Definition Close : M unit :=
  be ← get_engine;
  match ActiveFile be with
  | None => mret tt
  | Some _ => and_then_always ActiveFile_Close (set_ActiveFile None)
  end.

(** [func (be *BitcaskEngine) fetchFromDisk(record *KeyDir)] *)
Definition fetchFromDisk (record : KeyDir.t) : M FileEntry.t :=
  w ← get_world;
  match files w !! KeyDir.FileID record with
  | None => fail (Errorw "unable to open file '%s': %w" ErrNotExist)
  | Some node =>
      let payloadStartOffset := int64 (KeyDir.ValuePos record + 8) in
      let payloadLength := int64 (int64 (KeyDir.ValueSz record) - 8) in
      if payloadLength <? 0 then
        fail (Errorf "invalid payload length calculated for record %v")
      else
        let read :=
          match node with
          | RegularFile c => ReadAt c (uint64 payloadLength) payloadStartOffset
          | Directory => inl ErrIsDir
          end in
        match read with
        | inl e =>
            fail (Errorw
                    "unable to read buffer at offset '%d' with size '%d': %w" e)
        | inr buf =>
            match DeserializeFileEntry buf with
            | inl e => fail (Errorw "failed to deserialize file entry: %w" e)
            | inr fileEntry => mret fileEntry
            end
        end
  end.

(** [func (be *BitcaskEngine) Get(key string)] *)
Definition Get (key : string) : M string :=
  be ← get_engine;
  match Keydir be !! key with
  | None => fail (Errorf "key not found error")
  | Some record =>
      entry ← wrap "unable to fetch record from disk error: %w"
                (fetchFromDisk record);
      if FileEntry.IsTombstone entry then
        fail (Errorf "key '%s' has been deleted")
      else mret (FileEntry.Value entry)
  end.

(** [func (be *BitcaskEngine) rollOverActiveFile()] *)
Definition rollOverActiveFile : M unit :=
  be ← get_engine;
  match ActiveFile be with
  | Some _ => wrap "error closing old active file: %w" ActiveFile_Close
  | None => mret tt
  end;;
  tstamp ← time_Now_Unix;
  let filename := Sprintf_d_data tstamp in
  let activeFilePath := filepath_Join (ActiveDir be) filename in
  newActiveFile ← wrap "unable to open new active file '%s': %w"
                    (os_OpenFile activeFilePath);
  set_ActiveFile (Some newActiveFile).

(** [func (be *BitcaskEngine) putFileEntry(fileEntry *FileEntry)] *)
Definition putFileEntry (fileEntry : FileEntry.t) : M KeyDir.t :=
  let serializedFileEntryBytes := gob_encode fileEntry in
  let payloadLen := uint64 (len serializedFileEntryBytes) in
  let lenBuf := PutUint64 payloadLen in
  let totalLen := int64 (uint64 (8 + payloadLen)) in
  size ← wrap "cannot stat active file: %w" ActiveFile_Stat_Size;
  be ← get_engine;
  (if int64 (size + totalLen) >? MaxFileSize be then
     wrap "failed to roll over active file: %w" rollOverActiveFile
   else mret tt);;
  offset ← wrap "unable to get current file offset: %w" ActiveFile_Seek_Current;
  wrap "unable to write length prefix: %w" (ActiveFile_Write lenBuf);;
  nbytes ← wrap "unable to write file entry payload: %w"
             (ActiveFile_Write serializedFileEntryBytes);
  if negb (uint64 nbytes =? payloadLen) then
    fail (Errorf "write size mismatch: expected %d bytes, wrote %d")
  else
    name ← ActiveFile_Name;
    mret (KeyDir.mk name (uint64 (8 + nbytes)) offset
            (FileEntry.Tstamp fileEntry)).

(** [func (be *BitcaskEngine) Put(key, value string)] *)
Definition Put (key value : string) : M unit :=
  fileEntry ← wrap "failed to create file entry: %w"
                (NewFileEntry key value false);
  keydirEntry ← wrap "unable to insert key-value pair into disk: %w"
                  (putFileEntry fileEntry);
  be ← get_engine;
  set_Keydir (<[key := keydirEntry]> (Keydir be)).

(** [func (be *BitcaskEngine) Delete(key string)] *)
Definition Delete (key : string) : M unit :=
  be ← get_engine;
  match Keydir be !! key with
  | None => fail (Errorf "key '%s' not found for deletion")
  | Some _ =>
      tombstoneEntry ← wrap "failed to create tombstone entry for key '%s': %w"
                         (NewFileEntry key "" true);
      wrap "unable to put tombstone value into disk: %w"
        (putFileEntry tombstoneEntry);;
      be' ← get_engine;
      set_Keydir (delete key (Keydir be'))
  end.

(** The directory update of one decoded record, lines 364-387 of
    [processOldFile]: [existing] and [ok] are the two results of
    [be.Keydir[fe.Key]]. *)
Definition newer_or_absent (existing : option KeyDir.t) (fe : FileEntry.t)
    : bool :=
  match existing with
  | None => true                                          (* !ok *)
  | Some e => FileEntry.Tstamp fe >=? KeyDir.Tstamp e
  end.

Definition indexRecord (filePath : string) (recordStartOffset payloadLen : Z)
    (fe : FileEntry.t) (kd : gmap string KeyDir.t) : gmap string KeyDir.t :=
  let recordTotalSize := uint64 (8 + payloadLen) in
  let existingKeyDirEntry := kd !! FileEntry.Key fe in
  if FileEntry.IsTombstone fe then
    if newer_or_absent existingKeyDirEntry fe
    then delete (FileEntry.Key fe) kd
    else kd
  else
    if newer_or_absent existingKeyDirEntry fe
    then <[FileEntry.Key fe :=
             KeyDir.mk filePath recordTotalSize recordStartOffset
               (FileEntry.Tstamp fe)]> kd
    else kd.

(** The [for] loop of [processOldFile] on the unread part [rest] of the
    file.  [fuel] bounds the number of iterations; every iteration that
    does not return reads at least the eight bytes of a length prefix.
    (After a [ReadFull] without error [n] is the length asked for, so the
    two short-read branches of the source are dead.) *)
Fixpoint scanRecords (fuel : nat) (filePath : string)
    (rest : list Byte.byte) (currentOffset : Z) : M unit :=
  match fuel with
  | O => fail OutOfFuel
  | S fuel' =>
      match ReadFull rest 8 with
      | inl EOF => mret tt
      | inl e =>
          fail (Errorw
                  "error reading length prefix from '%s' at offset %d: %w" e)
      | inr (lenBuf, rest1) =>
          let payloadLen := Uint64 lenBuf in
          let recordStartOffset := currentOffset in
          if payloadLen >? max_int64 then fail PanicMakeslice
          else
            match ReadFull rest1 payloadLen with
            | inl e =>
                fail (Errorw
                        "error reading payload from '%s' at offset %d (payload length %d): %w"
                        e)
            | inr (payloadBuf, rest2) =>
                match DeserializeFileEntry payloadBuf with
                | inl e =>
                    fail (Errorw
                            "error deserializing FileEntry from '%s' at offset %d: %w"
                            e)
                | inr fe =>
                    let recordTotalSize := uint64 (8 + payloadLen) in
                    be ← get_engine;
                    set_Keydir
                      (indexRecord filePath recordStartOffset payloadLen fe
                         (Keydir be));;
                    scanRecords fuel' filePath rest2
                      (int64 (currentOffset + int64 recordTotalSize))
                end
            end
      end
  end.

(** [func (be *BitcaskEngine) processOldFile(filePath string)] *)
Definition processOldFile (filePath : string) : M unit :=
  w ← get_world;
  match files w !! filePath with
  | None => fail (Errorw "unable to open file '%s': %w" ErrNotExist)
  | Some Directory =>
      fail (Errorw "error reading length prefix from '%s' at offset %d: %w"
              ErrIsDir)
  | Some (RegularFile c) => scanRecords (S (length c)) filePath c 0
  end.

(** The comparison given to [sort.Slice] in [BuildIndex]. *)
Definition less_by_timestamp (a b : DirEntry) : bool :=
  let fileI := TrimSuffix (Name a) ".data" in
  let fileJ := TrimSuffix (Name b) ".data" in
  match ParseInt fileI, ParseInt fileJ with
  | Some tsI, Some tsJ => tsI <? tsJ
  | _, _ => string_lt (Name a) (Name b)
  end.

(** The [for ... range directoryEntries] loop of [BuildIndex]. *)
Fixpoint processEntries (dir : string) (entries : list DirEntry) : M unit :=
  match entries with
  | [] => mret tt
  | fileInfo :: entries' =>
      if IsDir fileInfo || negb (HasSuffix (Name fileInfo) ".data") then
        processEntries dir entries'
      else
        wrap "failed processing file '%s': %w"
          (processOldFile (filepath_Join dir (Name fileInfo)));;
        processEntries dir entries'
  end.

(** [func (be *BitcaskEngine) BuildIndex()] *)
Definition BuildIndex : M unit :=
  be ← get_engine;
  directoryEntries ← wrap "unable to read directory '%s': %w"
                       (os_ReadDir (ActiveDir be));
  processEntries (ActiveDir be) (sort_Slice less_by_timestamp directoryEntries).

End Engine.


(** ** Vocabulary of the statements *)

(** The world after one reading of the clock. *)
Definition tick (w : World) : World :=
  mkWorld (files w) (clock w) (S (ticks w)) (open_files w).

(** The world after the descriptor on [p] was closed, and after a
    descriptor on [p] was opened. *)
Definition closed_in (p : string) (w : World) : World :=
  mkWorld (files w) (clock w) (ticks w) (close_one p (open_files w)).

Definition opened_in (p : string) (w : World) : World :=
  mkWorld (files w) (clock w) (ticks w) (p :: open_files w).

(** The table of open descriptors after [Close]: the descriptor of the
    engine, when it has one that is open, is closed. *)
Definition open_files_after_Close (s : State) : list string :=
  match ActiveFile (engine s) with
  | Some f =>
      if file_closed f then open_files (world s)
      else close_one (file_name f) (open_files (world s))
  | None => open_files (world s)
  end.

(** The entry [NewFileEntry] builds when the clock reads [tstamp]. *)
Definition entry_at (tstamp : Z) (key value : string) (isTombstone : bool)
    : FileEntry.t :=
  FileEntry.mk
    (crc32_update (crc32_update 0 (list_byte_of_string key))
       (list_byte_of_string value))
    tstamp
    (uint32 (Z.of_nat (String.length key)))
    (uint32 (Z.of_nat (String.length value)))
    key value isTombstone.

(** The state [s] with the key directory replaced. *)
Definition with_Keydir (kd : gmap string KeyDir.t) (s : State) : State :=
  mkState
    (mkEngine kd (ActiveFile (engine s)) (ActiveDir (engine s))
       (MaxFileSize (engine s)))
    (world s).

(** The state [s] with [MaxFileSize] set by the owner of the engine. *)
Definition with_MaxFileSize (m : Z) (s : State) : State :=
  mkState
    (mkEngine (Keydir (engine s)) (ActiveFile (engine s))
       (ActiveDir (engine s)) m)
    (world s).

(** [name] is a file name: not empty, without separator, neither [.]
    nor [..]. *)
Definition plain_name (name : string) : bool :=
  negb (has_separator name) && negb (String.eqb name "") &&
  negb (String.eqb name ".") && negb (String.eqb name "..").

(** [dir] is written as [filepath.Clean] returns it, and is neither the
    current directory nor the root. *)
Definition clean_dir (dir : string) : bool :=
  String.eqb (filepath_Clean dir) dir &&
  negb (String.eqb dir ".") && negb (String.eqb dir "/").

(** The content of the regular file at [p], empty when there is none. *)
Definition content_at (fs : gmap string Node) (p : string) : list Byte.byte :=
  match fs !! p with
  | Some (RegularFile c) => c
  | _ => []
  end.

(** No directory stands where a segment file would be created. *)
Definition segment_paths_free (fs : gmap string Node) : Prop :=
  forall p, fs !! p = Some Directory -> HasSuffix p ".data" = false.

(** The engine holds an open descriptor [f] on the regular file of
    content [c]. *)
Definition active_on (s : State) (f : File) (c : list Byte.byte) : Prop :=
  ActiveFile (engine s) = Some f /\ file_closed f = false /\
  files (world s) !! file_name f = Some (RegularFile c).

Section Vocabulary.
Context `{codec : GobCodec}.

(** A framed record: the eight-byte length prefix, then the payload. *)
Definition frame (fe : FileEntry.t) : list Byte.byte :=
  PutUint64 (uint64 (len (gob_encode fe))) ++ gob_encode fe.

(** The state and the locator after the frame of [fe] went to the end of
    the file [p] of content [c] through a descriptor at offset [off]. *)
Definition written (be : BitcaskEngine) (w : World) (p : string) (off : Z)
    (c : list Byte.byte) (fe : FileEntry.t) : (error + KeyDir.t) * State :=
  (inr (KeyDir.mk p (uint64 (8 + len (gob_encode fe))) off
          (FileEntry.Tstamp fe)),
   mkState
     (mkEngine (Keydir be) (Some (mkFile p (len (c ++ frame fe)) false))
        (ActiveDir be) (MaxFileSize be))
     (mkWorld (<[p := RegularFile (c ++ frame fe)]> (files w))
        (clock w) (ticks w) (open_files w))).

(** The test of [putFileEntry] that decides on a rollover, for an active
    file of content [c]. *)
Definition rolls_over (be : BitcaskEngine) (c : list Byte.byte)
    (fe : FileEntry.t) : bool :=
  int64 (len c + int64 (uint64 (8 + uint64 (len (gob_encode fe)))))
    >? MaxFileSize be.

(** What [putFileEntry] does on an engine whose descriptor [f] is open on
    a file of content [c]: when it rolls over, the descriptor [f] is
    closed, the clock is read and the segment named after it is opened,
    which fails when a directory has that name. *)
Definition putFileEntry_outcome (fe : FileEntry.t) (be : BitcaskEngine)
    (w : World) (f : File) (c : list Byte.byte) : (error + KeyDir.t) * State :=
  if rolls_over be c fe then
    let p := filepath_Join (ActiveDir be) (Sprintf_d_data (now w)) in
    match files w !! p with
    | Some Directory =>
        (inl (Errorw "failed to roll over active file: %w"
                (Errorw "unable to open new active file '%s': %w" ErrIsDir)),
         mkState
           (mkEngine (Keydir be)
              (Some (mkFile (file_name f) (file_offset f) true))
              (ActiveDir be) (MaxFileSize be))
           (tick (closed_in (file_name f) w)))
    | _ =>
        written be (opened_in p (tick (closed_in (file_name f) w))) p 0
          (content_at (files w) p) fe
    end
  else written be w (file_name f) (file_offset f) c fe.

End Vocabulary.

(** ** Concrete runs *)

(** A world with no file at all, whose clock reads [t] at each reading. *)
Definition still_world (t : Z) : World := mkWorld ∅ (fun _ => t) 0 [].

(** A world with no file at all, whose clock reads [t] once and [t'] at
    every later reading. *)
Definition stepping_world (t t' : Z) : World :=
  mkWorld ∅ (fun n => match n with O => t | S _ => t' end) 0 [].

(** The state after [NewBistcaskEngine(directory)]; when the process exits
    with [log.Fatalf] there is no engine, which the nil active file of the
    placeholder stands for. *)
Definition opened (directory : string) (w : World) : State :=
  match NewBistcaskEngine directory w with
  | (inr be, w') => mkState be w'
  | (inl _, w') => mkState (mkEngine ∅ None directory 0) w'
  end.

(** The state after a run of [m]. *)
Definition after {A} (m : M A) (s : State) : State := (m s).2.

(** [p] is a regular file of [fs]. *)
Definition regular_at (fs : gmap string Node) (p : string) : Prop :=
  exists c, fs !! p = Some (RegularFile c).

(** Every node of [fs] is still there in [fs'], with its kind. *)
Definition fs_extends (fs fs' : gmap string Node) : Prop :=
  forall p,
    (fs !! p = Some Directory -> fs' !! p = Some Directory) /\
    (regular_at fs p -> regular_at fs' p).

(** The [.data] entries of a listing, as [TestRollOver] counts them. *)
Definition data_files (entries : list DirEntry) : list DirEntry :=
  List.filter (fun e => HasSuffix (Name e) ".data") entries.

Section Appends.
Context `{codec : GobCodec}.

(** The state after the entries of [fes] were appended in turn. *)
Definition run_appends (fes : list FileEntry.t) (s : State) : State :=
  fold_left (fun s fe => after (putFileEntry fe) s) fes s.

End Appends.

(** ** The records a rebuild replays *)

(** A record met by the rebuild: the file, the offset of its length
    prefix, the length of its payload, and the decoded entry. *)
Record Replayed := mkReplayed {
  rp_file : string;
  rp_offset : Z;
  rp_payloadLen : Z;
  rp_entry : FileEntry.t
}.

Definition apply_replayed (kd : gmap string KeyDir.t) (r : Replayed)
    : gmap string KeyDir.t :=
  indexRecord (rp_file r) (rp_offset r) (rp_payloadLen r) (rp_entry r) kd.

(** The key directory after the records of [recs] were replayed in turn. *)
Definition replay (recs : list Replayed) (kd : gmap string KeyDir.t)
    : gmap string KeyDir.t :=
  fold_left apply_replayed recs kd.

Section ReplayedRecords.
Context `{codec : GobCodec}.

(** The loop of [processOldFile] without the engine: the records it
    decodes before it stops, and how it stops. *)
Fixpoint scanned (fuel : nat) (filePath : string) (rest : list Byte.byte)
    (currentOffset : Z) : list Replayed * (error + unit) :=
  match fuel with
  | O => ([], inl OutOfFuel)
  | S fuel' =>
      match ReadFull rest 8 with
      | inl EOF => ([], inr tt)
      | inl e =>
          ([], inl (Errorw
                      "error reading length prefix from '%s' at offset %d: %w"
                      e))
      | inr (lenBuf, rest1) =>
          let payloadLen := Uint64 lenBuf in
          if payloadLen >? max_int64 then ([], inl PanicMakeslice)
          else
            match ReadFull rest1 payloadLen with
            | inl e =>
                ([], inl (Errorw
                            "error reading payload from '%s' at offset %d (payload length %d): %w"
                            e))
            | inr (payloadBuf, rest2) =>
                match DeserializeFileEntry payloadBuf with
                | inl e =>
                    ([], inl (Errorw
                                "error deserializing FileEntry from '%s' at offset %d: %w"
                                e))
                | inr fe =>
                    let next :=
                      scanned fuel' filePath rest2
                        (int64 (currentOffset
                                + int64 (uint64 (8 + payloadLen)))) in
                    (mkReplayed filePath currentOffset payloadLen fe :: next.1,
                     next.2)
                end
            end
      end
  end.

(** The records of one segment file, as [processOldFile] meets them. *)
Definition scanned_file (fs : gmap string Node) (filePath : string)
    : list Replayed * (error + unit) :=
  match fs !! filePath with
  | None => ([], inl (Errorw "unable to open file '%s': %w" ErrNotExist))
  | Some Directory =>
      ([], inl (Errorw
                  "error reading length prefix from '%s' at offset %d: %w"
                  ErrIsDir))
  | Some (RegularFile c) => scanned (S (length c)) filePath c 0
  end.

(** The records of the listed files, as the loop of [BuildIndex] meets
    them: it stops at the first file that fails. *)
Fixpoint scanned_entries (fs : gmap string Node) (dir : string)
    (entries : list DirEntry) : list Replayed * (error + unit) :=
  match entries with
  | [] => ([], inr tt)
  | fileInfo :: entries' =>
      if IsDir fileInfo || negb (HasSuffix (Name fileInfo) ".data") then
        scanned_entries fs dir entries'
      else
        match scanned_file fs (filepath_Join dir (Name fileInfo)) with
        | (recs, inl e) =>
            (recs, inl (Errorw "failed processing file '%s': %w" e))
        | (recs, inr _) =>
            let next := scanned_entries fs dir entries' in
            (recs ++ next.1, next.2)
        end
  end.

(** The records a rebuild of the data directory [dir] replays. *)
Definition scanned_directory (w : World) (dir : string)
    : list Replayed * (error + unit) :=
  match os_ReadDir dir (mkState (mkEngine ∅ None dir 0) w) with
  | (inl e, _) => ([], inl (Errorw "unable to read directory '%s': %w" e))
  | (inr entries, _) =>
      scanned_entries (files w) dir (sort_Slice less_by_timestamp entries)
  end.

End ReplayedRecords.

(** Every entry of [kd] has, among [recs], a record of its key that is at
    least as recent. *)
Definition covered_by (recs : list Replayed) (kd : gmap string KeyDir.t)
    : Prop :=
  forall K e, kd !! K = Some e ->
    exists r, r ∈ recs /\ FileEntry.Key (rp_entry r) = K /\
              KeyDir.Tstamp e <= FileEntry.Tstamp (rp_entry r).

(** [kd1] and [kd2] agree at [K], or [kd1] still holds an entry that
    nothing met so far could replace, that [kd2] never had, and that a
    record still to come will replace in both. *)
Definition agree_or_pending (recs : list Replayed)
    (kd1 kd2 : gmap string KeyDir.t) (K : string) : Prop :=
  kd1 !! K = kd2 !! K \/
  exists e,
    kd1 !! K = Some e /\
    (forall e2, kd2 !! K = Some e2 -> KeyDir.Tstamp e2 < KeyDir.Tstamp e) /\
    exists r, r ∈ recs /\ FileEntry.Key (rp_entry r) = K /\
              KeyDir.Tstamp e <= FileEntry.Tstamp (rp_entry r).

(** ** Sequences of operations *)

Inductive op :=
| OpPut (key value : string)
| OpDelete (key : string)
| OpGet (key : string)
| OpClose
| OpBuildIndex.

Section Operations.
Context `{codec : GobCodec}.

Definition run_op (o : op) (s : State) : State :=
  match o with
  | OpPut key value => after (Put key value) s
  | OpDelete key => after (Delete key) s
  | OpGet key => after (Get key) s
  | OpClose => after Close s
  | OpBuildIndex => after BuildIndex s
  end.

Definition run_ops (ops : list op) (s : State) : State :=
  fold_left (fun s o => run_op o s) ops s.

End Operations.


Section Framing.
Context `{codec : GobCodec}.

(** The records of a file made of the frames of [fes], the first of them
    at [off]. *)
Fixpoint framed_records (filePath : string) (off : Z)
    (fes : list FileEntry.t) : list Replayed :=
  match fes with
  | [] => []
  | fe :: fes' =>
      mkReplayed filePath off (len (gob_encode fe)) fe ::
      framed_records filePath
        (int64 (off + int64 (8 + len (gob_encode fe)))) fes'
  end.

End Framing.

(** The update of the write path: the record replaces whatever entry its
    key has. *)
Definition apply_always (kd : gmap string KeyDir.t) (r : Replayed)
    : gmap string KeyDir.t :=
  if FileEntry.IsTombstone (rp_entry r) then
    delete (FileEntry.Key (rp_entry r)) kd
  else
    <[FileEntry.Key (rp_entry r) :=
        KeyDir.mk (rp_file r) (uint64 (8 + rp_payloadLen r)) (rp_offset r)
          (FileEntry.Tstamp (rp_entry r))]> kd.

(** ** Vocabulary of the further properties *)

(** Every node of [fs] is still in [fs'], a directory as a directory and a
    regular file with its bytes as a prefix of the bytes it holds now. *)
Definition fs_grows (fs fs' : gmap string Node) : Prop :=
  forall p,
    (fs !! p = Some Directory -> fs' !! p = Some Directory) /\
    (forall c, fs !! p = Some (RegularFile c) ->
       exists more, fs' !! p = Some (RegularFile (c ++ more))).

(** The operation [o] is not a write of [key], and not a rebuild. *)
Definition leaves (key : string) (o : op) : bool :=
  match o with
  | OpPut k _ => negb (String.eqb k key)
  | OpDelete k => negb (String.eqb k key)
  | OpGet _ => true
  | OpClose => true
  | OpBuildIndex => false
  end.

(** The timestamp that the comparison of [BuildIndex] reads in the name
    of a directory entry, when the name has one. *)
Definition name_timestamp (e : DirEntry) : option Z :=
  ParseInt (TrimSuffix (Name e) ".data").

Section RecoveryVocabulary.
Context `{codec : GobCodec}.

(** The records of the frames of [fes] laid end to end from the byte
    [off] of the file: each with the position of its length prefix. *)
Fixpoint located (filePath : string) (off : Z) (fes : list FileEntry.t)
    : list Replayed :=
  match fes with
  | [] => []
  | fe :: fes' =>
      mkReplayed filePath off (len (gob_encode fe)) fe ::
      located filePath (off + (8 + len (gob_encode fe))) fes'
  end.

(** [tail] is the beginning of a frame that was not written to its end. *)
Definition torn (tail : list Byte.byte) : Prop :=
  exists fe more,
    tail <> [] /\ more <> [] /\ tail ++ more = frame fe /\
    len (frame fe) <= max_int64.

(** The record [r] lies in a file of content [c]: at the offset of [r]
    there are the eight bytes of a length prefix and then a payload, of
    the length of [r], that decodes to the entry of [r]. *)
Definition record_in (c : list Byte.byte) (r : Replayed) : Prop :=
  exists pre lenBuf payload post,
    c = pre ++ lenBuf ++ payload ++ post /\
    len pre = rp_offset r /\ len lenBuf = 8 /\
    len payload = rp_payloadLen r /\
    gob_decode payload = Some (rp_entry r).

End RecoveryVocabulary.

Section PersistenceVocabulary.
Context `{codec : GobCodec}.

(** The frame of [fe] goes to the end of the active file, without a
    rollover, and the file stays within [int64]. *)
Definition fits_in_place (s : State) (fe : FileEntry.t) : bool :=
  match ActiveFile (engine s) with
  | Some f =>
      match files (world s) !! file_name f with
      | Some (RegularFile c) =>
          negb (rolls_over (engine s) c fe) &&
          (len c + 8 + len (gob_encode fe) <=? max_int64)
      | _ => false
      end
  | None => false
  end.

(** The operation [o] is a [Get], or a [Put] or [Delete] whose record, if
    it writes one, goes to the end of the active file. *)
Definition in_place (o : op) (s : State) : bool :=
  match o with
  | OpPut key value =>
      fits_in_place s (entry_at (now (world s)) key value false)
  | OpDelete key =>
      match Keydir (engine s) !! key with
      | Some _ => fits_in_place s (entry_at (now (world s)) key "" true)
      | None => true
      end
  | OpGet _ => true
  | OpClose => false
  | OpBuildIndex => false
  end.

Fixpoint all_in_place (ops : list op) (s : State) : bool :=
  match ops with
  | [] => true
  | o :: ops' => in_place o s && all_in_place ops' (run_op o s)
  end.

(** The active file is the segment [p]; it holds the frames of [fes] and
    nothing else, the descriptor is at its end, the key directory is the
    replay of these records, and no record is ahead of the clock. *)
Definition synced (s : State) (p : string) (fes : list FileEntry.t) : Prop :=
  (exists f, active_on s f (flat_map frame fes) /\ file_name f = p /\
             file_offset f = len (flat_map frame fes)) /\
  len (flat_map frame fes) <= max_int64 /\
  Keydir (engine s) = replay (located p 0 fes) ∅ /\
  Forall (fun fe => FileEntry.Tstamp fe <= now (world s)) fes.

End PersistenceVocabulary.

(** The clock does not go back from its reading number [n] on. *)
Definition clock_monotone (clk : nat -> Z) (n : nat) : Prop :=
  forall i j, (n <= i)%nat -> (i <= j)%nat -> int64 (clk i) <= int64 (clk j).

(** Nothing is listed in [dir] yet: [dir] is a directory or does not
    exist, and no node is an entry of it. *)
Definition dir_unused (w : World) (dir : string) : Prop :=
  (files w !! dir = None \/ files w !! dir = Some Directory) /\
  forall q n, files w !! q = Some n -> entry_of dir (q, n) = None.
(** ** A codec instance

    [gob] itself is not modelled.  To run the engine on concrete inputs
    the interface is instantiated with a self-delimiting encoding: numbers
    bit by bit behind a sign tag, strings byte by byte behind a
    continuation tag, the fields in the order of the struct. *)
Module TaggedCodec.

Fixpoint enc_pos (p : positive) : list Byte.byte :=
  match p with
  | xH => [Byte.x01]
  | xO p' => Byte.x02 :: enc_pos p'
  | xI p' => Byte.x03 :: enc_pos p'
  end.

Fixpoint dec_pos (l : list Byte.byte) : option (positive * list Byte.byte) :=
  match l with
  | Byte.x01 :: r => Some (xH, r)
  | Byte.x02 :: r =>
      match dec_pos r with Some (p, r') => Some (xO p, r') | None => None end
  | Byte.x03 :: r =>
      match dec_pos r with Some (p, r') => Some (xI p, r') | None => None end
  | _ => None
  end.

Definition enc_Z (z : Z) : list Byte.byte :=
  match z with
  | Z0 => [Byte.x00]
  | Zpos p => Byte.x01 :: enc_pos p
  | Zneg p => Byte.x02 :: enc_pos p
  end.

Definition dec_Z (l : list Byte.byte) : option (Z * list Byte.byte) :=
  match l with
  | Byte.x00 :: r => Some (Z0, r)
  | Byte.x01 :: r =>
      match dec_pos r with Some (p, r') => Some (Zpos p, r') | None => None end
  | Byte.x02 :: r =>
      match dec_pos r with Some (p, r') => Some (Zneg p, r') | None => None end
  | _ => None
  end.

Fixpoint enc_bytes (l : list Byte.byte) : list Byte.byte :=
  match l with
  | [] => [Byte.x00]
  | b :: l' => Byte.x01 :: b :: enc_bytes l'
  end.

Fixpoint dec_bytes (l : list Byte.byte)
    : option (list Byte.byte * list Byte.byte) :=
  match l with
  | Byte.x00 :: r => Some ([], r)
  | Byte.x01 :: b :: r =>
      match dec_bytes r with
      | Some (bs, r') => Some (b :: bs, r')
      | None => None
      end
  | _ => None
  end.

Definition enc_bool (b : bool) : list Byte.byte :=
  [if b then Byte.x01 else Byte.x00].

Definition dec_bool (l : list Byte.byte) : option (bool * list Byte.byte) :=
  match l with
  | Byte.x00 :: r => Some (false, r)
  | Byte.x01 :: r => Some (true, r)
  | _ => None
  end.

Definition encode (fe : FileEntry.t) : list Byte.byte :=
  enc_Z (FileEntry.Crc fe) ++ enc_Z (FileEntry.Tstamp fe) ++
  enc_Z (FileEntry.Ksz fe) ++ enc_Z (FileEntry.ValueSz fe) ++
  enc_bytes (list_byte_of_string (FileEntry.Key fe)) ++
  enc_bytes (list_byte_of_string (FileEntry.Value fe)) ++
  enc_bool (FileEntry.IsTombstone fe).

Definition decode (l : list Byte.byte) : option FileEntry.t :=
  '(crc, l) ← dec_Z l;
  '(tstamp, l) ← dec_Z l;
  '(ksz, l) ← dec_Z l;
  '(vsz, l) ← dec_Z l;
  '(key, l) ← dec_bytes l;
  '(value, l) ← dec_bytes l;
  '(tomb, l) ← dec_bool l;
  match l with
  | [] => Some (FileEntry.mk crc tstamp ksz vsz (string_of_list_byte key)
                  (string_of_list_byte value) tomb)
  | _ => None
  end.

Lemma dec_enc_pos p r : dec_pos (enc_pos p ++ r) = Some (p, r).
Proof. induction p as [p IH|p IH|]; simpl; by rewrite ?IH. Qed.

Lemma dec_enc_Z z r : dec_Z (enc_Z z ++ r) = Some (z, r).
Proof. destruct z; simpl; by rewrite ?dec_enc_pos. Qed.

Lemma dec_enc_bytes l r : dec_bytes (enc_bytes l ++ r) = Some (l, r).
Proof. induction l as [|b l IH]; simpl; by rewrite ?IH. Qed.

Lemma dec_enc_bool b r : dec_bool (enc_bool b ++ r) = Some (b, r).
Proof. by destruct b. Qed.

Lemma decode_encode fe : decode (encode fe) = Some fe.
Proof.
  destruct fe as [crc ts ksz vsz k v tomb]. unfold decode, encode.
  cbn [FileEntry.Crc FileEntry.Tstamp FileEntry.Ksz FileEntry.ValueSz
       FileEntry.Key FileEntry.Value FileEntry.IsTombstone].
  rewrite <- (app_nil_r (enc_bool tomb)).
  rewrite !dec_enc_Z. cbn [mbind option_bind].
  rewrite !dec_enc_Z. cbn [mbind option_bind].
  rewrite !dec_enc_Z. cbn [mbind option_bind].
  rewrite !dec_enc_Z. cbn [mbind option_bind].
  rewrite !dec_enc_bytes. cbn [mbind option_bind].
  rewrite !dec_enc_bytes. cbn [mbind option_bind].
  rewrite dec_enc_bool. cbn [mbind option_bind].
  by rewrite !string_of_list_byte_of_string.
Qed.

End TaggedCodec.

Definition tagged_codec : GobCodec :=
  {| gob_encode := TaggedCodec.encode;
     gob_decode := TaggedCodec.decode;
     gob_decode_encode := TaggedCodec.decode_encode |}.

(** * Properties *)

Arguments int64 : simpl never.
Arguments uint64 : simpl never.
Arguments uint32 : simpl never.
Arguments PutUint64 : simpl never.
Arguments Uint64 : simpl never.
Arguments Sprintf_d : simpl never.
Arguments Sprintf_d_data : simpl never.
Arguments crc32_update : simpl never.
Arguments filepath_Join : simpl never.
Arguments len : simpl never.

(** Unfolds the monad's plumbing at the head of a run. *)
Ltac mred :=
  unfold mbind, mret, M_bind, M_ret, bind, ret, fail, wrap, and_then_always,
    get_engine, get_world, put_engine, put_world, set_Keydir, set_ActiveFile,
    set_files, set_open_files;
  cbn [engine world Keydir ActiveFile ActiveDir MaxFileSize files clock ticks
       open_files file_name file_offset file_closed fst snd].

(** Runs the monad as far as the rewriting [tac] lets it go. *)
Ltac mrun tac := mred; repeat (progress (tac; mred)).

(** ** Integers and bytes *)

Lemma int64_small z : min_int64 <= z <= max_int64 -> int64 z = z.
Proof.
  unfold int64, min_int64, max_int64. intros Hz.
  rewrite Z.mod_small; lia.
Qed.

Lemma uint64_small z : 0 <= z < 2 ^ 64 -> uint64 z = z.
Proof. unfold uint64. intros Hz. by rewrite Z.mod_small. Qed.

Lemma int64_range z : min_int64 <= int64 z <= max_int64.
Proof.
  unfold int64, min_int64, max_int64.
  pose proof (Z.mod_pos_bound (z + 2 ^ 63) (2 ^ 64)). lia.
Qed.

Lemma len_app {A} (a b : list A) : len (a ++ b) = len a + len b.
Proof. unfold len. rewrite length_app. lia. Qed.

Lemma len_nonneg {A} (a : list A) : 0 <= len a.
Proof. unfold len. lia. Qed.

Lemma Z_of_byte_of_Z z : Z_of_byte (byte_of_Z z) = z mod 256.
Proof.
  unfold Z_of_byte, byte_of_Z.
  assert (Hr : 0 <= z mod 256 < 256) by (apply Z.mod_pos_bound; lia).
  destruct (Byte.of_N (Z.to_N (z mod 256))) as [b|] eqn:Hb.
  - apply Byte.to_of_N in Hb. rewrite Hb. lia.
  - exfalso.
    pose proof (Byte.to_of_N_option_map (Z.to_N (z mod 256))) as H.
    rewrite Hb in H. simpl in H.
    destruct (N.leb_spec (Z.to_N (z mod 256)) 255); [discriminate | lia].
Qed.

Lemma length_put_be n v : length (put_be n v) = n.
Proof.
  revert v. induction n as [|n IH]; intros v; simpl; [done|].
  rewrite length_app, IH. simpl. lia.
Qed.

Lemma get_be_snoc l b : get_be (l ++ [b]) = get_be l * 256 + Z_of_byte b.
Proof. unfold get_be. by rewrite fold_left_app. Qed.

Lemma get_put_be n v : 0 <= v < 256 ^ Z.of_nat n -> get_be (put_be n v) = v.
Proof.
  revert v. induction n as [|n IH]; intros v Hv.
  - simpl in *. unfold get_be. simpl. lia.
  - cbn [put_be]. rewrite get_be_snoc, Z_of_byte_of_Z, IH.
    + pose proof (Z.div_mod v 256). lia.
    + rewrite Nat2Z.inj_succ, Z.pow_succ_r in Hv by lia.
      split; [apply Z.div_pos; lia|]. apply Z.div_lt_upper_bound; lia.
Qed.

Lemma Uint64_PutUint64 v : 0 <= v < 2 ^ 64 -> Uint64 (PutUint64 v) = v.
Proof. intros Hv. apply get_put_be. simpl. lia. Qed.

Lemma len_PutUint64 v : len (PutUint64 v) = 8.
Proof. unfold len, PutUint64. by rewrite length_put_be. Qed.

(** ** File names *)

Lemma HasSuffix_refl s : HasSuffix s s = true.
Proof. destruct s; cbn [HasSuffix]; by rewrite String.eqb_refl. Qed.

Lemma HasSuffix_app a suf : HasSuffix (a +:+ suf) suf = true.
Proof.
  induction a as [|c a IH]; [apply HasSuffix_refl|].
  change (String c a +:+ suf) with (String c (a +:+ suf)).
  cbn [HasSuffix]. rewrite IH. by rewrite orb_true_r.
Qed.

Lemma TrimSuffix_refl s : TrimSuffix s s = "".
Proof. destruct s; cbn [TrimSuffix]; by rewrite String.eqb_refl. Qed.

Lemma length_app_string (a b : string) :
  String.length (a +:+ b) = (String.length a + String.length b)%nat.
Proof.
  induction a as [|c a IH]; [done|].
  change (String c a +:+ b) with (String c (a +:+ b)). simpl. by rewrite IH.
Qed.

Lemma TrimSuffix_app a suf : TrimSuffix (a +:+ suf) suf = a.
Proof.
  induction a as [|c a IH]; [apply TrimSuffix_refl|].
  change (String c a +:+ suf) with (String c (a +:+ suf)).
  cbn [TrimSuffix].
  destruct (String.eqb_spec (String c (a +:+ suf)) suf) as [He|_].
  - apply (f_equal String.length) in He. simpl in He.
    rewrite length_app_string in He. lia.
  - by rewrite IH.
Qed.

Lemma string_app_inj_l (a b c : string) : a +:+ b = a +:+ c -> b = c.
Proof.
  induction a as [|x a IH]; [done|].
  change (String x a +:+ b) with (String x (a +:+ b)).
  change (String x a +:+ c) with (String x (a +:+ c)).
  intros [= E]. auto.
Qed.

Lemma string_app_inj_r (a b suf : string) : a +:+ suf = b +:+ suf -> a = b.
Proof.
  intros E. apply (f_equal (fun s => TrimSuffix s suf)) in E.
  by rewrite !TrimSuffix_app in E.
Qed.

Lemma to_int_nonnil z : Z.to_int z <> Pos Nil /\ Z.to_int z <> Neg Nil.
Proof.
  destruct z as [|p|p]; cbn; split; try discriminate;
    intros [= E]; by apply (Unsigned.to_uint_nonnil p).
Qed.

Lemma int_of_string_Sprintf_d z :
  NilZero.int_of_string (Sprintf_d z) = Some (Z.to_int z).
Proof. unfold Sprintf_d. apply NilZero.isi; apply to_int_nonnil. Qed.

Lemma Sprintf_d_inj z1 z2 : Sprintf_d z1 = Sprintf_d z2 -> z1 = z2.
Proof.
  intros E. apply to_int_inj.
  pose proof (int_of_string_Sprintf_d z1) as H1.
  rewrite E, int_of_string_Sprintf_d in H1. congruence.
Qed.

Lemma ParseInt_Sprintf_d z :
  min_int64 <= z <= max_int64 -> ParseInt (Sprintf_d z) = Some z.
Proof.
  intros Hz. unfold ParseInt.
  assert (Hd : match Sprintf_d z with
               | String "+"%char s' => option_map Pos (NilZero.uint_of_string s')
               | _ => NilZero.int_of_string (Sprintf_d z)
               end = Some (Z.to_int z)).
  { pose proof (int_of_string_Sprintf_d z) as Hi.
    destruct (Sprintf_d z) as [|c s'] eqn:Es; [done|].
    destruct (Ascii.eqb_spec c "+") as [->|Hc].
    - exfalso. cbn in Hi.
      destruct (NilEmpty.uint_of_string s'); cbn in Hi; discriminate.
    - rewrite <- Hi. destruct c as [[] [] [] [] [] [] [] []]; try done. }
  rewrite Hd, of_to.
  destruct (Z.leb_spec min_int64 z), (Z.leb_spec z max_int64); simpl; done || lia.
Qed.

Lemma Sprintf_d_data_inj z1 z2 : Sprintf_d_data z1 = Sprintf_d_data z2 -> z1 = z2.
Proof. intros E. by apply Sprintf_d_inj, (string_app_inj_r _ _ ".data"). Qed.

Lemma HasSuffix_Sprintf_d_data z : HasSuffix (Sprintf_d_data z) ".data" = true.
Proof. apply HasSuffix_app. Qed.

Lemma strip_prefix_app p s : strip_prefix p (p +:+ s) = Some s.
Proof.
  induction p as [|c p IH]; [done|].
  change (String c p +:+ s) with (String c (p +:+ s)).
  cbn [strip_prefix]. by rewrite Ascii.eqb_refl.
Qed.

Lemma has_separator_app a b :
  has_separator (a +:+ b) = has_separator a || has_separator b.
Proof.
  induction a as [|x a IH]; [done|].
  change (String x a +:+ b) with (String x (a +:+ b)).
  cbn [has_separator]. rewrite IH. by rewrite orb_assoc.
Qed.

Lemma has_separator_uint d : has_separator (NilEmpty.string_of_uint d) = false.
Proof.
  induction d; cbn [NilEmpty.string_of_uint has_separator]; rewrite ?IHd; done.
Qed.

Lemma has_separator_Sprintf_d z : has_separator (Sprintf_d z) = false.
Proof.
  unfold Sprintf_d, NilZero.string_of_int, NilZero.string_of_uint.
  destruct (Z.to_int z) as [d|d]; destruct d; cbn [has_separator];
    rewrite ?has_separator_uint; done.
Qed.

Lemma has_separator_Sprintf_d_data z : has_separator (Sprintf_d_data z) = false.
Proof.
  unfold Sprintf_d_data. by rewrite has_separator_app, has_separator_Sprintf_d.
Qed.

Lemma Sprintf_d_data_nonempty z : String.eqb (Sprintf_d_data z) "" = false.
Proof.
  destruct (String.eqb_spec (Sprintf_d_data z) "") as [E|]; [|done].
  pose proof (HasSuffix_Sprintf_d_data z) as H. by rewrite E in H.
Qed.

(** ** Paths *)

Lemma string_app_assoc (a b c : string) : (a +:+ b) +:+ c = a +:+ (b +:+ c).
Proof.
  induction a as [|x a IH]; [done|].
  change (String x a +:+ b) with (String x (a +:+ b)).
  change (String x (a +:+ b) +:+ c) with (String x ((a +:+ b) +:+ c)).
  change (String x a +:+ (b +:+ c)) with (String x (a +:+ (b +:+ c))).
  by rewrite IH.
Qed.

Lemma string_app_nil_r (a : string) : a +:+ "" = a.
Proof.
  induction a as [|x a IH]; [done|].
  change (String x a +:+ "") with (String x (a +:+ "")). by rewrite IH.
Qed.

Lemma split_path_nonempty s : split_path s <> [].
Proof.
  destruct s as [|c s]; cbn [split_path]; [done|].
  destruct (Ascii.eqb c "/"); [done|]. by destruct (split_path s).
Qed.

(** The elements of two paths joined by a separator. *)
Lemma split_path_app_sep a t :
  split_path (a +:+ "/" +:+ t) = split_path a ++ split_path t.
Proof.
  induction a as [|c a IH].
  - change ("" +:+ "/" +:+ t) with (String "/" t). reflexivity.
  - change (String c a +:+ "/" +:+ t) with (String c (a +:+ "/" +:+ t)).
    cbn [split_path]. rewrite IH.
    destruct (Ascii.eqb c "/"); [done|].
    pose proof (split_path_nonempty a). by destruct (split_path a).
Qed.

Lemma split_path_plain t : has_separator t = false -> split_path t = [t].
Proof.
  induction t as [|c t IH]; [done|]. cbn [has_separator split_path].
  intros [Hc Ht]%orb_false_iff. rewrite Hc, IH by done. reflexivity.
Qed.

Lemma is_rooted_plain t : has_separator t = false -> is_rooted t = false.
Proof.
  destruct t as [|c t]; [done|]. cbn [has_separator is_rooted].
  by intros [Hc _]%orb_false_iff.
Qed.

Lemma clean_step_plain rooted kept name :
  plain_name name = true -> clean_step rooted kept name = name :: kept.
Proof.
  unfold plain_name, clean_step.
  intros [[[_ H0]%andb_true_iff H1]%andb_true_iff H2]%andb_true_iff.
  apply negb_true_iff in H0, H1, H2. by rewrite H0, H1, H2.
Qed.

Lemma join_path_snoc e es x :
  join_path (e :: (es ++ [x])) = join_path (e :: es) +:+ "/" +:+ x.
Proof.
  revert e. induction es as [|e' es IH]; intros e; [done|].
  change (join_path (e :: (e' :: es) ++ [x]))
    with (e +:+ "/" +:+ join_path (e' :: (es ++ [x]))).
  change (join_path (e :: e' :: es))
    with (e +:+ "/" +:+ join_path (e' :: es)).
  by rewrite IH, !string_app_assoc.
Qed.

(** [filepath.Join] of a directory and a plain file name: the file name
    comes last, after a prefix that the directory alone decides. *)
Lemma filepath_Join_plain dir name :
  plain_name name = true ->
  filepath_Join dir name = dir_prefix dir +:+ name.
Proof.
  intros Hplain.
  assert (Hsep : has_separator name = false).
  { unfold plain_name in Hplain.
    apply andb_true_iff in Hplain as [Hplain _].
    apply andb_true_iff in Hplain as [Hplain _].
    apply andb_true_iff in Hplain as [Hplain _].
    by apply negb_true_iff. }
  destruct dir as [|c d].
  - unfold filepath_Join, dir_prefix.
    destruct name as [|x name]; [done|].
    unfold filepath_Clean, clean_elements.
    rewrite (is_rooted_plain _ Hsep), (split_path_plain _ Hsep).
    cbn [fold_left]. rewrite clean_step_plain by done. reflexivity.
  - unfold filepath_Join, dir_prefix, filepath_Clean, clean_elements.
    change (is_rooted (String c d +:+ "/" +:+ name)) with (is_rooted (String c d)).
    rewrite split_path_app_sep, (split_path_plain _ Hsep), fold_left_app.
    cbn [fold_left]. rewrite clean_step_plain by done. cbn [rev].
    destruct (rev (fold_left _ (split_path (String c d)) [])) as [|e es].
    + cbn [app join_path]. by rewrite string_app_nil_r.
    + cbn [app]. rewrite join_path_snoc. by rewrite !string_app_assoc.
Qed.

Lemma plain_Sprintf_d_data z : plain_name (Sprintf_d_data z) = true.
Proof.
  unfold plain_name.
  rewrite has_separator_Sprintf_d_data, Sprintf_d_data_nonempty. cbn [negb andb].
  pose proof (HasSuffix_Sprintf_d_data z) as H.
  destruct (String.eqb_spec (Sprintf_d_data z) ".") as [E|];
    [by rewrite E in H|].
  destruct (String.eqb_spec (Sprintf_d_data z) "..") as [E|];
    [by rewrite E in H|]. done.
Qed.

Lemma filepath_Join_inj dir z1 z2 :
  filepath_Join dir (Sprintf_d_data z1) = filepath_Join dir (Sprintf_d_data z2) ->
  Sprintf_d_data z1 = Sprintf_d_data z2.
Proof.
  rewrite !filepath_Join_plain by apply plain_Sprintf_d_data.
  apply string_app_inj_l.
Qed.

Lemma HasSuffix_app_l a s suf : HasSuffix s suf = true -> HasSuffix (a +:+ s) suf = true.
Proof.
  intros Hs. induction a as [|c a IH]; [done|].
  change (String c a +:+ s) with (String c (a +:+ s)).
  cbn [HasSuffix]. rewrite IH. by rewrite orb_true_r.
Qed.

Lemma HasSuffix_segment_path dir z :
  HasSuffix (filepath_Join dir (Sprintf_d_data z)) ".data" = true.
Proof.
  rewrite filepath_Join_plain by apply plain_Sprintf_d_data.
  apply HasSuffix_app_l, HasSuffix_Sprintf_d_data.
Qed.

(** For a clean directory the prefix is the directory and a separator. *)
Lemma dir_prefix_clean dir : clean_dir dir = true -> dir_prefix dir = dir +:+ "/".
Proof.
  unfold clean_dir, dir_prefix, filepath_Clean.
  intros [[Hc Hdot]%andb_true_iff Hroot]%andb_true_iff.
  apply negb_true_iff in Hdot, Hroot.
  destruct dir as [|c d].
  - exfalso. vm_compute in Hc. discriminate.
  - destruct (clean_elements (String c d)) as [|e es].
    + destruct (is_rooted (String c d));
        apply String.eqb_eq in Hc; rewrite <- Hc in Hdot, Hroot; done.
    + apply String.eqb_eq in Hc. rewrite <- string_app_assoc.
      by f_equal.
Qed.

Lemma filepath_Join_clean dir name :
  clean_dir dir = true -> plain_name name = true ->
  filepath_Join dir name = dir +:+ "/" +:+ name.
Proof.
  intros Hd Hn. rewrite filepath_Join_plain, dir_prefix_clean by done.
  by rewrite string_app_assoc.
Qed.

Lemma filepath_Join_neq dir name :
  clean_dir dir = true -> plain_name name = true ->
  filepath_Join dir name <> dir.
Proof.
  intros Hd Hn E. rewrite filepath_Join_clean in E by done.
  apply (f_equal String.length) in E.
  rewrite !length_app_string in E. cbn [String.length] in E. lia.
Qed.

(** ** One run of each step of the write path *)

Section Steps.
Context `{codec : GobCodec}.

Lemma NewFileEntry_run key value isTombstone be w :
  NewFileEntry key value isTombstone (mkState be w) =
    (inr (entry_at (now w) key value isTombstone), mkState be (tick w)).
Proof. reflexivity. Qed.

Lemma putFileEntry_run fe be w f c :
  ActiveFile be = Some f -> file_closed f = false ->
  files w !! file_name f = Some (RegularFile c) ->
  putFileEntry fe (mkState be w) = putFileEntry_outcome fe be w f c.
Proof.
  intros Hf Hcl Hc.
  unfold putFileEntry, putFileEntry_outcome, rolls_over, ActiveFile_Stat_Size.
  mrun ltac:(rewrite ?Hf, ?Hcl, ?Hc).
  destruct (_ >? MaxFileSize be).
  - (* rollover *)
    unfold rollOverActiveFile, ActiveFile_Close, time_Now_Unix, os_OpenFile.
    mrun ltac:(rewrite ?Hf, ?Hcl). unfold content_at.
    unfold ActiveFile_Seek_Current, ActiveFile_Write, ActiveFile_Name.
    destruct (files w !! filepath_Join _ _) as [[c'|]|] eqn:Hp; [| done |].
    + mrun ltac:(rewrite ?Hp, ?lookup_insert_eq, ?Z.eqb_refl; cbn [negb]).
      unfold written, frame, tick, opened_in, closed_in.
      cbn [files clock ticks open_files].
      by rewrite insert_insert_eq, <- !app_assoc.
    + mrun ltac:(rewrite ?lookup_insert_eq, ?Z.eqb_refl; cbn [negb]).
      unfold written, frame, tick, opened_in, closed_in.
      cbn [files clock ticks open_files].
      by rewrite !insert_insert_eq.
  - (* append to the active file *)
    unfold ActiveFile_Seek_Current, ActiveFile_Write, ActiveFile_Name.
    mrun ltac:(rewrite ?Hf, ?Hcl, ?Hc, ?lookup_insert_eq, ?Z.eqb_refl; cbn [negb]).
    unfold written, frame.
    by rewrite insert_insert_eq, <- !app_assoc.
Qed.

End Steps.

Section WritePath.
Context `{codec : GobCodec}.

Lemma Put_run key value be w kd s' :
  putFileEntry (entry_at (now w) key value false) (mkState be (tick w))
    = (inr kd, s') ->
  Put key value (mkState be w)
    = (inr tt, with_Keydir (<[key := kd]> (Keydir (engine s'))) s').
Proof.
  intros Hput. unfold Put. mred. rewrite NewFileEntry_run.
  cbv beta iota. rewrite Hput. by destruct s' as [[] ?].
Qed.

Lemma Delete_run key be w e kd s' :
  Keydir be !! key = Some e ->
  putFileEntry (entry_at (now w) key "" true) (mkState be (tick w))
    = (inr kd, s') ->
  Delete key (mkState be w)
    = (inr tt, with_Keydir (delete key (Keydir (engine s'))) s').
Proof.
  intros Hk Hput. unfold Delete. mred. rewrite Hk. mred.
  rewrite NewFileEntry_run. cbv beta iota. rewrite Hput.
  by destruct s' as [[] ?].
Qed.

Lemma segment_paths_free_insert fs p c :
  segment_paths_free fs -> segment_paths_free (<[p := RegularFile c]> fs).
Proof.
  intros Hfree q. rewrite lookup_insert. case_decide; [done|apply Hfree].
Qed.


End WritePath.

(** ** Reading does not write; deleting what is absent *)

Section ReadPath.
Context `{codec : GobCodec}.

Lemma fetchFromDisk_state record s : (fetchFromDisk record s).2 = s.
Proof.
  unfold fetchFromDisk. mred.
  destruct (files (world s) !! KeyDir.FileID record) as [node|]; [|done].
  destruct (_ <? 0); [done|].
  destruct node as [c|]; [|done].
  destruct (ReadAt _ _ _) as [e|buf]; [done|].
  by destruct (DeserializeFileEntry buf).
Qed.

Lemma Get_state key s : (Get key s).2 = s.
Proof.
  unfold Get. mred.
  destruct (Keydir (engine s) !! key) as [record|]; [|done].
  pose proof (fetchFromDisk_state record s) as Hs.
  destruct (fetchFromDisk record s) as [[e|entry] s']; cbn in Hs; subst s';
    [done|].
  by destruct (FileEntry.IsTombstone entry).
Qed.

(** C10. [Get] leaves the whole state as it found it, whatever it returns:
    the key directory, the active file and its descriptor, every file of
    the file system (and the clock, which it does not read). *)
Theorem Get_preserves_state key s :
  let s' := (Get key s).2 in
  Keydir (engine s') = Keydir (engine s) /\
  ActiveFile (engine s') = ActiveFile (engine s) /\
  files (world s') = files (world s) /\
  s' = s.
Proof. intros s'. subst s'. by rewrite Get_state. Qed.

(** C8. [Delete] of a key that the key directory does not hold returns an
    error and changes nothing: neither the key directory nor any file. *)
Theorem Delete_absent_key key s :
  Keydir (engine s) !! key = None ->
  Delete key s = (inl (Errorf "key '%s' not found for deletion"), s).
Proof. intros Hk. unfold Delete. mred. by rewrite Hk. Qed.

End ReadPath.

Lemma Delete_absent_key_witness :
  Keydir (engine (opened "db" (still_world 100))) !! "a" = None /\
  @Delete tagged_codec "a" (opened "db" (still_world 100)) =
    (inl (Errorf "key '%s' not found for deletion"),
     opened "db" (still_world 100)).
Proof.
  split; [reflexivity|].
  apply (@Delete_absent_key tagged_codec "a"). reflexivity.
Defined.

(** ** Close *)

Section Closing.
Context `{codec : GobCodec}.

Lemma Close_ActiveFile s : ActiveFile (engine (after Close s)) = None.
Proof.
  unfold after, Close, ActiveFile_Close. mred.
  destruct (ActiveFile (engine s)) as [f|] eqn:Hf; [|done].
  mrun ltac:(rewrite ?Hf).
  destruct (file_closed f); by mrun idtac.
Qed.

Lemma Close_frame s :
  Keydir (engine (after Close s)) = Keydir (engine s) /\
  files (world (after Close s)) = files (world s).
Proof.
  unfold after, Close, ActiveFile_Close. mred.
  destruct (ActiveFile (engine s)) as [f|] eqn:Hf; [|done].
  mrun ltac:(rewrite ?Hf).
  destruct (file_closed f); by mrun idtac.
Qed.

Lemma Get_result_frame key s s' :
  Keydir (engine s') = Keydir (engine s) ->
  files (world s') = files (world s) ->
  (Get key s').1 = (Get key s).1.
Proof.
  intros Hkd Hfs. unfold Get, fetchFromDisk. mred. rewrite Hkd.
  destruct (Keydir (engine s) !! key) as [record|]; [|done].
  rewrite Hfs.
  destruct (files (world s) !! KeyDir.FileID record) as [node|]; [|done].
  destruct (_ <? 0); [done|].
  destruct node as [c|]; [|done].
  destruct (ReadAt _ _ _) as [e|buf]; [done|].
  destruct (DeserializeFileEntry buf) as [e|entry]; [done|].
  by destruct (FileEntry.IsTombstone entry).
Qed.

Lemma putFileEntry_closed fe s :
  ActiveFile (engine s) = None ->
  (putFileEntry fe s).1 = inl (Errorw "cannot stat active file: %w" ErrInvalid).
Proof.
  intros Hnil. unfold putFileEntry, ActiveFile_Stat_Size. mred. by rewrite Hnil.
Qed.

(** C9, as the code has it.  After [Close] (whatever it returned) a second
    [Close] succeeds and changes nothing, every [Put] and every [Delete]
    returns an error, and [Get] returns what it returned before the
    engine was closed. *)
Theorem Close_then_operations s :
  let s' := after Close s in
  Close s' = (inr tt, s') /\
  (forall key value, exists e, (Put key value s').1 = inl e) /\
  (forall key, exists e, (Delete key s').1 = inl e) /\
  (forall key, (Get key s').1 = (Get key s).1).
Proof.
  intros s'. pose proof (Close_ActiveFile s) as Hnil. fold s' in Hnil.
  destruct (Close_frame s) as [Hkd Hw]. fold s' in Hkd, Hw.
  repeat split.
  - unfold Close. mred. by rewrite Hnil.
  - intros key value. unfold Put. mred.
    destruct s' as [be w]. rewrite NewFileEntry_run. cbv beta iota.
    pose proof (putFileEntry_closed (entry_at (now w) key value false)
                  (mkState be (tick w)) Hnil) as Hput.
    destruct (putFileEntry _ _) as [[e|kd] s1]; cbn in Hput; [eauto|done].
  - intros key. unfold Delete. mred.
    destruct (Keydir (engine s') !! key) as [record|]; [|eauto].
    destruct s' as [be w]. mred. rewrite NewFileEntry_run. cbv beta iota.
    pose proof (putFileEntry_closed (entry_at (now w) key "" true)
                  (mkState be (tick w)) Hnil) as Hput.
    destruct (putFileEntry _ _) as [[e|kd] s1]; cbn in Hput; [eauto|done].
  - intros key. by apply Get_result_frame.
Qed.

End Closing.

(** C9, as stated, fails: an engine is opened, ["a"] is put, the engine is
    closed without error, and [Get] still returns the value. *)
Lemma Get_after_Close_succeeds :
  let s := after (@Put tagged_codec "a" "1") (opened "db" (still_world 100)) in
  (Close s).1 = inr tt /\
  ~ (exists e, (@Get tagged_codec "a" (after Close s)).1 = inl e).
Proof.
  split; [reflexivity|].
  assert (H : (@Get tagged_codec "a"
                 (after Close
                    (after (@Put tagged_codec "a" "1")
                       (opened "db" (still_world 100))))).1 = inr "1")
    by (vm_compute; reflexivity).
  intros [e He]. rewrite H in He. discriminate.
Qed.

(** ** Put, then delete *)

Section PutDelete.
Context `{codec : GobCodec}.

Lemma Get_absent key s :
  Keydir (engine s) !! key = None ->
  Get key s = (inl (Errorf "key not found error"), s).
Proof. intros Hk. unfold Get. mred. by rewrite Hk. Qed.


Lemma active_on_with_Keydir kd s f c :
  active_on s f c -> active_on (with_Keydir kd s) f c.
Proof. done. Qed.


End PutDelete.

Lemma segment_paths_free_empty : segment_paths_free ∅.
Proof. intros p Hp. by rewrite lookup_empty in Hp. Qed.

Lemma segment_paths_free_insert_dir fs p :
  HasSuffix p ".data" = false ->
  segment_paths_free fs -> segment_paths_free (<[p := Directory]> fs).
Proof.
  intros Hp Hfree q. rewrite lookup_insert.
  case_decide; [by subst|apply Hfree].
Qed.



(** ** Replay of one record *)

Lemma ReadFull_app (b rest : list Byte.byte) :
  ReadFull (b ++ rest) (len b) = inr (b, rest).
Proof.
  unfold ReadFull.
  destruct (Z.eqb_spec (len b) 0) as [H0|H0].
  - destruct b; [done|]. unfold len in H0. simpl in H0. lia.
  - rewrite len_app. pose proof (len_nonneg rest).
    pose proof (len_nonneg b).
    destruct (Z.eqb_spec (len b + len rest) 0); [lia|].
    destruct (Z.ltb_spec (len b + len rest) (len b)); [lia|].
    unfold len. rewrite Nat2Z.id. by rewrite take_app_length, drop_app_length.
Qed.

Lemma ReadFull_prefix v (rest : list Byte.byte) :
  ReadFull (PutUint64 v ++ rest) 8 = inr (PutUint64 v, rest).
Proof.
  pose proof (ReadFull_app (PutUint64 v) rest) as H.
  by rewrite len_PutUint64 in H.
Qed.

Section Replay.
Context `{codec : GobCodec}.

Lemma indexRecord_newer filePath off payloadLen fe kd :
  (kd !! FileEntry.Key fe = None \/
   exists e, kd !! FileEntry.Key fe = Some e /\
             KeyDir.Tstamp e <= FileEntry.Tstamp fe) ->
  indexRecord filePath off payloadLen fe kd =
    if FileEntry.IsTombstone fe then delete (FileEntry.Key fe) kd
    else <[FileEntry.Key fe :=
             KeyDir.mk filePath (uint64 (8 + payloadLen)) off
               (FileEntry.Tstamp fe)]> kd.
Proof.
  intros Hnew. unfold indexRecord.
  assert (Hb : newer_or_absent (kd !! FileEntry.Key fe) fe = true).
  { destruct Hnew as [-> | (e & -> & Hle)]; [done|].
    unfold newer_or_absent. apply Z.geb_le. lia. }
  rewrite Hb. by destruct (FileEntry.IsTombstone fe).
Qed.

Lemma indexRecord_older filePath off payloadLen fe kd e :
  kd !! FileEntry.Key fe = Some e ->
  FileEntry.Tstamp fe < KeyDir.Tstamp e ->
  indexRecord filePath off payloadLen fe kd = kd.
Proof.
  intros He Hlt. unfold indexRecord. rewrite He. unfold newer_or_absent.
  destruct (Z.geb_spec (FileEntry.Tstamp fe) (KeyDir.Tstamp e)); [lia|].
  by destruct (FileEntry.IsTombstone fe).
Qed.

(** One iteration of the loop of [processOldFile] on a well-formed frame. *)
Lemma scanRecords_frame fuel filePath payload fe rest off s :
  gob_decode payload = Some fe ->
  len payload <= max_int64 ->
  scanRecords (S fuel) filePath (PutUint64 (len payload) ++ payload ++ rest)
    off s =
  scanRecords fuel filePath rest (int64 (off + int64 (8 + len payload)))
    (with_Keydir
       (indexRecord filePath off (len payload) fe (Keydir (engine s))) s).
Proof.
  intros Hdec Hfit. pose proof (len_nonneg payload) as Hnn.
  unfold max_int64 in Hfit.
  cbn [scanRecords].
  rewrite ReadFull_prefix.
  rewrite Uint64_PutUint64 by lia.
  destruct (Z.gtb_spec (len payload) max_int64); [unfold max_int64 in *; lia|].
  rewrite ReadFull_app. unfold DeserializeFileEntry. rewrite Hdec.
  mrun idtac. by rewrite uint64_small by lia.
Qed.

End Replay.

(** ** Directory listings *)

Lemma insert_from_right_perm {A} (less : A -> A -> bool) x r :
  insert_from_right less x r ≡ₚ x :: r.
Proof.
  induction r as [|y r IH]; cbn [insert_from_right]; [done|].
  destruct (less x y); [|done].
  rewrite IH. apply perm_swap.
Qed.

Lemma sort_Slice_perm {A} (less : A -> A -> bool) l : sort_Slice less l ≡ₚ l.
Proof.
  assert (H : forall l0 acc,
             fold_left (fun acc x => insert_from_right less x acc) l0 acc
               ≡ₚ l0 ++ acc).
  { induction l0 as [|x l0 IH]; intros acc; cbn [fold_left]; [done|].
    rewrite IH, insert_from_right_perm. symmetry. apply Permutation_middle. }
  unfold sort_Slice. rewrite <- Permutation_rev, H. by rewrite app_nil_r.
Qed.

Lemma entry_of_segment dir z node :
  entry_of dir (filepath_Join dir (Sprintf_d_data z), node) =
    Some (mkDirEntry (Sprintf_d_data z)
            match node with Directory => true | RegularFile _ => false end).
Proof.
  unfold entry_of. cbn [fst snd].
  rewrite filepath_Join_plain by apply plain_Sprintf_d_data.
  rewrite strip_prefix_app.
  by rewrite Sprintf_d_data_nonempty, has_separator_Sprintf_d_data.
Qed.

(** A segment file of the data directory is listed by [os.ReadDir]. *)
Lemma os_ReadDir_segment dir z c s :
  files (world s) !! dir = Some Directory ->
  files (world s) !! filepath_Join dir (Sprintf_d_data z)
    = Some (RegularFile c) ->
  exists entries,
    os_ReadDir dir s = (inr entries, s) /\
    mkDirEntry (Sprintf_d_data z) false ∈ entries.
Proof.
  intros Hdir Hp. unfold os_ReadDir. mred. rewrite Hdir.
  eexists. split; [reflexivity|].
  rewrite sort_Slice_perm. apply list_elem_of_omap.
  exists (filepath_Join dir (Sprintf_d_data z), RegularFile c).
  split; [by apply elem_of_map_to_list|apply entry_of_segment].
Qed.

Lemma two_in_filter {A} (P : A -> bool) (x y : A) (l : list A) :
  x ∈ l -> y ∈ l -> x <> y -> P x = true -> P y = true ->
  (2 <= length (List.filter P l))%nat.
Proof.
  intros Hx Hy Hne HPx HPy. induction l as [|a l IH]; [by inversion Hx|].
  assert (Hone : forall z, z ∈ l -> P z = true ->
                           (1 <= length (List.filter P l))%nat).
  { intros z Hz HPz.
    assert (Hin : In z (List.filter P l))
      by (apply List.filter_In; split; [by apply list_elem_of_In|done]).
    destruct (List.filter P l); [done|simpl; lia]. }
  cbn [List.filter].
  apply elem_of_cons in Hx as [->|Hx]; apply elem_of_cons in Hy as [Ey|Hy].
  - by subst.
  - rewrite HPx. cbn [length]. pose proof (Hone y Hy HPy). lia.
  - subst a. rewrite HPy. cbn [length]. pose proof (Hone x Hx HPx). lia.
  - specialize (IH Hx Hy). destruct (P a); cbn [length]; lia.
Qed.

(** ** Appending and rolling over *)

Section Rollover.
Context `{codec : GobCodec}.

Lemma fs_extends_refl fs : fs_extends fs fs.
Proof. by intros p. Qed.

Lemma fs_extends_trans fs1 fs2 fs3 :
  fs_extends fs1 fs2 -> fs_extends fs2 fs3 -> fs_extends fs1 fs3.
Proof.
  intros H12 H23 p. destruct (H12 p), (H23 p). split; auto.
Qed.

Lemma fs_extends_insert fs p c :
  fs !! p <> Some Directory ->
  fs_extends fs (<[p := RegularFile c]> fs).
Proof.
  intros Hp q. rewrite lookup_insert. unfold regular_at.
  setoid_rewrite lookup_insert.
  case_decide; subst; split; eauto; done.
Qed.

(** Either the engine has no open descriptor on a regular file, and
    [putFileEntry] fails without any effect, or it runs as
    [putFileEntry_outcome] says. *)
Lemma putFileEntry_cases fe s :
  (exists e, putFileEntry fe s = (inl e, s)) \/
  (exists f c, active_on s f c /\
     putFileEntry fe s = putFileEntry_outcome fe (engine s) (world s) f c).
Proof.
  destruct s as [be w].
  destruct (ActiveFile be) as [f|] eqn:Hf.
  2:{ left. unfold putFileEntry, ActiveFile_Stat_Size.
      mrun ltac:(rewrite ?Hf). eauto. }
  destruct (file_closed f) eqn:Hcl.
  { left. unfold putFileEntry, ActiveFile_Stat_Size.
    mrun ltac:(rewrite ?Hf, ?Hcl). eauto. }
  destruct (files w !! file_name f) as [[c|]|] eqn:Hc.
  - right. exists f, c. split; [done|]. by apply putFileEntry_run.
  - left. unfold putFileEntry, ActiveFile_Stat_Size.
    mrun ltac:(rewrite ?Hf, ?Hcl, ?Hc). eauto.
  - left. unfold putFileEntry, ActiveFile_Stat_Size.
    mrun ltac:(rewrite ?Hf, ?Hcl, ?Hc). eauto.
Qed.

Lemma putFileEntry_outcome_extends fe be w f c :
  files w !! file_name f = Some (RegularFile c) ->
  fs_extends (files w) (files (world (putFileEntry_outcome fe be w f c).2)).
Proof.
  intros Hc. unfold putFileEntry_outcome.
  destruct (rolls_over be c fe).
  - destruct (files w !! filepath_Join _ _) as [[c'|]|] eqn:Hp;
      cbn [written snd world files tick opened_in closed_in];
      [apply fs_extends_insert; by rewrite Hp
      |apply fs_extends_refl
      |apply fs_extends_insert; by rewrite Hp].
  - cbn [written snd world files]. apply fs_extends_insert. by rewrite Hc.
Qed.

Lemma putFileEntry_extends fe s :
  fs_extends (files (world s)) (files (world (after (putFileEntry fe) s))).
Proof.
  unfold after.
  destruct (putFileEntry_cases fe s) as [[e ->]|(f & c & Hact & ->)];
    [apply fs_extends_refl|].
  apply putFileEntry_outcome_extends, Hact.
Qed.

Lemma run_appends_extends fes s :
  fs_extends (files (world s)) (files (world (run_appends fes s))).
Proof.
  revert s. induction fes as [|fe fes IH]; intros s; [apply fs_extends_refl|].
  cbn [run_appends fold_left].
  eapply fs_extends_trans; [apply putFileEntry_extends|apply IH].
Qed.

Lemma rolls_over_small be c fe :
  len c + 8 + len (gob_encode fe) <= max_int64 ->
  rolls_over be c fe = (len c + (8 + len (gob_encode fe)) >? MaxFileSize be).
Proof.
  intros Hfit. pose proof (len_nonneg c). pose proof (len_nonneg (gob_encode fe)).
  unfold rolls_over. unfold max_int64 in Hfit.
  rewrite (uint64_small (len _)) by lia.
  rewrite uint64_small by lia.
  rewrite (int64_small (8 + _)) by (unfold min_int64, max_int64; lia).
  by rewrite int64_small by (unfold min_int64, max_int64; lia).
Qed.

Lemma len_frame fe : len (frame fe) = 8 + len (gob_encode fe).
Proof. unfold frame. by rewrite len_app, len_PutUint64. Qed.

Lemma segment_path_fresh dir z fs :
  segment_paths_free fs ->
  fs !! filepath_Join dir (Sprintf_d_data z) <> Some Directory.
Proof.
  intros Hfree Hd. apply Hfree in Hd. by rewrite HasSuffix_segment_path in Hd.
Qed.

Lemma segment_path_inj dir z1 z2 :
  filepath_Join dir (Sprintf_d_data z1) = filepath_Join dir (Sprintf_d_data z2) ->
  z1 = z2.
Proof. intros E. by apply Sprintf_d_data_inj, (filepath_Join_inj dir). Qed.

(** After a rollover the frame is in the segment named after the clock. *)
Lemma putFileEntry_rolled fe be w f c :
  ActiveFile be = Some f -> file_closed f = false ->
  files w !! file_name f = Some (RegularFile c) ->
  segment_paths_free (files w) ->
  rolls_over be c fe = true ->
  putFileEntry fe (mkState be w) =
    written be
      (opened_in (filepath_Join (ActiveDir be) (Sprintf_d_data (now w)))
         (tick (closed_in (file_name f) w)))
      (filepath_Join (ActiveDir be) (Sprintf_d_data (now w)))
      0 (content_at (files w)
           (filepath_Join (ActiveDir be) (Sprintf_d_data (now w)))) fe.
Proof.
  intros Hf Hcl Hc Hfree Hroll.
  rewrite (putFileEntry_run fe be w f c) by done.
  unfold putFileEntry_outcome. rewrite Hroll.
  pose proof (segment_path_fresh (ActiveDir be) (now w) _ Hfree) as Hp.
  by destruct (files w !! filepath_Join _ _) as [[c'|]|].
Qed.

Lemma putFileEntry_appended fe be w f c :
  ActiveFile be = Some f -> file_closed f = false ->
  files w !! file_name f = Some (RegularFile c) ->
  rolls_over be c fe = false ->
  putFileEntry fe (mkState be w) =
    written be w (file_name f) (file_offset f) c fe.
Proof.
  intros Hf Hcl Hc Hroll.
  rewrite (putFileEntry_run fe be w f c) by done.
  unfold putFileEntry_outcome. by rewrite Hroll.
Qed.

Lemma half_sum x1 x2 m : x1 > m ÷ 2 -> x2 > m ÷ 2 -> x1 + x2 > m.
Proof.
  intros H1 H2. pose proof (Z.quot_rem' m 2) as Hm.
  destruct (Z_lt_le_dec m 0) as [Hneg|Hpos].
  - pose proof (Z.rem_nonpos m 2 ltac:(lia) ltac:(lia)). lia.
  - pose proof (Z.rem_bound_pos m 2 ltac:(lia) ltac:(lia)). lia.
Qed.

(** Two appends whose frames are each larger than half of [MaxFileSize]
    leave a second segment, provided no reading of the clock is the second
    the active file is named after. *)
Lemma two_appends_two_segments fe1 fe2 s f c t0 :
  active_on s f c ->
  file_name f = filepath_Join (ActiveDir (engine s)) (Sprintf_d_data t0) ->
  segment_paths_free (files (world s)) ->
  len c + (8 + len (gob_encode fe1)) + (8 + len (gob_encode fe2)) <= max_int64 ->
  (forall n, (ticks (world s) <= n)%nat -> int64 (clock (world s) n) <> t0) ->
  8 + len (gob_encode fe1) > MaxFileSize (engine s) ÷ 2 ->
  8 + len (gob_encode fe2) > MaxFileSize (engine s) ÷ 2 ->
  exists z, z <> t0 /\
    regular_at (files (world (run_appends [fe1; fe2] s)))
      (filepath_Join (ActiveDir (engine s)) (Sprintf_d_data z)).
Proof.
  destruct s as [be w]. cbn [engine world].
  intros (Hf & Hcl & Hc) Hname Hfree Hfit Hclock Hx1 Hx2.
  cbn [engine world] in Hf, Hc.
  pose proof (len_nonneg c) as Hc0.
  pose proof (len_nonneg (gob_encode fe1)) as Hl1.
  pose proof (len_nonneg (gob_encode fe2)) as Hl2.
  cbn [run_appends fold_left]. unfold after at 2.
  destruct (rolls_over be c fe1) eqn:Hroll1.
  - (* the first append rolls over *)
    rewrite (putFileEntry_rolled fe1 be w f c) by done.
    exists (now w). split; [by apply Hclock|].
    set (s1 := (written _ _ _ _ _ _).2).
    destruct (putFileEntry_extends fe2 s1
                (filepath_Join (ActiveDir be) (Sprintf_d_data (now w))))
      as [_ Hreg].
    apply Hreg. eexists. subst s1. cbn [written snd world files].
    apply lookup_insert_eq.
  - (* the first append stays in the active file: the second rolls over *)
    rewrite (putFileEntry_appended fe1 be w f c) by done.
    cbn [written snd]. unfold after.
    assert (Hroll2 : rolls_over
              (mkEngine (Keydir be)
                 (Some (mkFile (file_name f) (len (c ++ frame fe1)) false))
                 (ActiveDir be) (MaxFileSize be))
              (c ++ frame fe1) fe2 = true).
    { rewrite rolls_over_small; rewrite len_app, len_frame; [|lia].
      cbn [MaxFileSize]. apply Z.gtb_lt.
      pose proof (half_sum _ _ _ Hx1 Hx2). lia. }
    erewrite putFileEntry_rolled; cycle 1.
    + reflexivity.
    + reflexivity.
    + cbn [files file_name]. apply lookup_insert_eq.
    + cbn [files]. by apply segment_paths_free_insert.
    + exact Hroll2.
    + exists (now w). split; [by apply Hclock|].
      eexists.
      cbn [written snd world files ActiveDir tick opened_in closed_in clock
           ticks now].
      apply lookup_insert_eq.
Qed.

(** [rollOverActiveFile] on an engine whose descriptor [f] is open: [f]
    is closed, the clock is read, and the segment named after it is
    opened, which fails when a directory has that name. *)
Lemma rollOverActiveFile_cases be w f :
  ActiveFile be = Some f -> file_closed f = false ->
  let p := filepath_Join (ActiveDir be) (Sprintf_d_data (now w)) in
  let w1 := tick (closed_in (file_name f) w) in
  rollOverActiveFile (mkState be w) =
    match files w !! p with
    | Some Directory =>
        (inl (Errorw "unable to open new active file '%s': %w" ErrIsDir),
         mkState
           (mkEngine (Keydir be)
              (Some (mkFile (file_name f) (file_offset f) true))
              (ActiveDir be) (MaxFileSize be)) w1)
    | Some (RegularFile _) =>
        (inr tt,
         mkState
           (mkEngine (Keydir be) (Some (mkFile p 0 false)) (ActiveDir be)
              (MaxFileSize be)) (opened_in p w1))
    | None =>
        (inr tt,
         mkState
           (mkEngine (Keydir be) (Some (mkFile p 0 false)) (ActiveDir be)
              (MaxFileSize be))
           (mkWorld (<[p := RegularFile []]> (files w)) (clock w)
              (S (ticks w)) (p :: close_one (file_name f) (open_files w))))
    end.
Proof.
  intros Hf Hcl p w1.
  unfold rollOverActiveFile, ActiveFile_Close, time_Now_Unix, os_OpenFile.
  mrun ltac:(rewrite ?Hf, ?Hcl).
  change (now (mkWorld (files w) (clock w) (ticks w) _)) with (now w).
  fold p. destruct (files w !! p) as [[c'|]|]; by mrun idtac.
Qed.

(** C6, as the code has it.  For every append on an open engine (sizes
    within [int64]): when the size of the active file plus the eight
    bytes of the prefix plus the payload exceeds [MaxFileSize], the
    rollover runs first, and the frame is then written through the
    descriptor that the rollover opened (nothing is written when the
    rollover fails); otherwise the frame goes to the end of the active
    file.  Consequently: when the active file is the segment of second
    [t0], the first two of a series of appends have frames larger than
    half of [MaxFileSize], and the clock does not read the second [t0]
    again, the data directory lists at least two [.data] files
    afterwards. *)
Theorem append_rollover_rule fe1 s f c :
  let be := engine s in
  let w := world s in
  let x1 := 8 + len (gob_encode fe1) in
  active_on s f c ->
  len c + x1 <= max_int64 ->
  (len c + x1 > MaxFileSize be ->
   match rollOverActiveFile s with
   | (inl e, s1) =>
       putFileEntry fe1 s =
         (inl (Errorw "failed to roll over active file: %w" e), s1)
   | (inr _, s1) =>
       exists p,
         ActiveFile (engine s1) = Some (mkFile p 0 false) /\
         putFileEntry fe1 s =
           written (engine s1) (world s1) p 0
             (content_at (files (world s1)) p) fe1
   end) /\
  (len c + x1 <= MaxFileSize be ->
   putFileEntry fe1 s = written be w (file_name f) (file_offset f) c fe1) /\
  (forall fe2 more t0,
     let dir := ActiveDir be in
     let x2 := 8 + len (gob_encode fe2) in
     file_name f = filepath_Join dir (Sprintf_d_data t0) ->
     files w !! dir = Some Directory ->
     segment_paths_free (files w) ->
     len c + x1 + x2 <= max_int64 ->
     (forall n, (ticks w <= n)%nat -> int64 (clock w n) <> t0) ->
     x1 > MaxFileSize be ÷ 2 -> x2 > MaxFileSize be ÷ 2 ->
     exists entries s',
       os_ReadDir dir (run_appends (fe1 :: fe2 :: more) s) = (inr entries, s') /\
       (2 <= length (data_files entries))%nat).
Proof.
  intros be w x1 Hact Hfit.
  pose proof (rolls_over_small be c fe1 ltac:(subst x1; lia)) as Hrule.
  fold x1 in Hrule.
  split; [|split].
  - (* the rollover comes first *)
    intros Hbig. destruct s as [be' w']. destruct Hact as (Hf & Hcl & Hc).
    cbn [engine world] in *. subst be w.
    assert (Hroll : rolls_over be' c fe1 = true)
      by (rewrite Hrule; apply Z.gtb_lt; lia).
    rewrite (putFileEntry_run fe1 be' w' f c) by done.
    unfold putFileEntry_outcome. rewrite Hroll.
    rewrite (rollOverActiveFile_cases be' w' f Hf Hcl). cbv zeta.
    set (p := filepath_Join (ActiveDir be') (Sprintf_d_data (now w'))).
    unfold content_at.
    destruct (files w' !! p) as [[c'|]|] eqn:Hp; [|done|].
    + exists p. split; [done|].
      cbn [engine world files opened_in tick closed_in]. by rewrite Hp.
    + exists p. split; [done|].
      cbn [engine world files]. rewrite lookup_insert_eq.
      unfold written, opened_in, tick, closed_in.
      cbn [Keydir ActiveDir MaxFileSize files clock ticks open_files].
      by rewrite insert_insert_eq.
  - (* the frame goes to the end of the active file *)
    intros Hsmall. destruct s as [be' w']. destruct Hact as (Hf & Hcl & Hc).
    cbn [engine world] in *. subst be w.
    apply (putFileEntry_appended fe1 be' w' f c); try done.
    rewrite Hrule. by destruct (Z.gtb_spec (len c + x1) (MaxFileSize be')); [lia|].
  - (* two segments *)
    intros fe2 more t0 dir x2 Hname Hdir Hfree Hfit2 Hclock Hx1 Hx2.
    pose proof (len_nonneg (gob_encode fe2)) as Hl2.
    destruct (two_appends_two_segments fe1 fe2 s f c t0 Hact Hname Hfree
                ltac:(subst x1 x2; lia) Hclock Hx1 Hx2) as (z & Hz & Hnew).
    change (run_appends (fe1 :: fe2 :: more) s)
      with (run_appends more (run_appends [fe1; fe2] s)).
    set (s2 := run_appends [fe1; fe2] s) in *.
    set (s3 := run_appends more s2).
    assert (Hext : fs_extends (files w) (files (world s3))).
    { eapply fs_extends_trans; [|apply run_appends_extends].
      apply (run_appends_extends [fe1; fe2]). }
    assert (Hdir3 : files (world s3) !! dir = Some Directory)
      by (by apply Hext).
    assert (Hold : regular_at (files (world s3))
                     (filepath_Join dir (Sprintf_d_data t0))).
    { apply Hext. destruct Hact as (_ & _ & Hc). rewrite <- Hname. by exists c. }
    assert (Hnew3 : regular_at (files (world s3))
                      (filepath_Join dir (Sprintf_d_data z)))
      by (by apply (run_appends_extends more s2)).
    destruct Hold as [c0 Hold]. destruct Hnew3 as [cz Hnew3].
    destruct (os_ReadDir_segment dir t0 c0 s3 Hdir3 Hold) as (entries & Hls & H0).
    destruct (os_ReadDir_segment dir z cz s3 Hdir3 Hnew3) as (entries' & Hls' & Hz').
    rewrite Hls in Hls'. injection Hls' as <-.
    exists entries, s3. split; [done|].
    apply (two_in_filter _ (mkDirEntry (Sprintf_d_data t0) false)
             (mkDirEntry (Sprintf_d_data z) false)); try done.
    + intros [= E]. by apply Sprintf_d_data_inj in E.
    + apply HasSuffix_Sprintf_d_data.
    + apply HasSuffix_Sprintf_d_data.
Qed.

End Rollover.

Lemma append_rollover_rule_witness :
  let s := with_MaxFileSize 60 (opened "db" (stepping_world 100 200)) in
  let fe1 := entry_at 200 "a" "1" false in
  let fe2 := entry_at 200 "b" "2" false in
  active_on s (mkFile "db/100.data" 0 false) [] /\
  len ([] : list Byte.byte) + (8 + len (@gob_encode tagged_codec fe1))
    <= max_int64 /\
  @putFileEntry tagged_codec fe1 s =
    @written tagged_codec (engine s) (world s) "db/100.data" 0 [] fe1 /\
  exists entries s',
    os_ReadDir "db" (@run_appends tagged_codec [fe1; fe2] s)
      = (inr entries, s') /\
    (2 <= length (data_files entries))%nat.
Proof.
  intros s fe1 fe2.
  assert (Hact : active_on s (mkFile "db/100.data" 0 false) [])
    by (repeat split; vm_compute; reflexivity).
  assert (Hfit : len ([] : list Byte.byte) +
                 (8 + len (@gob_encode tagged_codec fe1)) <= max_int64)
    by (vm_compute; discriminate).
  assert (Hfree : segment_paths_free (files (world s))).
  { change (files (world s))
      with (<["db/100.data" := RegularFile []]>
              (<["db" := Directory]> (∅ : gmap string Node))).
    apply segment_paths_free_insert, segment_paths_free_insert_dir;
      [reflexivity | apply segment_paths_free_empty]. }
  assert (Hclock : forall n, (ticks (world s) <= n)%nat ->
                             int64 (clock (world s) n) <> 100).
  { intros [|n] Hn; [vm_compute in Hn; lia|]. vm_compute. discriminate. }
  destruct (@append_rollover_rule tagged_codec fe1 s
              (mkFile "db/100.data" 0 false) [] Hact Hfit)
    as (_ & Hsmall & Htwo).
  split; [exact Hact|]. split; [exact Hfit|]. split.
  - apply Hsmall. vm_compute. discriminate.
  - apply (Htwo fe2 [] 100);
      [vm_compute; reflexivity | vm_compute; reflexivity | exact Hfree
      | vm_compute; discriminate | exact Hclock
      | vm_compute; reflexivity | vm_compute; reflexivity].
Defined.

(** C6, as stated, fails: two appends in the second in which the engine
    was opened, each frame larger than half of [MaxFileSize]; the second
    one rolls over, into the segment of the same name, and the data
    directory lists a single [.data] file. *)
Lemma one_segment_after_two_appends :
  let s := with_MaxFileSize 60 (opened "db" (still_world 100)) in
  let fe1 := entry_at 100 "a" "1" false in
  let fe2 := entry_at 100 "b" "2" false in
  8 + len (@gob_encode tagged_codec fe1) > MaxFileSize (engine s) ÷ 2 /\
  8 + len (@gob_encode tagged_codec fe2) > MaxFileSize (engine s) ÷ 2 /\
  @rolls_over tagged_codec
    (engine (@run_appends tagged_codec [fe1] s))
    (content_at (files (world (@run_appends tagged_codec [fe1] s)))
       "db/100.data") fe2 = true /\
  exists entries s',
    os_ReadDir "db" (@run_appends tagged_codec [fe1; fe2] s)
      = (inr entries, s') /\
    length (data_files entries) = 1%nat.
Proof.
  repeat split; try (vm_compute; reflexivity).
  eexists _, _. split; vm_compute; reflexivity.
Qed.

(** ** What a rebuild does to the state *)

Section Rebuild.
Context `{codec : GobCodec}.

Lemma with_Keydir_id s : with_Keydir (Keydir (engine s)) s = s.
Proof. by destruct s as [[] ?]. Qed.

Lemma with_Keydir_twice kd kd' s :
  with_Keydir kd (with_Keydir kd' s) = with_Keydir kd s.
Proof. done. Qed.

Lemma scanRecords_scanned fuel filePath rest off s :
  scanRecords fuel filePath rest off s =
    ((scanned fuel filePath rest off).2,
     with_Keydir (replay (scanned fuel filePath rest off).1
                    (Keydir (engine s))) s).
Proof.
  revert rest off s. induction fuel as [|fuel IH]; intros rest off s.
  { cbn. by rewrite with_Keydir_id. }
  cbn [scanRecords scanned].
  destruct (ReadFull rest 8) as [e|[lenBuf rest1]].
  { destruct e; cbn; by rewrite with_Keydir_id. }
  destruct (_ >? max_int64); [cbn; by rewrite with_Keydir_id|].
  destruct (ReadFull rest1 _) as [e|[payloadBuf rest2]];
    [cbn; by rewrite with_Keydir_id|].
  destruct (DeserializeFileEntry payloadBuf) as [e|fe];
    [cbn; by rewrite with_Keydir_id|].
  mrun idtac. rewrite IH. cbn [fst snd replay fold_left]. reflexivity.
Qed.

Lemma processOldFile_scanned filePath s :
  processOldFile filePath s =
    ((scanned_file (files (world s)) filePath).2,
     with_Keydir (replay (scanned_file (files (world s)) filePath).1
                    (Keydir (engine s))) s).
Proof.
  unfold processOldFile, scanned_file. mred.
  destruct (files (world s) !! filePath) as [[c|]|];
    [apply scanRecords_scanned| |]; cbn; by rewrite with_Keydir_id.
Qed.

Lemma replay_app recs1 recs2 kd :
  replay (recs1 ++ recs2) kd = replay recs2 (replay recs1 kd).
Proof. apply fold_left_app. Qed.

Lemma processEntries_scanned dir entries s :
  processEntries dir entries s =
    ((scanned_entries (files (world s)) dir entries).2,
     with_Keydir (replay (scanned_entries (files (world s)) dir entries).1
                    (Keydir (engine s))) s).
Proof.
  revert s. induction entries as [|fileInfo entries IH]; intros s.
  { cbn. by rewrite with_Keydir_id. }
  cbn [processEntries scanned_entries].
  destruct (IsDir fileInfo || negb (HasSuffix (Name fileInfo) ".data"));
    [apply IH|].
  mrun idtac. rewrite processOldFile_scanned.
  destruct (scanned_file _ _) as [recs [e|[]]]; cbn [fst snd]; [done|].
  rewrite IH. cbn [with_Keydir engine world Keydir]. by rewrite replay_app.
Qed.

(** [BuildIndex] replays the records of the data directory onto the key
    directory it finds, and touches nothing else. *)
Lemma BuildIndex_scanned s :
  BuildIndex s =
    ((scanned_directory (world s) (ActiveDir (engine s))).2,
     with_Keydir
       (replay (scanned_directory (world s) (ActiveDir (engine s))).1
          (Keydir (engine s))) s).
Proof.
  unfold BuildIndex, scanned_directory, os_ReadDir. mred.
  destruct (files (world s) !! ActiveDir (engine s)) as [[c|]|];
    [cbn; by rewrite with_Keydir_id| |cbn; by rewrite with_Keydir_id].
  mred. apply processEntries_scanned.
Qed.

Lemma ReadFull_length rest n got rest' :
  ReadFull rest n = inr (got, rest') ->
  (length rest' <= length rest)%nat /\
  (0 < n -> (Z.to_nat n <= length rest)%nat /\
            length rest' = (length rest - Z.to_nat n)%nat).
Proof.
  unfold ReadFull, len.
  destruct (Z.eqb_spec n 0) as [->|Hn]; [intros [= <- <-]; split; [done|lia]|].
  destruct (Z.eqb_spec (Z.of_nat (length rest)) 0); [done|].
  destruct (Z.ltb_spec (Z.of_nat (length rest)) n); [done|].
  intros [= <- <-]. rewrite length_drop. split; [lia|]. intros _. lia.
Qed.

(** The fuel [processOldFile] gives to its loop is enough. *)
Lemma scanned_fuel fuel filePath rest off :
  (length rest < fuel)%nat ->
  (scanned fuel filePath rest off).2 <> inl OutOfFuel.
Proof.
  revert rest off. induction fuel as [|fuel IH]; intros rest off Hlt; [lia|].
  cbn [scanned].
  destruct (ReadFull rest 8) as [e|[lenBuf rest1]] eqn:H8; [by destruct e|].
  apply ReadFull_length in H8 as [_ H8]. destruct (H8 ltac:(lia)) as [Hge H1].
  destruct (_ >? max_int64); [done|].
  destruct (ReadFull rest1 _) as [e|[payloadBuf rest2]] eqn:HL; [done|].
  apply ReadFull_length in HL as [HL _].
  destruct (DeserializeFileEntry payloadBuf) as [e|fe]; [done|].
  cbn [snd]. apply IH. lia.
Qed.

Lemma processOldFile_fuel filePath s :
  (processOldFile filePath s).1 <> inl OutOfFuel.
Proof.
  rewrite processOldFile_scanned. cbn [fst]. unfold scanned_file.
  destruct (files (world s) !! filePath) as [[c|]|]; [|done|done].
  apply scanned_fuel. lia.
Qed.

End Rebuild.

(** ** Frames read back, and replay in the order of the writes *)

Section Framing.
Context `{codec : GobCodec}.

(** Scanning the frames of [fes] gives back the entries, each with the
    offset of its frame. *)
Lemma scanned_frames fuel filePath fes off :
  Forall (fun fe => len (gob_encode fe) <= max_int64) fes ->
  (length fes < fuel)%nat ->
  scanned fuel filePath (flat_map frame fes) off =
    (framed_records filePath off fes, inr tt).
Proof.
  revert fuel off. induction fes as [|fe fes IH]; intros fuel off Hfit Hfuel.
  - destruct fuel; [cbn in Hfuel; lia|]. reflexivity.
  - destruct fuel as [|fuel]; [cbn in Hfuel; lia|].
    apply Forall_cons in Hfit as [Hfe Hfit].
    pose proof (len_nonneg (gob_encode fe)) as Hnn. unfold max_int64 in Hfe.
    cbn [flat_map scanned framed_records]. unfold frame at 1.
    rewrite <- app_assoc, ReadFull_prefix, uint64_small by lia.
    rewrite Uint64_PutUint64 by lia.
    destruct (Z.gtb_spec (len (gob_encode fe)) max_int64);
      [unfold max_int64 in *; lia|].
    rewrite ReadFull_app. unfold DeserializeFileEntry.
    rewrite gob_decode_encode, uint64_small by lia.
    rewrite IH by (done || cbn in Hfuel; lia). reflexivity.
Qed.

Lemma length_flat_map_frame fes :
  (length fes <= length (flat_map frame fes))%nat.
Proof.
  induction fes as [|fe fes IH]; [done|].
  cbn [flat_map]. rewrite length_app. unfold frame at 1.
  rewrite length_app. unfold PutUint64. rewrite length_put_be.
  cbn [length]. lia.
Qed.

Lemma scanned_file_frames fs filePath fes :
  fs !! filePath = Some (RegularFile (flat_map frame fes)) ->
  Forall (fun fe => len (gob_encode fe) <= max_int64) fes ->
  scanned_file fs filePath = (framed_records filePath 0 fes, inr tt).
Proof.
  intros Hfile Hfit. unfold scanned_file. rewrite Hfile.
  apply scanned_frames; [done|]. pose proof (length_flat_map_frame fes). lia.
Qed.

End Framing.

(** When the timestamps never decrease along the records, and no entry of
    the directory is newer than a record, the replay accepts every record:
    it is the update of the write path, record after record. *)
Lemma replay_in_write_order recs kd :
  StronglySorted
    (fun a b => FileEntry.Tstamp (rp_entry a) <= FileEntry.Tstamp (rp_entry b))
    recs ->
  (forall K e r, kd !! K = Some e -> r ∈ recs ->
                 KeyDir.Tstamp e <= FileEntry.Tstamp (rp_entry r)) ->
  replay recs kd = fold_left apply_always recs kd.
Proof.
  revert kd. induction recs as [|r recs IH]; intros kd Hsorted Hkd; [done|].
  apply StronglySorted_inv in Hsorted as [Hsorted Hr].
  cbn [replay fold_left].
  assert (Hstep : apply_replayed kd r = apply_always kd r).
  { unfold apply_replayed, apply_always. apply indexRecord_newer.
    destruct (kd !! FileEntry.Key (rp_entry r)) as [e|] eqn:He; [|by left].
    right. exists e. split; [done|]. eapply Hkd; [done|apply list_elem_of_here]. }
  rewrite Hstep. apply IH; [done|].
  intros K e r' He Hin. unfold apply_always in He.
  destruct (FileEntry.IsTombstone (rp_entry r)).
  - apply lookup_delete_Some in He as [_ He].
    eapply Hkd; [done|by apply list_elem_of_further].
  - apply lookup_insert_Some in He as [[_ <-]|[_ He]].
    + cbn. rewrite Forall_forall in Hr. by apply Hr.
    + eapply Hkd; [done|by apply list_elem_of_further].
Qed.

(** ** A record met by the rebuild *)

Section RecordOfRebuild.
Context `{codec : GobCodec}.

Lemma len_flat_map_frame_cons fe fes :
  len (flat_map frame (fe :: fes)) =
    8 + len (gob_encode fe) + len (flat_map frame fes).
Proof. cbn [flat_map]. by rewrite len_app, len_frame. Qed.

(** The loop on the frames of [fes] followed by [tail]: the records of
    the frames, each at its byte position, and then the loop on [tail]
    from the position where the frames end. *)
Lemma scanned_located_then fuel filePath fes tail off :
  0 <= off -> off + len (flat_map frame fes) <= max_int64 ->
  scanned (length fes + fuel) filePath (flat_map frame fes ++ tail) off =
    (located filePath off fes ++
       (scanned fuel filePath tail (off + len (flat_map frame fes))).1,
     (scanned fuel filePath tail (off + len (flat_map frame fes))).2).
Proof.
  revert off. induction fes as [|fe fes IH]; intros off Hoff Hfit.
  - cbn [length flat_map located app Nat.add]. unfold len. cbn [length].
    rewrite Z.add_0_r. by destruct (scanned fuel filePath tail off).
  - rewrite len_flat_map_frame_cons in Hfit |- *.
    pose proof (len_nonneg (gob_encode fe)) as Hnn.
    pose proof (len_nonneg (flat_map frame fes)) as Hnn'.
    unfold max_int64 in Hfit.
    cbn [length Nat.add flat_map scanned located]. unfold frame at 1.
    rewrite <- !app_assoc, ReadFull_prefix, uint64_small by lia.
    rewrite Uint64_PutUint64 by lia.
    destruct (Z.gtb_spec (len (gob_encode fe)) max_int64);
      [unfold max_int64 in *; lia|].
    rewrite ReadFull_app. unfold DeserializeFileEntry.
    rewrite gob_decode_encode, uint64_small by lia.
    rewrite (int64_small (8 + _)) by (unfold min_int64, max_int64; lia).
    rewrite int64_small by (unfold min_int64, max_int64; lia).
    rewrite IH by (unfold max_int64; lia).
    cbn [fst snd app].
    by replace (off + (8 + len (gob_encode fe)) + len (flat_map frame fes))
      with (off + (8 + len (gob_encode fe) + len (flat_map frame fes))) by lia.
Qed.

(** One iteration of the loop on a record that decodes. *)
Lemma scanned_record fuel filePath payload fe rest off :
  gob_decode payload = Some fe ->
  0 <= off -> off + 8 + len payload <= max_int64 ->
  scanned (S fuel) filePath (PutUint64 (len payload) ++ payload ++ rest) off =
    (mkReplayed filePath off (len payload) fe ::
       (scanned fuel filePath rest (off + 8 + len payload)).1,
     (scanned fuel filePath rest (off + 8 + len payload)).2).
Proof.
  intros Hdec Hoff Hfit. pose proof (len_nonneg payload) as Hnn.
  unfold max_int64 in Hfit. cbn [scanned].
  rewrite ReadFull_prefix, Uint64_PutUint64 by lia.
  destruct (Z.gtb_spec (len payload) max_int64); [unfold max_int64 in *; lia|].
  rewrite ReadFull_app. unfold DeserializeFileEntry. rewrite Hdec.
  rewrite uint64_small by lia.
  rewrite (int64_small (8 + _)) by (unfold min_int64, max_int64; lia).
  rewrite int64_small by (unfold min_int64, max_int64; lia).
  by replace (off + (8 + len payload)) with (off + 8 + len payload) by lia.
Qed.

(** C3. [processOldFile] on a segment that holds the frames of [fes],
    then a record whose payload decodes to an entry of key [K] and
    timestamp [T], then whatever bytes.  The loop reaches the record at
    its byte offset in the file, with the key directory [kd] that the
    records before it have made.  When [kd] has no entry for [K], or an
    entry whose timestamp is at most [T], a tombstone removes [K] and any
    other record sets the entry of [K] to the locator (path of the file,
    byte offset of the record, 8 + payload length, [T]); when the entry
    is strictly newer than [T] the key directory is left as it is.  The
    rebuild then goes on with the rest of the file from the directory
    [kd'] so obtained.  (The record lies within [int64]: a Go slice
    cannot hold a longer payload.) *)
Theorem replay_of_record filePath fes payload fe rest s :
  files (world s) !! filePath =
    Some (RegularFile
            (flat_map frame fes ++ PutUint64 (len payload) ++ payload ++ rest)) ->
  gob_decode payload = Some fe ->
  len (flat_map frame fes) + 8 + len payload <= max_int64 ->
  let off := len (flat_map frame fes) in
  let K := FileEntry.Key fe in
  let T := FileEntry.Tstamp fe in
  let kd := replay (located filePath 0 fes) (Keydir (engine s)) in
  exists kd' fuel,
    (length rest < fuel)%nat /\
    processOldFile filePath s =
      ((scanned fuel filePath rest (off + 8 + len payload)).2,
       with_Keydir
         (replay (scanned fuel filePath rest (off + 8 + len payload)).1 kd')
         s) /\
    ((kd !! K = None \/
      exists e, kd !! K = Some e /\ KeyDir.Tstamp e <= T) ->
     kd' = if FileEntry.IsTombstone fe then delete K kd
           else <[K := KeyDir.mk filePath (8 + len payload) off T]> kd) /\
    ((exists e, kd !! K = Some e /\ T < KeyDir.Tstamp e) -> kd' = kd).
Proof.
  intros Hfile Hdec Hfit off K T kd.
  pose proof (len_nonneg payload) as Hnn.
  pose proof (len_nonneg (flat_map frame fes)) as Hnn'.
  set (c := flat_map frame fes ++ PutUint64 (len payload) ++ payload ++ rest)
    in *.
  exists (indexRecord filePath off (len payload) fe kd),
         (length (PutUint64 (len payload) ++ payload ++ rest) +
          (length (flat_map frame fes) - length fes))%nat.
  split; [|split; [|split]].
  - rewrite !length_app. unfold PutUint64. rewrite length_put_be. lia.
  - rewrite processOldFile_scanned. unfold scanned_file. rewrite Hfile.
    pose proof (length_flat_map_frame fes) as Hle.
    replace (S (length c))
      with (length fes +
            S (length (PutUint64 (len payload) ++ payload ++ rest) +
               (length (flat_map frame fes) - length fes)))%nat
      by (unfold c; rewrite !length_app; lia).
    unfold c. rewrite scanned_located_then by (unfold max_int64 in *; lia).
    rewrite Z.add_0_l. fold off.
    rewrite (scanned_record _ _ payload fe rest off Hdec) by (subst off; lia).
    cbn [fst snd]. rewrite replay_app. reflexivity.
  - intros Hnew. rewrite indexRecord_newer by done.
    unfold max_int64 in Hfit. by rewrite uint64_small by lia.
  - intros (e & He & Hlt). by eapply indexRecord_older.
Qed.

End RecordOfRebuild.

Lemma replay_of_record_witness :
  let feb := entry_at 90 "b" "2" false in
  let fe := entry_at 100 "a" "1" false in
  let payload := @gob_encode tagged_codec fe in
  let rest := @frame tagged_codec (entry_at 100 "b" "" true) in
  let c := flat_map (@frame tagged_codec) [feb] ++
           PutUint64 (len payload) ++ payload ++ rest in
  let kd0 := <["a" := KeyDir.mk "db/90.data" 59 0 100]>
               (∅ : gmap string KeyDir.t) in
  let s := mkState (mkEngine kd0 None "db" 1048576)
             (mkWorld (<["db/100.data" := RegularFile c]> ∅)
                (fun _ => 200) 0 []) in
  let off := len (flat_map (@frame tagged_codec) [feb]) in
  let kd := replay (@located tagged_codec "db/100.data" 0 [feb]) kd0 in
  files (world s) !! "db/100.data" = Some (RegularFile c) /\
  @gob_decode tagged_codec payload = Some fe /\
  off + 8 + len payload <= max_int64 /\
  exists kd' fuel,
    @processOldFile tagged_codec "db/100.data" s =
      ((@scanned tagged_codec fuel "db/100.data" rest (off + 8 + len payload)).2,
       with_Keydir
         (replay
            (@scanned tagged_codec fuel "db/100.data" rest
               (off + 8 + len payload)).1 kd') s) /\
    kd' = <["a" := KeyDir.mk "db/100.data" (8 + len payload) off 100]> kd.
Proof.
  intros feb fe payload rest c kd0 s off kd.
  assert (Hfile : files (world s) !! "db/100.data" = Some (RegularFile c))
    by (vm_compute; reflexivity).
  assert (Hdec : @gob_decode tagged_codec payload = Some fe)
    by (vm_compute; reflexivity).
  assert (Hfit : off + 8 + len payload <= max_int64)
    by (vm_compute; discriminate).
  split; [exact Hfile|]. split; [exact Hdec|]. split; [exact Hfit|].
  destruct (@replay_of_record tagged_codec "db/100.data" [feb] payload fe rest
              s Hfile Hdec Hfit) as (kd' & fuel & _ & Hrun & Hnew & _).
  exists kd', fuel. split; [exact Hrun|].
  apply Hnew. right.
  exists (KeyDir.mk "db/90.data" 59 0 100).
  split; [vm_compute; reflexivity|vm_compute; discriminate].
Defined.

(** ** Rebuilding onto a directory that is not empty *)

Lemma indexRecord_lookup filePath off payloadLen fe kd K :
  indexRecord filePath off payloadLen fe kd !! K =
    if decide (K = FileEntry.Key fe) then
      if newer_or_absent (kd !! FileEntry.Key fe) fe then
        if FileEntry.IsTombstone fe then None
        else Some (KeyDir.mk filePath (uint64 (8 + payloadLen)) off
                     (FileEntry.Tstamp fe))
      else kd !! FileEntry.Key fe
    else kd !! K.
Proof.
  unfold indexRecord.
  destruct (FileEntry.IsTombstone fe),
    (newer_or_absent (kd !! FileEntry.Key fe) fe);
    case_decide; subst;
    rewrite ?lookup_delete_eq, ?lookup_insert_eq; try done.
  - by rewrite lookup_delete_ne.
  - by rewrite lookup_insert_ne.
Qed.

Lemma agree_or_pending_step r recs kd1 kd2 K :
  agree_or_pending (r :: recs) kd1 kd2 K ->
  agree_or_pending recs (apply_replayed kd1 r) (apply_replayed kd2 r) K.
Proof.
  unfold agree_or_pending, apply_replayed.
  destruct r as [fp off L fe]. cbn [rp_file rp_offset rp_payloadLen rp_entry].
  rewrite !indexRecord_lookup.
  intros [Heq | (e & He & Hlt & r' & Hin & Hkey & Hge)].
  - left. case_decide; [subst K; by rewrite Heq|done].
  - case_decide as HK; cycle 1.
    { right. exists e. repeat split; try done.
      apply elem_of_cons in Hin as [-> | Hin]; [done|eauto]. }
    rewrite HK in He, Hlt, Hkey |- *. clear HK K.
    rewrite He. cbn [newer_or_absent].
    destruct (Z.geb_spec (FileEntry.Tstamp fe) (KeyDir.Tstamp e)) as [Hnew|Hold].
    + (* the record replaces the entry in both directories *)
      left.
      assert (Hb : newer_or_absent (kd2 !! FileEntry.Key fe) fe = true).
      { destruct (kd2 !! FileEntry.Key fe) as [e2|] eqn:H2; [|done].
        cbn. apply Z.geb_le. specialize (Hlt e2 eq_refl). lia. }
      by rewrite Hb.
    + (* the record is older than the entry: the first directory skips it *)
      right. exists e. split; [done|]. split.
      * intros e2.
        destruct (newer_or_absent (kd2 !! FileEntry.Key fe) fe);
          [destruct (FileEntry.IsTombstone fe); [done|]|by apply Hlt].
        intros [= <-]. cbn. lia.
      * apply elem_of_cons in Hin as [-> | Hin]; [cbn in Hge; lia|eauto].
Qed.

Lemma replay_agree recs kd1 kd2 :
  (forall K, agree_or_pending recs kd1 kd2 K) ->
  replay recs kd1 = replay recs kd2.
Proof.
  revert kd1 kd2. induction recs as [|r recs IH]; intros kd1 kd2 H.
  - apply map_eq. intros K.
    destruct (H K) as [Heq | (e & _ & _ & r & Hin & _)]; [done|].
    by apply elem_of_nil in Hin.
  - cbn [replay fold_left]. apply IH. intros K.
    by apply agree_or_pending_step.
Qed.

Lemma replay_from_scratch recs kd :
  covered_by recs kd -> replay recs kd = replay recs ∅.
Proof.
  intros Hcov. apply replay_agree. intros K.
  destruct (kd !! K) as [e|] eqn:He; [|left; by rewrite lookup_empty].
  right. exists e. split; [done|]. split; [|by apply Hcov].
  intros e2. by rewrite lookup_empty.
Qed.

Section RebuildFromScratch.
Context `{codec : GobCodec}.

(** C4, as the code has it.  [BuildIndex] replays the segment files onto
    the key directory it finds, without emptying it first.  When every
    entry it finds has, in some segment file, a record of its key that is
    at least as recent, a successful [BuildIndex] ends with exactly the
    directory of a replay into an empty directory. *)
Theorem BuildIndex_from_scratch s :
  let recs := (scanned_directory (world s) (ActiveDir (engine s))).1 in
  (BuildIndex s).1 = inr tt ->
  covered_by recs (Keydir (engine s)) ->
  (BuildIndex (with_Keydir ∅ s)).1 = inr tt /\
  Keydir (engine (after BuildIndex s)) = replay recs ∅ /\
  Keydir (engine (after BuildIndex s)) =
    Keydir (engine (after BuildIndex (with_Keydir ∅ s))).
Proof.
  intros recs Hok Hcov. unfold after.
  rewrite (BuildIndex_scanned s) in Hok |- *.
  rewrite (BuildIndex_scanned (with_Keydir ∅ s)).
  cbn [fst snd with_Keydir engine world Keydir ActiveDir] in *.
  fold recs. by rewrite replay_from_scratch.
Qed.

End RebuildFromScratch.

Lemma BuildIndex_from_scratch_witness :
  let s := after (@Put tagged_codec "a" "1") (opened "db" (still_world 100)) in
  (@BuildIndex tagged_codec s).1 = inr tt /\
  Keydir (engine (after (@BuildIndex tagged_codec) s)) =
    Keydir (engine (after (@BuildIndex tagged_codec) (with_Keydir ∅ s))).
Proof.
  intros s.
  assert (Hok : (@BuildIndex tagged_codec s).1 = inr tt)
    by (vm_compute; reflexivity).
  split; [exact Hok|].
  apply (@BuildIndex_from_scratch tagged_codec s Hok).
  intros K e.
  change (Keydir (engine s))
    with (<["a" := KeyDir.mk "db/100.data" 59 0 100]>
            (∅ : gmap string KeyDir.t)).
  rewrite lookup_insert. case_decide as HK; [|by rewrite lookup_empty].
  intros [= <-]. subst K.
  exists (mkReplayed "db/100.data" 0 51 (entry_at 100 "a" "1" false)).
  split; [|split; [reflexivity|vm_compute; discriminate]].
  vm_compute. apply list_elem_of_here.
Defined.

(** C4, as stated, fails.  ["z"] is put, then the segment file is removed
    from the data directory (by whatever manages the disk).  [BuildIndex]
    succeeds and leaves the entry of ["z"] in place, whereas a replay of
    the segment files into an empty directory has no entry at all. *)
Lemma BuildIndex_keeps_stale_entry :
  let s1 := after (@Put tagged_codec "z" "1") (opened "db" (still_world 100)) in
  let s := mkState (engine s1)
             (mkWorld (delete "db/100.data" (files (world s1)))
                (clock (world s1)) (ticks (world s1))
                (open_files (world s1))) in
  (@BuildIndex tagged_codec s).1 = inr tt /\
  Keydir (engine (after (@BuildIndex tagged_codec) (with_Keydir ∅ s))) = ∅ /\
  Keydir (engine (after (@BuildIndex tagged_codec) s)) <>
    Keydir (engine (after (@BuildIndex tagged_codec) (with_Keydir ∅ s))).
Proof.
  split; [vm_compute; reflexivity|]. split; [vm_compute; reflexivity|].
  intros E. apply (f_equal (fun kd => kd !! "z")) in E.
  vm_compute in E. discriminate.
Qed.

(** ** A segment after the rollover *)


Section Sealed.
Context `{codec : GobCodec}.


Lemma Put_state key value be w :
  exists kd,
    after (Put key value) (mkState be w) =
      with_Keydir kd
        (after (putFileEntry (entry_at (now w) key value false))
           (mkState be (tick w))).
Proof.
  unfold after, Put. mred. rewrite NewFileEntry_run. cbv beta iota.
  destruct (putFileEntry _ _) as [[e|kd] s']; cbn [fst snd].
  - exists (Keydir (engine s')). by rewrite with_Keydir_id.
  - eexists. by destruct s' as [[] ?].
Qed.

Lemma Delete_state key be w :
  after (Delete key) (mkState be w) = mkState be w \/
  exists kd,
    after (Delete key) (mkState be w) =
      with_Keydir kd
        (after (putFileEntry (entry_at (now w) key "" true))
           (mkState be (tick w))).
Proof.
  unfold after, Delete. mred.
  destruct (Keydir be !! key) as [e|]; [right|by left].
  mred. rewrite NewFileEntry_run. cbv beta iota.
  destruct (putFileEntry _ _) as [[e'|kd] s']; cbn [fst snd].
  - exists (Keydir (engine s')). by rewrite with_Keydir_id.
  - eexists. by destruct s' as [[] ?].
Qed.

Lemma Close_state s :
  after Close s =
    mkState (mkEngine (Keydir (engine s)) None (ActiveDir (engine s))
               (MaxFileSize (engine s)))
      (mkWorld (files (world s)) (clock (world s)) (ticks (world s))
         (open_files_after_Close s)).
Proof.
  unfold after, Close, ActiveFile_Close, open_files_after_Close. mred.
  destruct s as [[kd [f|] dir m] [fs clk n fds]]; [|done]. mrun idtac.
  destruct (file_closed f); by mrun idtac.
Qed.










End Sealed.

Section SealedSegment.
Context `{codec : GobCodec}.


End SealedSegment.



(** ** Reading back what was put *)

Lemma ReadAt_middle (pre b post : list Byte.byte) :
  ReadAt (pre ++ b ++ post) (len b) (len pre) = inr b.
Proof.
  unfold ReadAt. pose proof (len_nonneg pre) as Hpre.
  destruct (Z.ltb_spec (len pre) 0); [lia|].
  destruct (Z.eqb_spec (len b) 0) as [H0|H0].
  - destruct b; [done|]. unfold len in H0. simpl in H0. lia.
  - unfold len. rewrite !Nat2Z.id, drop_app_length, take_app_length.
    by destruct (Z.ltb_spec (Z.of_nat (length b)) (Z.of_nat (length b)));
      [lia|].
Qed.

Section RoundTrip.
Context `{codec : GobCodec}.

(** A locator whose offset and size are those of a frame of the file
    fetches the entry of that frame. *)
Lemma fetchFromDisk_frame record s pre fe post :
  files (world s) !! KeyDir.FileID record
    = Some (RegularFile (pre ++ frame fe ++ post)) ->
  KeyDir.ValuePos record = len pre ->
  KeyDir.ValueSz record = 8 + len (gob_encode fe) ->
  len pre + 8 <= max_int64 ->
  8 + len (gob_encode fe) <= max_int64 ->
  fetchFromDisk record s = (inr fe, s).
Proof.
  intros Hfile Hpos Hsz Hfit1 Hfit2.
  pose proof (len_nonneg pre). pose proof (len_nonneg (gob_encode fe)).
  unfold max_int64 in *.
  unfold fetchFromDisk. mred. rewrite Hfile, Hpos, Hsz.
  rewrite (int64_small (len pre + 8)) by (unfold min_int64, max_int64; lia).
  rewrite (int64_small (8 + _)) by (unfold min_int64, max_int64; lia).
  replace (8 + len (gob_encode fe) - 8) with (len (gob_encode fe)) by lia.
  rewrite int64_small by (unfold min_int64, max_int64; lia).
  destruct (Z.ltb_spec (len (gob_encode fe)) 0); [lia|].
  rewrite uint64_small by lia.
  unfold frame. rewrite <- !app_assoc.
  replace (pre ++ PutUint64 (uint64 (len (gob_encode fe))) ++
             gob_encode fe ++ post)
    with ((pre ++ PutUint64 (uint64 (len (gob_encode fe)))) ++
             gob_encode fe ++ post) by (by rewrite <- app_assoc).
  replace (len pre + 8)
    with (len (pre ++ PutUint64 (uint64 (len (gob_encode fe)))))
    by (by rewrite len_app, len_PutUint64).
  rewrite ReadAt_middle. unfold DeserializeFileEntry.
  by rewrite gob_decode_encode.
Qed.

Lemma Get_frame key record s pre fe post :
  Keydir (engine s) !! key = Some record ->
  files (world s) !! KeyDir.FileID record
    = Some (RegularFile (pre ++ frame fe ++ post)) ->
  KeyDir.ValuePos record = len pre ->
  KeyDir.ValueSz record = 8 + len (gob_encode fe) ->
  len pre + 8 <= max_int64 ->
  8 + len (gob_encode fe) <= max_int64 ->
  FileEntry.IsTombstone fe = false ->
  Get key s = (inr (FileEntry.Value fe), s).
Proof.
  intros Hk Hfile Hpos Hsz Hfit1 Hfit2 Hlive.
  unfold Get. mred. rewrite Hk. mred.
  rewrite (fetchFromDisk_frame record s pre fe post) by done.
  by rewrite Hlive.
Qed.

(** The round trip, when the descriptor is where the file ends: [Put]
    appends to the active file and [Get] returns the value. *)
Lemma Put_Get_in_step key value s f c :
  active_on s f c ->
  file_offset f = len c ->
  let fe := entry_at (now (world s)) key value false in
  rolls_over (engine s) c fe = false ->
  len c + 8 + len (gob_encode fe) <= max_int64 ->
  (Put key value s).1 = inr tt /\
  (Get key (after (Put key value) s)).1 = inr value.
Proof.
  destruct s as [be w]. intros (Hf & Hcl & Hc) Hoff fe Hroll Hfit.
  cbn [engine world] in *.
  pose proof (len_nonneg c). pose proof (len_nonneg (gob_encode fe)).
  assert (Hput := putFileEntry_appended fe be (tick w) f c Hf Hcl Hc Hroll).
  unfold after. rewrite (Put_run _ _ _ _ _ _ Hput). split; [done|].
  cbn [snd]. erewrite (Get_frame key _ _ c fe []); [done|..].
  - apply lookup_insert_eq.
  - cbn. rewrite lookup_insert_eq. by rewrite app_nil_r.
  - done.
  - cbn. unfold max_int64 in Hfit. by rewrite uint64_small by lia.
  - lia.
  - lia.
  - done.
Qed.

(** C1 fails on a descriptor that was opened on a file that already holds
    a record: the descriptor starts at offset 0, [Seek(0, io.SeekCurrent)]
    returns 0 although the write goes to the end of the file, and the
    locator of the new record is the one of the first record of the file.
    When the two payloads have the same length, [Get] returns the value
    of that first record. *)
Theorem Put_Get_reads_first_record key value s f feA c :
  active_on s f (frame feA ++ c) ->
  file_offset f = 0 ->
  FileEntry.IsTombstone feA = false ->
  let fe := entry_at (now (world s)) key value false in
  rolls_over (engine s) (frame feA ++ c) fe = false ->
  len (gob_encode fe) = len (gob_encode feA) ->
  8 + len (gob_encode fe) <= max_int64 ->
  (Put key value s).1 = inr tt /\
  (Get key (after (Put key value) s)).1 = inr (FileEntry.Value feA).
Proof.
  destruct s as [be w]. intros (Hf & Hcl & Hc) Hoff Hlive fe Hroll Hlen Hfit.
  cbn [engine world] in *.
  pose proof (len_nonneg (gob_encode fe)).
  assert (Hput := putFileEntry_appended fe be (tick w) f _ Hf Hcl Hc Hroll).
  unfold after. rewrite (Put_run _ _ _ _ _ _ Hput). split; [done|].
  cbn [snd]. erewrite (Get_frame key _ _ [] feA (c ++ frame fe)); [done|..].
  - apply lookup_insert_eq.
  - cbn. rewrite lookup_insert_eq. by rewrite <- app_assoc.
  - done.
  - cbn. unfold max_int64 in Hfit. rewrite uint64_small by lia. by rewrite Hlen.
  - done.
  - lia.
  - done.
Qed.

(** The same inside one engine: [Put] rolls over in the second the active
    segment is named after, the segment is opened again, and the locator
    of the new record is the one of its first record. *)
Lemma Put_rolls_into_same_segment key value s f feA c :
  active_on s f (frame feA ++ c) ->
  FileEntry.IsTombstone feA = false ->
  let be := engine s in
  let w := world s in
  let fe := entry_at (now w) key value false in
  file_name f = filepath_Join (ActiveDir be) (Sprintf_d_data (now (tick w))) ->
  segment_paths_free (files w) ->
  rolls_over be (frame feA ++ c) fe = true ->
  len (gob_encode fe) = len (gob_encode feA) ->
  8 + len (gob_encode fe) <= max_int64 ->
  (Put key value s).1 = inr tt /\
  (Get key (after (Put key value) s)).1 = inr (FileEntry.Value feA).
Proof.
  destruct s as [be' w']. intros (Hf & Hcl & Hc) Hlive be w fe Hname Hfree.
  intros Hroll Hlen Hfit. cbn [engine world] in *. subst be w.
  pose proof (len_nonneg (gob_encode fe)).
  assert (Hput := putFileEntry_rolled fe be' (tick w') f _ Hf Hcl Hc Hfree Hroll).
  rewrite <- Hname in Hput. unfold content_at in Hput.
  cbn [tick files] in Hput. rewrite Hc in Hput.
  unfold after. rewrite (Put_run _ _ _ _ _ _ Hput). split; [done|].
  cbn [snd]. erewrite (Get_frame key _ _ [] feA (c ++ frame fe)); [done|..].
  - apply lookup_insert_eq.
  - cbn. rewrite lookup_insert_eq. by rewrite <- app_assoc.
  - done.
  - cbn. unfold max_int64 in Hfit. rewrite uint64_small by lia. by rewrite Hlen.
  - done.
  - lia.
  - done.
Qed.

End RoundTrip.

(** An engine is opened, ["foo"] is put and the engine is closed; a second
    engine is opened on the directory within the same second, so that its
    active file is the segment the first engine wrote.  [Put] of a new
    value for ["foo"] succeeds and [Get] returns the old value. *)
Lemma Put_Get_reads_first_record_witness :
  let first :=
    after Close
      (after (@Put tagged_codec "foo" "bar") (opened "db" (still_world 100))) in
  let s := opened "db" (world first) in
  active_on s (mkFile "db/100.data" 0 false)
    (@frame tagged_codec (entry_at 100 "foo" "bar" false) ++ []) /\
  (@Put tagged_codec "foo" "baz" s).1 = inr tt /\
  (@Get tagged_codec "foo" (after (@Put tagged_codec "foo" "baz") s)).1
    = inr "bar".
Proof.
  intros first s.
  assert (Hact : active_on s (mkFile "db/100.data" 0 false)
                   (@frame tagged_codec (entry_at 100 "foo" "bar" false) ++ []))
    by (repeat split; vm_compute; reflexivity).
  split; [exact Hact|].
  apply (@Put_Get_reads_first_record tagged_codec "foo" "baz" s
           (mkFile "db/100.data" 0 false) (entry_at 100 "foo" "bar" false) []
           Hact eq_refl eq_refl);
    [vm_compute; reflexivity | vm_compute; reflexivity
    | vm_compute; discriminate].
Defined.

(** ** Persistence *)

(** C2 fails on a rollover within the second of the active segment.  On a
    fresh directory, with [MaxFileSize] at 100, two values are put for
    ["foo"] in one second: the second [Put] rolls over into the segment of
    the same name, its locator points at the first record, and [Get]
    returns the first value until the engine is closed.  A new engine
    opened later on the directory, after [BuildIndex], returns the second
    value. *)
Theorem persistence_after_same_second_rollover :
  let w := mkWorld ∅ (fun n => if (n <? 4)%nat then 100 else 200) 0 [] in
  let s0 := with_MaxFileSize 100 (opened "db" w) in
  let s1 := @run_ops tagged_codec [OpPut "foo" "bar"; OpPut "foo" "baz"] s0 in
  let s2 := after Close s1 in
  let s3 := opened "db" (world s2) in
  let s4 := after (@BuildIndex tagged_codec) s3 in
  files (world s0) = <["db/100.data" := RegularFile []]> {["db" := Directory]} /\
  (Close s1).1 = inr tt /\
  (@BuildIndex tagged_codec s3).1 = inr tt /\
  (@Get tagged_codec "foo" s1).1 = inr "bar" /\
  (@Get tagged_codec "foo" s4).1 = inr "baz".
Proof. repeat split; vm_compute; reflexivity. Qed.

(** * Further properties of the engine *)

(** ** The write path and the key directory *)

Section WriteKeydir.
Context `{codec : GobCodec}.

Lemma putFileEntry_Keydir fe s :
  Keydir (engine (after (putFileEntry fe) s)) = Keydir (engine s).
Proof.
  unfold after.
  destruct (putFileEntry_cases fe s) as [[e ->]|(f & c & _ & ->)]; [done|].
  unfold putFileEntry_outcome.
  destruct (rolls_over _ _ _); [|done].
  by destruct (files (world s) !! filepath_Join _ _) as [[c'|]|].
Qed.

Lemma Put_cases key value be w :
  let r := putFileEntry (entry_at (now w) key value false)
             (mkState be (tick w)) in
  (exists e, r.1 = inl e /\
     Put key value (mkState be w) =
       (inl (Errorw "unable to insert key-value pair into disk: %w" e), r.2)) \/
  (exists kd, r.1 = inr kd /\
     Put key value (mkState be w) =
       (inr tt, with_Keydir (<[key := kd]> (Keydir (engine r.2))) r.2)).
Proof.
  intros r. subst r. unfold Put. mred. rewrite NewFileEntry_run. cbv beta iota.
  destruct (putFileEntry _ _) as [[e|kd] s']; cbn [fst snd]; [left|right].
  - by exists e.
  - exists kd. split; [done|]. by destruct s' as [[] ?].
Qed.

Lemma Delete_cases key be w :
  (Keydir be !! key = None /\
   Delete key (mkState be w) =
     (inl (Errorf "key '%s' not found for deletion"), mkState be w)) \/
  let r := putFileEntry (entry_at (now w) key "" true) (mkState be (tick w)) in
  (exists e, r.1 = inl e /\
     Delete key (mkState be w) =
       (inl (Errorw "unable to put tombstone value into disk: %w" e), r.2)) \/
  (exists kd, r.1 = inr kd /\
     Delete key (mkState be w) =
       (inr tt, with_Keydir (delete key (Keydir (engine r.2))) r.2)).
Proof.
  unfold Delete. mred.
  destruct (Keydir be !! key) as [e|] eqn:Hk; [right|by left].
  mred. rewrite NewFileEntry_run. cbv beta iota.
  destruct (putFileEntry _ _) as [[e'|kd] s']; cbn [fst snd]; [left|right].
  - by exists e'.
  - exists kd. split; [done|]. by destruct s' as [[] ?].
Qed.

(** X1. A [Put] or a [Delete] that returns an error leaves the key
    directory as it was.  A [Put] that succeeds sets the entry of its key
    to the locator that [putFileEntry] returned for the record, replacing
    the entry the key had, and a [Delete] that succeeds removes the entry
    of its key; the entries of all other keys are as they were. *)
Theorem write_changes_own_key key value s :
  let kd := Keydir (engine s) in
  let kd_put := Keydir (engine (after (Put key value) s)) in
  let kd_del := Keydir (engine (after (Delete key) s)) in
  (forall e, (Put key value s).1 = inl e -> kd_put = kd) /\
  (forall e, (Delete key s).1 = inl e -> kd_del = kd) /\
  ((Put key value s).1 = inr tt ->
   exists record s1,
     putFileEntry (entry_at (now (world s)) key value false)
       (mkState (engine s) (tick (world s))) = (inr record, s1) /\
     kd_put = <[key := record]> kd) /\
  ((Delete key s).1 = inr tt -> kd_del = delete key kd).
Proof.
  intros kd kd_put kd_del. subst kd kd_put kd_del. destruct s as [be w].
  unfold after. cbn [engine world].
  pose proof (putFileEntry_Keydir (entry_at (now w) key value false)
                (mkState be (tick w))) as Hp.
  pose proof (putFileEntry_Keydir (entry_at (now w) key "" true)
                (mkState be (tick w))) as Hd.
  unfold after in Hp, Hd. cbn [engine] in Hp, Hd.
  split; [|split; [|split]].
  - intros e. destruct (Put_cases key value be w) as [(e' & _ & ->)|(k' & _ & ->)];
      cbn [fst snd]; [by intros _|done].
  - intros e.
    destruct (Delete_cases key be w) as [[_ ->]|[(e' & _ & ->)|(k' & _ & ->)]];
      cbn [fst snd]; [done|by intros _|done].
  - destruct (Put_cases key value be w) as [(e' & _ & Hr)|(k' & Hput & Hr)];
      rewrite Hr; cbn [fst snd with_Keydir engine Keydir]; [done|].
    intros _. exists k', (putFileEntry (entry_at (now w) key value false)
                            (mkState be (tick w))).2.
    split; [|by rewrite Hp].
    destruct (putFileEntry _ _) as [r s1]. cbn [fst snd] in *. by subst r.
  - destruct (Delete_cases key be w) as [[_ Hr]|[(e' & _ & Hr)|(k' & _ & Hr)]];
      rewrite Hr; cbn [fst snd with_Keydir engine Keydir]; try done.
    intros _. by rewrite Hd.
Qed.

End WriteKeydir.

(** ** Reading back what was written *)

Section ReadBack.
Context `{codec : GobCodec}.

(** After a successful [putFileEntry] the descriptor is where the active
    file ends. *)
Lemma putFileEntry_in_step fe s kd s' :
  putFileEntry fe s = (inr kd, s') ->
  exists f c, active_on s' f c /\ file_offset f = len c.
Proof.
  destruct (putFileEntry_cases fe s) as [[e ->]|(f & c & Hact & ->)]; [done|].
  unfold putFileEntry_outcome.
  destruct (rolls_over _ _ _).
  - destruct (files (world s) !! filepath_Join _ _) as [[c'|]|] eqn:Hp;
      [|done|]; intros [= <- <-];
      eexists (mkFile _ _ false), _; unfold active_on;
      cbn [engine world ActiveFile files file_name file_closed file_offset];
      by rewrite lookup_insert_eq.
  - intros [= <- <-].
    eexists (mkFile _ _ false), _; unfold active_on;
      cbn [engine world ActiveFile files file_name file_closed file_offset];
      by rewrite lookup_insert_eq.
Qed.

Lemma Put_in_step key value s :
  (Put key value s).1 = inr tt ->
  exists f c, active_on (after (Put key value) s) f c /\ file_offset f = len c.
Proof.
  destruct s as [be w]. unfold after.
  destruct (Put_cases key value be w) as [(e & _ & ->)|(kd & Hr & ->)];
    [done|]. intros _. cbn [snd].
  destruct (putFileEntry _ _) as [r s'] eqn:Hput. cbn [fst snd] in *. subst r.
  destruct (putFileEntry_in_step _ _ _ _ Hput) as (f & c & Hact & Hoff).
  exists f, c. split; [by apply active_on_with_Keydir|done].
Qed.

(** X2. [Put] followed by [Get] of the same key returns the value that
    was put, whenever the record goes where the descriptor stands: either
    it is appended to an active file whose descriptor is at the end of the
    file, or the active file is rolled over into a segment that does not
    exist yet. *)
Theorem Put_Get_round_trip key value s f c :
  active_on s f c ->
  let fe := entry_at (now (world s)) key value false in
  let p := filepath_Join (ActiveDir (engine s))
             (Sprintf_d_data (now (tick (world s)))) in
  len c + 8 + len (gob_encode fe) <= max_int64 ->
  (if rolls_over (engine s) c fe then files (world s) !! p = None
   else file_offset f = len c) ->
  (Put key value s).1 = inr tt /\
  (Get key (after (Put key value) s)).1 = inr value.
Proof.
  intros Hact fe p Hfit Hcase.
  destruct (rolls_over (engine s) c fe) eqn:Hroll;
    [|by apply (Put_Get_in_step key value s f c)].
  destruct s as [be w]. destruct Hact as (Hf & Hcl & Hc).
  cbn [engine world] in *.
  pose proof (len_nonneg c). pose proof (len_nonneg (gob_encode fe)).
  assert (Hput : putFileEntry fe (mkState be (tick w)) =
                   written be
                     (opened_in p (tick (closed_in (file_name f) (tick w))))
                     p 0 [] fe).
  { rewrite (putFileEntry_run fe be (tick w) f c) by done.
    unfold putFileEntry_outcome. rewrite Hroll. fold p.
    change (files (tick w)) with (files w). unfold content_at.
    by rewrite Hcase. }
  unfold after. rewrite (Put_run _ _ _ _ _ _ Hput). split; [done|].
  cbn [snd]. erewrite (Get_frame key _ _ [] fe []); [done|..].
  - apply lookup_insert_eq.
  - cbn. rewrite lookup_insert_eq. by rewrite app_nil_r.
  - done.
  - cbn. unfold max_int64 in Hfit. by rewrite uint64_small by lia.
  - unfold max_int64, len. cbn. lia.
  - lia.
  - done.
Qed.

(** X3. Once a [Put] has succeeded the descriptor is at the end of the
    active file, so the next [Put] that is appended to that file is read
    back by [Get], whatever the state the first [Put] started from; with
    the same key this is an overwrite, and [Get] returns the new value. *)
Theorem Put_after_Put_round_trip key0 value0 key value s f c :
  (Put key0 value0 s).1 = inr tt ->
  let s1 := after (Put key0 value0) s in
  let fe := entry_at (now (world s1)) key value false in
  active_on s1 f c ->
  rolls_over (engine s1) c fe = false ->
  len c + 8 + len (gob_encode fe) <= max_int64 ->
  (Put key value s1).1 = inr tt /\
  (Get key (after (Put key value) s1)).1 = inr value.
Proof.
  intros Hok s1 fe Hact Hroll Hfit.
  destruct (Put_in_step key0 value0 s Hok) as (f' & c' & Hact' & Hoff).
  fold s1 in Hact'.
  destruct Hact as (Hf & Hcl & Hc), Hact' as (Hf' & Hcl' & Hc').
  rewrite Hf in Hf'. injection Hf' as <-. rewrite Hc in Hc'.
  injection Hc' as <-.
  by apply (Put_Get_in_step key value s1 f c).
Qed.

End ReadBack.

Lemma Put_Get_round_trip_witness :
  let s := opened "db" (still_world 100) in
  let f := mkFile "db/100.data" 0 false in
  active_on s f [] /\
  len ([] : list Byte.byte) + 8 +
    len (@gob_encode tagged_codec (entry_at (now (world s)) "foo" "bar" false))
    <= max_int64 /\
  (@Put tagged_codec "foo" "bar" s).1 = inr tt /\
  (@Get tagged_codec "foo" (after (@Put tagged_codec "foo" "bar") s)).1
    = inr "bar".
Proof.
  intros s f.
  assert (Hact : active_on s f []) by (repeat split; reflexivity).
  assert (Hfit : len ([] : list Byte.byte) + 8 +
                 len (@gob_encode tagged_codec
                        (entry_at (now (world s)) "foo" "bar" false))
                 <= max_int64) by (vm_compute; discriminate).
  split; [exact Hact|]. split; [exact Hfit|].
  apply (@Put_Get_round_trip tagged_codec "foo" "bar" s f [] Hact Hfit).
  vm_compute. reflexivity.
Defined.

Lemma Put_after_Put_round_trip_witness :
  let s := opened "db" (still_world 100) in
  let s1 := after (@Put tagged_codec "foo" "bar") s in
  (@Put tagged_codec "foo" "bar" s).1 = inr tt /\
  (@Put tagged_codec "foo" "baz" s1).1 = inr tt /\
  (@Get tagged_codec "foo" (after (@Put tagged_codec "foo" "baz") s1)).1
    = inr "baz".
Proof.
  intros s s1.
  assert (Hok : (@Put tagged_codec "foo" "bar" s).1 = inr tt)
    by (vm_compute; reflexivity).
  split; [exact Hok|].
  apply (@Put_after_Put_round_trip tagged_codec "foo" "bar" "foo" "baz" s
           (mkFile "db/100.data" 70 false)
           (@frame tagged_codec (entry_at 100 "foo" "bar" false)) Hok).
  - repeat split; vm_compute; reflexivity.
  - vm_compute; reflexivity.
  - vm_compute; discriminate.
Defined.

(** ** Opening an engine *)

Lemma ancestors_from_shorter seen s a :
  a ∈ ancestors_from seen s ->
  (String.length a < String.length seen + String.length s)%nat.
Proof.
  revert seen. induction s as [|c s IH]; intros seen; cbn [ancestors_from];
    [by intros ?%elem_of_nil|].
  intros [Ha|Ha]%elem_of_app.
  - destruct (Ascii.eqb c "/" && negb (String.eqb seen ""));
      [|by apply elem_of_nil in Ha].
    apply list_elem_of_singleton in Ha as ->. cbn [String.length]. lia.
  - apply IH in Ha. rewrite length_app_string in Ha.
    cbn [String.length] in *. lia.
Qed.

Lemma ancestors_shorter path a :
  a ∈ ancestors path -> (String.length a < String.length path)%nat.
Proof. intros Ha%ancestors_from_shorter. by cbn in Ha. Qed.

Lemma fold_mkdir_other l (fs : gmap string Node) q :
  q ∉ l -> fold_left mkdir_if_missing l fs !! q = fs !! q.
Proof.
  revert fs. induction l as [|a l IH]; intros fs Hq; [done|].
  apply not_elem_of_cons in Hq as [Hqa Hq]. cbn [fold_left].
  rewrite IH by done. unfold mkdir_if_missing.
  destruct (fs !! a); [done|]. by rewrite lookup_insert_ne.
Qed.

Lemma fold_mkdir_kept l (fs : gmap string Node) q n :
  fs !! q = Some n -> fold_left mkdir_if_missing l fs !! q = Some n.
Proof.
  revert fs. induction l as [|a l IH]; intros fs Hq; [done|].
  cbn [fold_left]. apply IH. unfold mkdir_if_missing.
  destruct (fs !! a) eqn:Ha; [done|].
  rewrite lookup_insert_ne; [done|]. intros ->. by rewrite Hq in Ha.
Qed.

Lemma fold_mkdir_cases l (fs : gmap string Node) q :
  fold_left mkdir_if_missing l fs !! q = fs !! q \/
  fold_left mkdir_if_missing l fs !! q = Some Directory.
Proof.
  revert fs. induction l as [|a l IH]; intros fs; [by left|].
  cbn [fold_left]. destruct (IH (mkdir_if_missing fs a)) as [H|H]; [|by right].
  rewrite H. unfold mkdir_if_missing.
  destruct (fs !! a) eqn:Ha; [by left|].
  destruct (decide (a = q)) as [->|Hne];
    [right; apply lookup_insert_eq|left; by rewrite lookup_insert_ne].
Qed.

Lemma fold_mkdir_created l (fs : gmap string Node) q :
  fs !! q = None -> fold_left mkdir_if_missing (l ++ [q]) fs !! q = Some Directory.
Proof.
  intros Hq. rewrite fold_left_app. cbn [fold_left].
  destruct (fold_mkdir_cases l fs q) as [H|H].
  - unfold mkdir_if_missing at 1. rewrite H, Hq. apply lookup_insert_eq.
  - unfold mkdir_if_missing at 1. by rewrite H.
Qed.

Lemma existsb_regular_false (fs : gmap string Node) l :
  Forall (fun a => is_regular (fs !! a) = false) l ->
  existsb (fun a => is_regular (fs !! a)) l = false.
Proof.
  induction 1 as [|a l Ha _ IH]; [done|]. cbn [existsb]. by rewrite Ha, IH.
Qed.

Lemma os_MkdirAll_run path w :
  path <> "" ->
  Forall (fun a => is_regular (files w !! a) = false) (ancestors path ++ [path]) ->
  os_MkdirAll path w =
    inr (mkWorld
           (fold_left mkdir_if_missing (ancestors path ++ [path]) (files w))
           (clock w) (ticks w) (open_files w)).
Proof.
  intros Hne Hreg. unfold os_MkdirAll. destruct path; [done|].
  by rewrite existsb_regular_false.
Qed.

Lemma clean_dir_nonempty dir : clean_dir dir = true -> dir <> "".
Proof. intros H ->. vm_compute in H. discriminate. Qed.

Section Opening.
Context `{codec : GobCodec}.

(** The second half of [NewBistcaskEngine], once the data directory is
    there. *)
Lemma open_active_file_run directory w :
  let p := filepath_Join directory (Sprintf_d_data (now w)) in
  files w !! p <> Some Directory ->
  open_active_file directory w =
    (inr (mkEngine ∅ (Some (mkFile p 0 false)) directory (1 * 1024 * 1024)),
     mkWorld
       (match files w !! p with
        | None => <[p := RegularFile []]> (files w)
        | Some _ => files w
        end) (clock w) (S (ticks w)) (p :: open_files w)).
Proof.
  intros p Hp. unfold open_active_file, os_OpenFile. fold p. mred.
  destruct (files w !! p) as [[c'|]|]; [|done|]; by mrun idtac.
Qed.

(** [NewBistcaskEngine] on a clean path with no regular file on the way
    and no directory where the segment goes. *)
Lemma NewBistcaskEngine_run directory w :
  let p := filepath_Join directory (Sprintf_d_data (now w)) in
  clean_dir directory = true ->
  (files w !! directory = None \/ files w !! directory = Some Directory) ->
  Forall (fun a => is_regular (files w !! a) = false) (ancestors directory) ->
  files w !! p <> Some Directory ->
  exists fs,
    NewBistcaskEngine directory w =
      (inr (mkEngine ∅ (Some (mkFile p 0 false)) directory (1 * 1024 * 1024)),
       mkWorld (<[p := RegularFile (content_at (files w) p)]> fs)
         (clock w) (S (ticks w)) (p :: open_files w)) /\
    fs = match files w !! directory with
         | Some _ => files w
         | None =>
             fold_left mkdir_if_missing (ancestors directory ++ [directory])
               (files w)
         end /\
    fs !! directory = Some Directory /\
    fs !! p = files w !! p /\
    (forall q n, files w !! q = Some n -> fs !! q = Some n).
Proof.
  intros p Hclean Hdir Hanc Hp.
  assert (Hne : p <> directory)
    by (apply filepath_Join_neq; [done|apply plain_Sprintf_d_data]).
  assert (Hlen : (String.length directory < String.length p)%nat).
  { unfold p. rewrite filepath_Join_clean by (done || apply plain_Sprintf_d_data).
    rewrite !length_app_string. cbn [String.length]. lia. }
  unfold NewBistcaskEngine, os_Stat, content_at.
  destruct Hdir as [Hd|Hd]; rewrite Hd.
  - (* the directory is created *)
    rewrite existsb_regular_false by done.
    rewrite os_MkdirAll_run
      by (by apply clean_dir_nonempty ||
          (apply Forall_app; split; [done|constructor; [by rewrite Hd|done]])).
    set (fs := fold_left mkdir_if_missing (ancestors directory ++ [directory])
                 (files w)).
    assert (Hfsp : fs !! p = files w !! p).
    { apply fold_mkdir_other. rewrite not_elem_of_app. split.
      - intros Hin%ancestors_shorter. lia.
      - by intros ->%list_elem_of_singleton. }
    exists fs.
    split; [|split; [done|split; [by apply fold_mkdir_created|split;
      [done|intros q n Hq; by apply fold_mkdir_kept]]]].
    rewrite (open_active_file_run directory
               (mkWorld fs (clock w) (ticks w) (open_files w)));
      change (now (mkWorld fs (clock w) (ticks w) (open_files w))) with (now w);
      fold p; cbn [files clock ticks open_files]; [|by rewrite Hfsp].
    rewrite Hfsp. do 2 f_equal.
    destruct (files w !! p) as [[c'|]|] eqn:Hp'; [|done|done].
    by rewrite insert_id by (by rewrite Hfsp).
  - (* the directory is there *)
    rewrite open_active_file_run by done. fold p.
    exists (files w). split; [|done].
    do 2 f_equal.
    destruct (files w !! p) as [[c'|]|] eqn:Hp'; [|done|done].
    by rewrite insert_id.
Qed.

(** X4. [NewBistcaskEngine] on a clean path (as [filepath.Clean] returns
    it, neither [.] nor the root) that is a directory or does not exist,
    with no regular file on the way to it and no directory standing where
    the segment of the current second goes: it returns an engine with an
    empty key directory, the limit of 1 MiB and a descriptor at offset 0
    on [<directory>/<second>.data], entered in the table of open
    descriptors; the data directory exists afterwards; the segment holds
    what it held before (nothing when it is new) and every node that was
    there is as it was.  No segment is read: whatever the directory
    holds, every [Get] on the new engine fails with the key not found
    until the index is built. *)
Theorem NewBistcaskEngine_opens directory w :
  let p := filepath_Join directory (Sprintf_d_data (now w)) in
  clean_dir directory = true ->
  (files w !! directory = None \/ files w !! directory = Some Directory) ->
  Forall (fun a => is_regular (files w !! a) = false) (ancestors directory) ->
  files w !! p <> Some Directory ->
  exists be w',
    NewBistcaskEngine directory w = (inr be, w') /\
    be = mkEngine ∅ (Some (mkFile p 0 false)) directory 1048576 /\
    p = directory +:+ "/" +:+ Sprintf_d_data (now w) /\
    files w' !! directory = Some Directory /\
    files w' !! p = Some (RegularFile (content_at (files w) p)) /\
    (forall q n, q <> p -> files w !! q = Some n -> files w' !! q = Some n) /\
    clock w' = clock w /\ ticks w' = S (ticks w) /\
    open_files w' = p :: open_files w /\
    forall key,
      Get key (mkState be w') =
        (inl (Errorf "key not found error"), mkState be w').
Proof.
  intros p Hclean Hdir Hanc Hp.
  destruct (NewBistcaskEngine_run directory w Hclean Hdir Hanc Hp)
    as (fs & Hrun & _ & Hfsdir & Hfsp & Hkept).
  fold p in Hrun, Hfsp.
  assert (Hne : p <> directory)
    by (apply filepath_Join_neq; [done|apply plain_Sprintf_d_data]).
  eexists _, _. split; [exact Hrun|]. cbn [files clock ticks open_files].
  split; [done|].
  split; [apply filepath_Join_clean; [done|apply plain_Sprintf_d_data]|].
  split; [by rewrite lookup_insert_ne|].
  split; [apply lookup_insert_eq|].
  split; [intros q n Hq Hn; rewrite lookup_insert_ne by done; by apply Hkept|].
  do 3 (split; [done|]). intros key. by apply Get_absent.
Qed.

(** X5. When a directory stands where the segment of the current second
    goes, [NewBistcaskEngine] stops with [log.Fatalf] and there is no
    engine; no file was created or changed. *)
Theorem NewBistcaskEngine_fatal directory w d :
  files w !! directory = Some d ->
  files w !! filepath_Join directory (Sprintf_d_data (now w))
    = Some Directory ->
  exists w',
    NewBistcaskEngine directory w =
      (inl (Fatalf "Error creating new file '%s': '%v'" ErrIsDir), w') /\
    files w' = files w.
Proof.
  intros Hd Hp. unfold NewBistcaskEngine, os_Stat. rewrite Hd.
  unfold open_active_file, os_OpenFile. mred. rewrite Hp. by eexists.
Qed.

(** X17. [NewBistcaskEngine] ends in [log.Fatalf], without an engine and
    without a change to any file, on the empty path (which cannot be
    created) and on a path that does not exist and goes through a regular
    file. *)
Theorem NewBistcaskEngine_no_directory directory w :
  files w !! directory = None ->
  directory = "" \/
  Exists (fun a => is_regular (files w !! a) = true) (ancestors directory) ->
  exists msg e, NewBistcaskEngine directory w = (inl (Fatalf msg e), w).
Proof.
  intros Hd Hcase. unfold NewBistcaskEngine, os_Stat. rewrite Hd.
  destruct (existsb _ (ancestors directory)) eqn:Hex; [by eexists _, _|].
  destruct Hcase as [->|Hreg]; [by eexists _, _|].
  apply Exists_exists in Hreg as (a & Ha & Hr).
  assert (existsb (fun a => is_regular (files w !! a)) (ancestors directory)
          = true); [|congruence].
  apply existsb_exists. exists a. split; [by apply list_elem_of_In|done].
Qed.

End Opening.

Lemma NewBistcaskEngine_opens_witness :
  let w := world (after (@Put tagged_codec "a" "1")
                    (opened "db" (still_world 100))) in
  let p := filepath_Join "db" (Sprintf_d_data (now w)) in
  clean_dir "db" = true /\
  (files w !! "db" = None \/ files w !! "db" = Some Directory) /\
  files w !! p <> Some Directory /\
  exists be w',
    NewBistcaskEngine "db" w = (inr be, w') /\
    files w' !! p = files w !! p /\
    @Get tagged_codec "a" (mkState be w') =
      (inl (Errorf "key not found error"), mkState be w').
Proof.
  intros w p.
  assert (Hclean : clean_dir "db" = true) by (vm_compute; reflexivity).
  assert (Hd : files w !! "db" = None \/ files w !! "db" = Some Directory)
    by (right; vm_compute; reflexivity).
  assert (Hanc : Forall (fun a => is_regular (files w !! a) = false)
                   (ancestors "db")) by constructor.
  assert (Hp : files w !! p <> Some Directory) by (vm_compute; discriminate).
  split; [exact Hclean|]. split; [exact Hd|]. split; [exact Hp|].
  destruct (@NewBistcaskEngine_opens tagged_codec "db" w Hclean Hd Hanc Hp)
    as (be & w' & Hopen & _ & _ & _ & Hseg & _ & _ & _ & _ & Hget).
  exists be, w'. split; [exact Hopen|]. split; [|apply Hget].
  etransitivity; [exact Hseg|]. vm_compute. reflexivity.
Defined.

Lemma NewBistcaskEngine_fatal_witness :
  let w := mkWorld (<["db/100.data" := Directory]> (<["db" := Directory]> ∅))
             (fun _ => 100) 0 [] in
  files w !! "db" = Some Directory /\
  files w !! filepath_Join "db" (Sprintf_d_data (now w)) = Some Directory /\
  exists w',
    NewBistcaskEngine "db" w =
      (inl (Fatalf "Error creating new file '%s': '%v'" ErrIsDir), w') /\
    files w' = files w.
Proof.
  intros w.
  assert (Hd : files w !! "db" = Some Directory) by (vm_compute; reflexivity).
  assert (Hp : files w !! filepath_Join "db" (Sprintf_d_data (now w))
               = Some Directory) by (vm_compute; reflexivity).
  split; [exact Hd|]. split; [exact Hp|].
  exact (NewBistcaskEngine_fatal "db" w Directory Hd Hp).
Defined.

Lemma NewBistcaskEngine_no_directory_witness :
  let w := mkWorld (<["f" := RegularFile []]> ∅) (fun _ => 100) 0 [] in
  files w !! "f/db" = None /\
  Exists (fun a => is_regular (files w !! a) = true) (ancestors "f/db") /\
  (exists msg e, NewBistcaskEngine "f/db" w = (inl (Fatalf msg e), w)) /\
  (exists msg e, NewBistcaskEngine "" w = (inl (Fatalf msg e), w)).
Proof.
  intros w.
  assert (Hd : files w !! "f/db" = None) by (vm_compute; reflexivity).
  assert (Hd0 : files w !! "" = None) by (vm_compute; reflexivity).
  assert (Hreg : Exists (fun a => is_regular (files w !! a) = true)
                   (ancestors "f/db"))
    by (apply Exists_cons_hd; vm_compute; reflexivity).
  split; [exact Hd|]. split; [exact Hreg|]. split.
  - exact (NewBistcaskEngine_no_directory "f/db" w Hd (or_intror Hreg)).
  - exact (NewBistcaskEngine_no_directory "" w Hd0 (or_introl eq_refl)).
Defined.

(** ** What the operations do to the files *)

Lemma fs_grows_refl fs : fs_grows fs fs.
Proof.
  intros p. split; [done|]. intros c Hc. exists []. by rewrite app_nil_r.
Qed.

Lemma fs_grows_trans fs1 fs2 fs3 :
  fs_grows fs1 fs2 -> fs_grows fs2 fs3 -> fs_grows fs1 fs3.
Proof.
  intros H12 H23 p. destruct (H12 p) as [Hd1 Hr1], (H23 p) as [Hd2 Hr2].
  split; [auto|]. intros c Hc.
  destruct (Hr1 c Hc) as [m1 H1]. destruct (Hr2 _ H1) as [m2 H2].
  exists (m1 ++ m2). by rewrite app_assoc.
Qed.

Lemma fs_grows_append fs p b :
  fs !! p <> Some Directory ->
  fs_grows fs (<[p := RegularFile (content_at fs p ++ b)]> fs).
Proof.
  intros Hp q. rewrite lookup_insert. unfold content_at.
  case_decide as Hq; [subst q|].
  - split; [done|]. intros c Hc. rewrite Hc. by exists b.
  - split; [done|]. intros c Hc. exists []. by rewrite app_nil_r.
Qed.

Lemma ReadAt_app (c more : list Byte.byte) n off b :
  ReadAt c n off = inr b -> ReadAt (c ++ more) n off = inr b.
Proof.
  unfold ReadAt. destruct (off <? 0); [done|]. destruct (n =? 0); [done|].
  destruct (Z.le_gt_cases n 0) as [Hn|Hn].
  { replace (Z.to_nat n) with O by lia. by rewrite !take_0. }
  destruct (Z.ltb_spec (len (take (Z.to_nat n) (drop (Z.to_nat off) c))) n)
    as [|Hge]; [done|].
  intros [= <-]. unfold len in *. rewrite length_take, length_drop in Hge.
  rewrite drop_app_le by lia.
  rewrite take_app_le by (rewrite length_drop; lia).
  destruct (Z.ltb_spec
              (Z.of_nat (length (take (Z.to_nat n) (drop (Z.to_nat off) c)))) n)
    as [Hlt|]; [|done].
  rewrite length_take, length_drop in Hlt. lia.
Qed.

Section Files.
Context `{codec : GobCodec}.

Lemma putFileEntry_grows fe s :
  fs_grows (files (world s)) (files (world (after (putFileEntry fe) s))).
Proof.
  unfold after.
  destruct (putFileEntry_cases fe s) as [[e ->]|(f & c & Hact & ->)];
    [apply fs_grows_refl|].
  destruct Hact as (_ & _ & Hc). unfold putFileEntry_outcome.
  destruct (rolls_over _ _ _).
  - destruct (files (world s) !! filepath_Join _ _) as [[c'|]|] eqn:Hp;
      cbn [written snd world files tick opened_in closed_in];
      [|apply fs_grows_refl|]; apply fs_grows_append; by rewrite Hp.
  - cbn [written snd world files].
    replace c with (content_at (files (world s)) (file_name f))
      by (unfold content_at; by rewrite Hc).
    apply fs_grows_append. by rewrite Hc.
Qed.

Lemma run_op_grows o s :
  fs_grows (files (world s)) (files (world (run_op o s))).
Proof.
  destruct s as [be w]. destruct o as [key value|key|key| |]; cbn [run_op].
  - destruct (Put_state key value be w) as [kd ->].
    cbn [with_Keydir world].
    apply (putFileEntry_grows _ (mkState be (tick w))).
  - destruct (Delete_state key be w) as [->|[kd ->]]; [apply fs_grows_refl|].
    cbn [with_Keydir world].
    apply (putFileEntry_grows _ (mkState be (tick w))).
  - unfold after. rewrite Get_state. apply fs_grows_refl.
  - rewrite Close_state. apply fs_grows_refl.
  - unfold after. rewrite BuildIndex_scanned. apply fs_grows_refl.
Qed.

Lemma run_ops_grows ops s :
  fs_grows (files (world s)) (files (world (run_ops ops s))).
Proof.
  revert s. induction ops as [|o ops IH]; intros s; [apply fs_grows_refl|].
  cbn [run_ops fold_left].
  eapply fs_grows_trans; [apply run_op_grows|apply IH].
Qed.

(** X6. The engine only ever appends: whatever sequence of [Put],
    [Delete], [Get], [Close] and [BuildIndex] runs, and whether or not
    each of them succeeds, every directory is still there afterwards and
    every regular file still starts with the bytes it held before.
    Nothing is removed, truncated or rewritten in place. *)
Theorem operations_only_append ops s :
  fs_grows (files (world s)) (files (world (run_ops ops s))).
Proof. apply run_ops_grows. Qed.

(** X7. A rebuild changes the key directory and nothing else: the files,
    the clock, the active file, the data directory and the size limit
    are the same after [BuildIndex], whether it succeeds or fails. *)
Theorem BuildIndex_changes_only_Keydir s :
  let s' := after BuildIndex s in
  world s' = world s /\
  ActiveFile (engine s') = ActiveFile (engine s) /\
  ActiveDir (engine s') = ActiveDir (engine s) /\
  MaxFileSize (engine s') = MaxFileSize (engine s).
Proof. unfold after. by rewrite BuildIndex_scanned. Qed.

Lemma fetchFromDisk_grows record s s' fe :
  fs_grows (files (world s)) (files (world s')) ->
  (fetchFromDisk record s).1 = inr fe ->
  (fetchFromDisk record s').1 = inr fe.
Proof.
  intros Hg. unfold fetchFromDisk. mred.
  destruct (files (world s) !! KeyDir.FileID record) as [[c|]|] eqn:Hc;
    [| |done].
  - destruct (proj2 (Hg _) c Hc) as [more ->].
    destruct (_ <? 0); [done|].
    destruct (ReadAt c _ _) as [e|buf] eqn:Hr; [done|].
    rewrite (ReadAt_app _ _ _ _ _ Hr).
    by destruct (DeserializeFileEntry buf).
  - rewrite (proj1 (Hg _) Hc). by destruct (_ <? 0).
Qed.

Lemma Get_grows key s s' v :
  Keydir (engine s') !! key = Keydir (engine s) !! key ->
  fs_grows (files (world s)) (files (world s')) ->
  (Get key s).1 = inr v -> (Get key s').1 = inr v.
Proof.
  intros Hk Hg. unfold Get. mred. rewrite Hk.
  destruct (Keydir (engine s) !! key) as [record|]; [|done]. mred.
  destruct (fetchFromDisk record s) as [[e|fe] s1] eqn:Hf; [done|].
  pose proof (fetchFromDisk_grows record s s' fe Hg) as Hf'.
  rewrite Hf in Hf'. specialize (Hf' eq_refl).
  destruct (fetchFromDisk record s') as [[e'|fe'] s1']; cbn in Hf'; [done|].
  injection Hf' as ->. by destruct (FileEntry.IsTombstone fe).
Qed.

Lemma Put_Keydir_other key value k s :
  k <> key ->
  Keydir (engine (after (Put key value) s)) !! k = Keydir (engine s) !! k.
Proof.
  intros Hk. destruct s as [be w]. unfold after.
  pose proof (putFileEntry_Keydir (entry_at (now w) key value false)
                (mkState be (tick w))) as Hp.
  unfold after in Hp. cbn [engine] in Hp.
  destruct (Put_cases key value be w) as [(e' & _ & ->)|(k' & _ & ->)];
    cbn [fst snd with_Keydir engine Keydir]; [by rewrite Hp|].
  by rewrite lookup_insert_ne, Hp.
Qed.

Lemma Delete_Keydir_other key k s :
  k <> key ->
  Keydir (engine (after (Delete key) s)) !! k = Keydir (engine s) !! k.
Proof.
  intros Hk. destruct s as [be w]. unfold after.
  pose proof (putFileEntry_Keydir (entry_at (now w) key "" true)
                (mkState be (tick w))) as Hp.
  unfold after in Hp. cbn [engine] in Hp.
  destruct (Delete_cases key be w) as [[_ ->]|[(e' & _ & ->)|(k' & _ & ->)]];
    cbn [fst snd with_Keydir engine Keydir]; [done|by rewrite Hp|].
  by rewrite lookup_delete_ne, Hp.
Qed.

Lemma run_op_Keydir_other key o s :
  leaves key o = true ->
  Keydir (engine (run_op o s)) !! key = Keydir (engine s) !! key.
Proof.
  destruct o as [k value|k|k| |]; cbn [leaves run_op]; intros Hl.
  - apply Put_Keydir_other. intros ->. by rewrite String.eqb_refl in Hl.
  - apply Delete_Keydir_other. intros ->. by rewrite String.eqb_refl in Hl.
  - unfold after. by rewrite Get_state.
  - by rewrite Close_state.
  - done.
Qed.

(** X8. A value that can be read stays readable: when [Get key] returns
    [v], it still returns [v] after any sequence of [Put] and [Delete] on
    other keys, of [Get] and of [Close], whether or not these succeed or
    roll the active file over. *)
Theorem Get_unchanged_by_other_keys key v ops s :
  forallb (leaves key) ops = true ->
  (Get key s).1 = inr v ->
  (Get key (run_ops ops s)).1 = inr v.
Proof.
  revert s. induction ops as [|o ops IH]; intros s Hl Hget; [done|].
  cbn [forallb] in Hl. apply andb_true_iff in Hl as [Ho Hl].
  cbn [run_ops fold_left]. apply IH; [done|].
  apply (Get_grows key s); [by apply run_op_Keydir_other|apply run_op_grows|done].
Qed.

End Files.

Lemma Get_unchanged_by_other_keys_witness :
  let s := after (@Put tagged_codec "a" "1") (opened "db" (still_world 100)) in
  let ops := [OpPut "b" "2"; OpDelete "b"; OpGet "b"; OpPut "c" "3"; OpClose] in
  forallb (leaves "a") ops = true /\
  (@Get tagged_codec "a" s).1 = inr "1" /\
  (@Get tagged_codec "a" (@run_ops tagged_codec ops s)).1 = inr "1".
Proof.
  intros s ops.
  assert (Hl : forallb (leaves "a") ops = true) by reflexivity.
  assert (Hg : (@Get tagged_codec "a" s).1 = inr "1")
    by (vm_compute; reflexivity).
  split; [exact Hl|]. split; [exact Hg|].
  exact (@Get_unchanged_by_other_keys tagged_codec "a" "1" ops s Hl Hg).
Defined.

(** ** The checksum of a file entry *)

Lemma lxor_cancel_r x m : Z.lxor (Z.lxor x m) m = x.
Proof. by rewrite Z.lxor_assoc, Z.lxor_nilpotent, Z.lxor_0_r. Qed.

(** Writing [a] and then [b] to the hasher is writing [a ++ b]. *)
Lemma crc32_update_app crc (a b : list Byte.byte) :
  crc32_update (crc32_update crc a) b = crc32_update crc (a ++ b).
Proof.
  unfold crc32_update. cbv zeta. by rewrite lxor_cancel_r, fold_left_app.
Qed.

Lemma list_byte_of_string_app (a b : string) :
  list_byte_of_string (a +:+ b) = list_byte_of_string a ++ list_byte_of_string b.
Proof.
  unfold list_byte_of_string. induction a as [|c a IH]; [done|].
  change (String c a +:+ b) with (String c (a +:+ b)).
  cbn [list_ascii_of_string map app]. by rewrite IH.
Qed.

Lemma u32_land x : 0 <= x < 2 ^ 32 <-> Z.land x (Z.ones 32) = x.
Proof.
  rewrite Z.land_ones by lia. split; [intros; by apply Z.mod_small|].
  intros <-. apply Z.mod_pos_bound. lia.
Qed.

Lemma land_lxor_distr a b m :
  Z.land (Z.lxor a b) m = Z.lxor (Z.land a m) (Z.land b m).
Proof.
  apply Z.bits_inj'. intros n _.
  rewrite Z.land_spec, !Z.lxor_spec, !Z.land_spec.
  by destruct (Z.testbit a n), (Z.testbit b n), (Z.testbit m n).
Qed.

Lemma u32_lxor a b :
  0 <= a < 2 ^ 32 -> 0 <= b < 2 ^ 32 -> 0 <= Z.lxor a b < 2 ^ 32.
Proof.
  rewrite !u32_land. intros Ha Hb.
  by rewrite land_lxor_distr, Ha, Hb.
Qed.

Lemma u32_shiftr c n : 0 <= n -> 0 <= c < 2 ^ 32 -> 0 <= Z.shiftr c n < 2 ^ 32.
Proof.
  intros Hn Hc. rewrite Z.shiftr_div_pow2 by done.
  assert (0 < 2 ^ n) by (apply Z.pow_pos_nonneg; lia).
  split; [apply Z.div_pos; lia|].
  apply Z.le_lt_trans with c; [|lia]. apply Z.div_le_upper_bound; nia.
Qed.

Lemma u32_crc_shift n c : 0 <= c < 2 ^ 32 -> 0 <= crc_shift n c < 2 ^ 32.
Proof.
  revert c. induction n as [|n IH]; intros c Hc; [done|].
  cbn [crc_shift]. apply IH.
  destruct (Z.testbit c 0); [apply u32_lxor|]; try apply u32_shiftr; try lia.
  by unfold IEEE.
Qed.

Lemma Z_of_byte_range b : 0 <= Z_of_byte b < 256.
Proof. unfold Z_of_byte. pose proof (Byte.to_N_bounded b). lia. Qed.

Lemma u32_crc32_update crc p :
  0 <= crc < 2 ^ 32 -> 0 <= crc32_update crc p < 2 ^ 32.
Proof.
  intros Hcrc. unfold crc32_update. cbv zeta.
  apply u32_lxor; [|lia].
  assert (H0 : 0 <= Z.lxor crc 4294967295 < 2 ^ 32) by (apply u32_lxor; lia).
  revert H0. generalize (Z.lxor crc 4294967295).
  induction p as [|v p IH]; intros c Hc; [done|].
  cbn [fold_left]. apply IH. apply u32_lxor; [|apply u32_shiftr; lia].
  apply u32_crc_shift.
  pose proof (Z_of_byte_range v).
  apply u32_lxor; [|lia].
  change 255 with (Z.ones 8). rewrite Z.land_ones by lia.
  pose proof (Z.mod_pos_bound c (2 ^ 8)). lia.
Qed.

(** The check value of CRC-32/IEEE. *)
Lemma crc32_check_value :
  crc32_update 0 (list_byte_of_string "123456789") = 0xcbf43926.
Proof. vm_compute. reflexivity. Qed.

(** X9. [NewFileEntry] never fails, and the checksum it stores is the
    CRC-32 of the bytes of the key followed by the bytes of the value: the
    two writes to the hasher amount to one write of the concatenation.
    The checksum fits the 32 bits of the field. *)
Theorem NewFileEntry_checksum key value isTombstone s :
  exists fe,
    (NewFileEntry key value isTombstone s).1 = inr fe /\
    FileEntry.Crc fe = crc32_update 0 (list_byte_of_string (key +:+ value)) /\
    0 <= FileEntry.Crc fe < 2 ^ 32.
Proof.
  destruct s as [be w]. rewrite NewFileEntry_run. eexists. split; [done|].
  unfold entry_at. cbn [FileEntry.Crc].
  rewrite crc32_update_app, list_byte_of_string_app.
  split; [done|]. apply u32_crc32_update. lia.
Qed.

(** ** The order in which a rebuild visits the segments *)

Lemma StronglySorted_snoc {A} (R : A -> A -> Prop) l x :
  StronglySorted R l -> Forall (fun y => R y x) l ->
  StronglySorted R (l ++ [x]).
Proof.
  induction l as [|a l IH]; intros Hs Hx; cbn [app].
  - by repeat constructor.
  - apply StronglySorted_inv in Hs as [Hs Ha].
    apply Forall_cons in Hx as [Hax Hx].
    constructor; [by apply IH|].
    apply Forall_app. split; [done|by constructor].
Qed.

Lemma StronglySorted_rev {A} (R : A -> A -> Prop) l :
  StronglySorted (fun a b => R b a) l -> StronglySorted R (rev l).
Proof.
  induction l as [|a l IH]; intros Hs; cbn [rev]; [constructor|].
  apply StronglySorted_inv in Hs as [Hs Ha].
  apply StronglySorted_snoc; [by apply IH|].
  apply Forall_forall. intros y Hy. rewrite Forall_forall in Ha.
  apply Ha. by apply list_elem_of_In, in_rev, list_elem_of_In.
Qed.

Section InsertionSort.
Context {A : Type} (less : A -> A -> bool) (key : A -> Z).

Lemma insert_from_right_elem x r y :
  y ∈ insert_from_right less x r <-> y = x \/ y ∈ r.
Proof.
  induction r as [|z r IH]; cbn [insert_from_right].
  - rewrite list_elem_of_singleton, elem_of_nil. tauto.
  - destruct (less x z); rewrite !elem_of_cons, ?IH; tauto.
Qed.

(** One step of the sort keeps the sorted prefix sorted (it is held in
    reverse, the largest element first). *)
Lemma insert_from_right_sorted x r :
  (forall y, y ∈ r -> less x y = (key x <? key y)) ->
  StronglySorted (fun a b => key b <= key a) r ->
  StronglySorted (fun a b => key b <= key a) (insert_from_right less x r).
Proof.
  induction r as [|y r IH]; intros Hless Hs; cbn [insert_from_right].
  - by repeat constructor.
  - pose proof (Hless y (list_elem_of_here _ _)) as Hy.
    apply StronglySorted_inv in Hs as [Hs Hyr].
    destruct (less x y).
    + symmetry in Hy. apply Z.ltb_lt in Hy.
      constructor.
      * apply IH; [|done]. intros z Hz. apply Hless. by right.
      * apply Forall_forall. intros z Hz.
        apply insert_from_right_elem in Hz as [->|Hz]; [lia|].
        rewrite Forall_forall in Hyr. by apply Hyr.
    + symmetry in Hy. apply Z.ltb_ge in Hy.
      constructor; [by constructor|].
      constructor; [done|].
      apply Forall_forall. intros z Hz. rewrite Forall_forall in Hyr.
      specialize (Hyr z Hz). cbn in Hyr. lia.
Qed.

Lemma sort_Slice_sorted l :
  (forall a b, a ∈ l -> b ∈ l -> less a b = (key a <? key b)) ->
  StronglySorted (fun a b => key a <= key b) (sort_Slice less l).
Proof.
  intros Hless. unfold sort_Slice. apply StronglySorted_rev.
  assert (Hgen : forall acc,
             (forall y, y ∈ acc -> y ∈ l) ->
             StronglySorted (fun a b => key b <= key a) acc ->
             forall l', (forall y, y ∈ l' -> y ∈ l) ->
             StronglySorted (fun a b => key b <= key a)
               (fold_left (fun acc x => insert_from_right less x acc) l' acc)).
  { intros acc Hacc Hs l'. revert acc Hacc Hs.
    induction l' as [|x l' IH]; intros acc Hacc Hs Hl'; [done|].
    cbn [fold_left]. apply IH.
    - intros y Hy. apply insert_from_right_elem in Hy as [->|Hy];
        [apply Hl'; by left|by apply Hacc].
    - apply insert_from_right_sorted; [|done].
      intros y Hy. apply Hless; [apply Hl'; by left|by apply Hacc].
    - intros y Hy. apply Hl'. by right. }
  apply Hgen; [by intros y Hy%elem_of_nil|constructor|done].
Qed.

End InsertionSort.

Lemma less_by_timestamp_numeric a b ta tb :
  name_timestamp a = Some ta -> name_timestamp b = Some tb ->
  less_by_timestamp a b = (ta <? tb).
Proof.
  unfold name_timestamp, less_by_timestamp. cbv zeta. by intros -> ->.
Qed.

(** X10. When every name of the directory listing reads as a timestamp
    (as the names [<second>.data] that the engine gives do), the sort of
    [BuildIndex] keeps the entries and puts them in the order of their
    timestamps as numbers, whatever order [os.ReadDir] listed them in:
    an older segment is replayed before a newer one even when its name
    comes later as a string. *)
Theorem BuildIndex_visits_by_timestamp entries :
  Forall (fun e => is_Some (name_timestamp e)) entries ->
  let visited := sort_Slice less_by_timestamp entries in
  visited ≡ₚ entries /\
  StronglySorted
    (fun a b => exists ta tb,
         name_timestamp a = Some ta /\ name_timestamp b = Some tb /\ ta <= tb)
    visited.
Proof.
  intros Hnum visited. subst visited.
  split; [apply sort_Slice_perm|].
  rewrite Forall_forall in Hnum.
  assert (Hin : forall e, e ∈ sort_Slice less_by_timestamp entries ->
                          is_Some (name_timestamp e)).
  { intros e He. apply Hnum. by rewrite <- (sort_Slice_perm less_by_timestamp). }
  pose proof (sort_Slice_sorted less_by_timestamp
                (fun e => default 0 (name_timestamp e)) entries) as Hs.
  assert (Hless : forall a b, a ∈ entries -> b ∈ entries ->
            less_by_timestamp a b =
              (default 0 (name_timestamp a) <? default 0 (name_timestamp b))).
  { intros a b Ha Hb.
    destruct (Hnum a Ha) as [ta Hta], (Hnum b Hb) as [tb Htb].
    rewrite (less_by_timestamp_numeric a b ta tb) by done.
    by rewrite Hta, Htb. }
  specialize (Hs Hless). revert Hin Hs.
  generalize (sort_Slice less_by_timestamp entries). intros l Hin Hs.
  induction Hs as [|a l Hs IH Ha]; [constructor|].
  constructor.
  - apply IH. intros e He. apply Hin. by right.
  - apply Forall_forall. intros b Hb. rewrite Forall_forall in Ha.
    specialize (Ha b Hb).
    destruct (Hin a (list_elem_of_here _ _)) as [ta Hta].
    destruct (Hin b (list_elem_of_further _ _ _ Hb)) as [tb Htb].
    exists ta, tb. rewrite Hta, Htb in Ha. by cbn in Ha.
Qed.

Lemma BuildIndex_visits_by_timestamp_witness :
  let entries := [mkDirEntry "100.data" false; mkDirEntry "1000.data" false;
                  mkDirEntry "200.data" false] in
  Forall (fun e => is_Some (name_timestamp e)) entries /\
  sort_Slice less_by_timestamp entries =
    [mkDirEntry "100.data" false; mkDirEntry "200.data" false;
     mkDirEntry "1000.data" false] /\
  StronglySorted
    (fun a b => exists ta tb,
         name_timestamp a = Some ta /\ name_timestamp b = Some tb /\ ta <= tb)
    (sort_Slice less_by_timestamp entries).
Proof.
  intros entries.
  assert (Hnum : Forall (fun e => is_Some (name_timestamp e)) entries)
    by (repeat constructor; vm_compute; eauto).
  split; [exact Hnum|]. split; [vm_compute; reflexivity|].
  exact (proj2 (BuildIndex_visits_by_timestamp entries Hnum)).
Defined.

(** ** Reading a segment back *)

Section ReadingBack.
Context `{codec : GobCodec}.

(** The frames of [fes] are read back, and then the loop goes on with
    what follows them. *)
Lemma scanned_frames_then fuel filePath fes tail r off :
  Forall (fun fe => len (gob_encode fe) <= max_int64) fes ->
  (forall off' fuel', scanned (S fuel') filePath tail off' = ([], r)) ->
  (length fes < fuel)%nat ->
  scanned fuel filePath (flat_map frame fes ++ tail) off =
    (framed_records filePath off fes, r).
Proof.
  intros Hfit Htail. revert fuel off.
  induction Hfit as [|fe fes Hfe Hfit IH]; intros fuel off Hfuel.
  - destruct fuel; [cbn in Hfuel; lia|]. apply Htail.
  - destruct fuel as [|fuel]; [cbn in Hfuel; lia|].
    pose proof (len_nonneg (gob_encode fe)) as Hnn. unfold max_int64 in Hfe.
    cbn [flat_map scanned framed_records]. unfold frame at 1.
    rewrite <- !app_assoc, ReadFull_prefix, uint64_small by lia.
    rewrite Uint64_PutUint64 by lia.
    destruct (Z.gtb_spec (len (gob_encode fe)) max_int64);
      [unfold max_int64 in *; lia|].
    rewrite ReadFull_app. unfold DeserializeFileEntry.
    rewrite gob_decode_encode, uint64_small by lia.
    rewrite IH by (cbn in Hfuel; lia). reflexivity.
Qed.

Lemma frames_fit fes :
  len (flat_map frame fes) <= max_int64 ->
  Forall (fun fe => len (gob_encode fe) <= max_int64) fes.
Proof.
  induction fes as [|fe fes IH]; intros Hfit; [constructor|].
  rewrite len_flat_map_frame_cons in Hfit.
  pose proof (len_nonneg (gob_encode fe)).
  pose proof (len_nonneg (flat_map frame fes)).
  constructor; [lia|apply IH; lia].
Qed.

(** Within [int64] the offsets of the loop are the byte positions. *)
Lemma framed_records_located filePath off fes :
  0 <= off -> off + len (flat_map frame fes) <= max_int64 ->
  framed_records filePath off fes = located filePath off fes.
Proof.
  revert off. induction fes as [|fe fes IH]; intros off Hoff Hfit; [done|].
  rewrite len_flat_map_frame_cons in Hfit.
  pose proof (len_nonneg (gob_encode fe)).
  pose proof (len_nonneg (flat_map frame fes)).
  cbn [framed_records located]. unfold max_int64 in Hfit.
  rewrite (int64_small (8 + _)) by (unfold min_int64, max_int64; lia).
  rewrite int64_small by (unfold min_int64, max_int64; lia).
  rewrite IH by (unfold max_int64; lia). reflexivity.
Qed.

(** The loop stops with an error at a frame that was not written to its
    end. *)
Lemma scanned_torn filePath tail :
  torn tail ->
  exists e,
    (forall off fuel, scanned (S fuel) filePath tail off = ([], inl e)) /\
    (e = Errorw "error reading length prefix from '%s' at offset %d: %w"
           ErrUnexpectedEOF \/
     exists cause,
       e = Errorw
             "error reading payload from '%s' at offset %d (payload length %d): %w"
             cause).
Proof.
  intros (fe & more & Hne & Hmore & Heq & Hfit).
  rewrite len_frame in Hfit.
  pose proof (len_nonneg (gob_encode fe)) as HL.
  assert (Hlt : 0 < len tail).
  { destruct tail; [done|]. unfold len. cbn [length]. lia. }
  assert (Hmlt : 0 < len more).
  { destruct more; [done|]. unfold len. cbn [length]. lia. }
  destruct (Z.lt_ge_cases (len tail) 8) as [Hshort|Hlong].
  - (* not even the length prefix *)
    eexists. split; [|by left]. intros off fuel. cbn [scanned].
    unfold ReadFull. cbn [Z.eqb].
    destruct (Z.eqb_spec (len tail) 0); [lia|].
    by destruct (Z.ltb_spec (len tail) 8); [|lia].
  - (* the length prefix, and a part of the payload *)
    assert (Hsplit : take 8 tail = PutUint64 (uint64 (len (gob_encode fe))) /\
                     drop 8 tail ++ more = gob_encode fe).
    { apply app_inj_1.
      - rewrite length_take. unfold PutUint64. rewrite length_put_be.
        unfold len in Hlong. lia.
      - unfold frame in Heq. by rewrite app_assoc, take_drop. }
    destruct Hsplit as [Hhead Hrest].
    assert (HLen : len (gob_encode fe) = len (drop 8 tail) + len more)
      by (by rewrite <- Hrest, len_app).
    pose proof (len_nonneg (drop 8 tail)) as Hpn.
    unfold max_int64 in Hfit.
    rewrite uint64_small in Hhead by lia.
    destruct (Z.eqb_spec (len (drop 8 tail)) 0) as [Hempty|Hpart].
    + exists (Errorw
                "error reading payload from '%s' at offset %d (payload length %d): %w"
                EOF).
      split; [|right; by eexists]. intros off fuel. cbn [scanned].
      rewrite <- (take_drop 8 tail), Hhead, ReadFull_prefix.
      rewrite Uint64_PutUint64 by lia.
      destruct (Z.gtb_spec (len (gob_encode fe)) max_int64);
        [unfold max_int64 in *; lia|].
      unfold ReadFull.
      destruct (Z.eqb_spec (len (gob_encode fe)) 0); [lia|].
      by destruct (Z.eqb_spec (len (drop 8 tail)) 0); [|lia].
    + exists (Errorw
                "error reading payload from '%s' at offset %d (payload length %d): %w"
                ErrUnexpectedEOF).
      split; [|right; by eexists]. intros off fuel. cbn [scanned].
      rewrite <- (take_drop 8 tail), Hhead, ReadFull_prefix.
      rewrite Uint64_PutUint64 by lia.
      destruct (Z.gtb_spec (len (gob_encode fe)) max_int64);
        [unfold max_int64 in *; lia|].
      unfold ReadFull.
      destruct (Z.eqb_spec (len (gob_encode fe)) 0); [lia|].
      destruct (Z.eqb_spec (len (drop 8 tail)) 0); [lia|].
      by destruct (Z.ltb_spec (len (drop 8 tail)) (len (gob_encode fe)));
        [|lia].
Qed.

(** X11. A segment that holds the frames of a list of entries, end to
    end, is read back by [processOldFile] without error as exactly these
    entries, in order, each with the byte position of its frame as its
    offset; the key directory is the replay of these records. *)
Theorem processOldFile_reads_frames filePath fes s :
  files (world s) !! filePath = Some (RegularFile (flat_map frame fes)) ->
  len (flat_map frame fes) <= max_int64 ->
  processOldFile filePath s =
    (inr tt,
     with_Keydir (replay (located filePath 0 fes) (Keydir (engine s))) s).
Proof.
  intros Hfile Hfit. rewrite processOldFile_scanned.
  rewrite (scanned_file_frames _ _ fes Hfile (frames_fit fes Hfit)).
  cbn [fst snd]. by rewrite framed_records_located by (done || lia).
Qed.

(** X12. When the last frame of a segment was not written to its end
    (the segment ends with a proper, non-empty beginning of a frame),
    [processOldFile] returns an error of the read of the length prefix
    or of the payload, and the key directory is then the replay of the
    complete records that come before. *)
Theorem processOldFile_torn_tail filePath fes tail s :
  files (world s) !! filePath
    = Some (RegularFile (flat_map frame fes ++ tail)) ->
  len (flat_map frame fes) <= max_int64 ->
  torn tail ->
  exists e,
    processOldFile filePath s =
      (inl e,
       with_Keydir (replay (located filePath 0 fes) (Keydir (engine s))) s) /\
    (e = Errorw "error reading length prefix from '%s' at offset %d: %w"
           ErrUnexpectedEOF \/
     exists cause,
       e = Errorw
             "error reading payload from '%s' at offset %d (payload length %d): %w"
             cause).
Proof.
  intros Hfile Hfit Htorn.
  destruct (scanned_torn filePath tail Htorn) as (e & Hscan & He).
  exists e. split; [|done].
  rewrite processOldFile_scanned. unfold scanned_file. rewrite Hfile.
  rewrite (scanned_frames_then _ _ fes tail (inl e) 0 (frames_fit fes Hfit) Hscan).
  - cbn [fst snd]. by rewrite framed_records_located by (done || lia).
  - pose proof (length_flat_map_frame fes). rewrite length_app. lia.
Qed.

End ReadingBack.

Lemma processOldFile_reads_frames_witness :
  let fes := [entry_at 100 "a" "1" false; entry_at 100 "a" "" true;
              entry_at 101 "b" "2" false] in
  let c := flat_map (@frame tagged_codec) fes in
  let s := mkState (mkEngine ∅ None "db" 1048576)
             (mkWorld (<["db/100.data" := RegularFile c]> ∅) (fun _ => 200) 0 []) in
  files (world s) !! "db/100.data" = Some (RegularFile c) /\
  len c <= max_int64 /\
  @processOldFile tagged_codec "db/100.data" s =
    (inr tt,
     with_Keydir
       (replay (@located tagged_codec "db/100.data" 0 fes) (Keydir (engine s)))
       s).
Proof.
  intros fes c s.
  assert (Hfile : files (world s) !! "db/100.data" = Some (RegularFile c))
    by (vm_compute; reflexivity).
  assert (Hfit : len c <= max_int64) by (vm_compute; discriminate).
  split; [exact Hfile|]. split; [exact Hfit|].
  exact (@processOldFile_reads_frames tagged_codec "db/100.data" fes s
           Hfile Hfit).
Defined.

Lemma processOldFile_torn_tail_witness :
  let fes := [entry_at 100 "a" "1" false] in
  let fe := entry_at 101 "b" "2" false in
  let tail := take 20 (@frame tagged_codec fe) in
  let c := flat_map (@frame tagged_codec) fes ++ tail in
  let s := mkState (mkEngine ∅ None "db" 1048576)
             (mkWorld (<["db/100.data" := RegularFile c]> ∅) (fun _ => 200) 0 []) in
  files (world s) !! "db/100.data" = Some (RegularFile c) /\
  len (flat_map (@frame tagged_codec) fes) <= max_int64 /\
  @torn tagged_codec tail /\
  exists e,
    @processOldFile tagged_codec "db/100.data" s =
      (inl e,
       with_Keydir
         (replay (@located tagged_codec "db/100.data" 0 fes)
            (Keydir (engine s))) s).
Proof.
  intros fes fe tail c s.
  assert (Hfile : files (world s) !! "db/100.data" = Some (RegularFile c))
    by (vm_compute; reflexivity).
  assert (Hfit : len (flat_map (@frame tagged_codec) fes) <= max_int64)
    by (vm_compute; discriminate).
  assert (Htorn : @torn tagged_codec tail).
  { exists fe, (drop 20 (@frame tagged_codec fe)).
    split; [vm_compute; discriminate|]. split; [vm_compute; discriminate|].
    split; [apply take_drop|vm_compute; discriminate]. }
  split; [exact Hfile|]. split; [exact Hfit|]. split; [exact Htorn|].
  destruct (@processOldFile_torn_tail tagged_codec "db/100.data" fes tail s
              Hfile Hfit Htorn) as (e & Hrun & _).
  by exists e.
Defined.

(** ** The entries a rebuild leaves in the key directory *)

Lemma get_be_nonneg bs : 0 <= get_be bs.
Proof.
  unfold get_be.
  assert (H : forall acc, 0 <= acc ->
            0 <= fold_left (fun acc b => acc * 256 + Z_of_byte b) bs acc).
  { induction bs as [|b bs IH]; intros acc Hacc; [done|].
    cbn [fold_left]. apply IH. pose proof (Z_of_byte_range b). lia. }
  by apply H.
Qed.

Lemma ReadFull_inr rest n got rest' :
  ReadFull rest n = inr (got, rest') -> 0 <= n ->
  rest = got ++ rest' /\ len got = n.
Proof.
  unfold ReadFull. intros H Hn.
  destruct (Z.eqb_spec n 0) as [->|Hn0]; [by injection H as <- <-|].
  destruct (Z.eqb_spec (len rest) 0); [done|].
  destruct (Z.ltb_spec (len rest) n) as [|Hge]; [done|].
  injection H as <- <-. split; [by rewrite take_drop|].
  unfold len in *. rewrite length_take. lia.
Qed.

Lemma replay_origin (P : string -> KeyDir.t -> Prop) recs kd :
  (forall K e, kd !! K = Some e -> P K e) ->
  (forall r, r ∈ recs -> FileEntry.IsTombstone (rp_entry r) = false ->
     P (FileEntry.Key (rp_entry r))
       (KeyDir.mk (rp_file r) (uint64 (8 + rp_payloadLen r)) (rp_offset r)
          (FileEntry.Tstamp (rp_entry r)))) ->
  forall K e, replay recs kd !! K = Some e -> P K e.
Proof.
  revert kd. induction recs as [|r recs IH]; intros kd Hkd Hrecs; [done|].
  cbn [replay fold_left]. apply IH.
  - intros K e. unfold apply_replayed. rewrite indexRecord_lookup.
    case_decide as HK; [|apply Hkd]. subst K.
    destruct (newer_or_absent _ _); [|apply Hkd].
    destruct (FileEntry.IsTombstone (rp_entry r)) eqn:Htomb; [done|].
    intros [= <-]. apply Hrecs; [apply list_elem_of_here|done].
  - intros r' Hr'. apply Hrecs. by apply list_elem_of_further.
Qed.

Section Locators.
Context `{codec : GobCodec}.

(** Every record the loop of [processOldFile] meets lies in the file at
    the offset the loop has for it. *)
Lemma scanned_record_in fuel filePath seen rest off r :
  off = len seen -> len (seen ++ rest) <= max_int64 ->
  r ∈ (scanned fuel filePath rest off).1 ->
  rp_file r = filePath /\ record_in (seen ++ rest) r.
Proof.
  revert seen rest off.
  induction fuel as [|fuel IH]; intros seen rest off Hoff Hfit;
    [by intros ?%elem_of_nil|].
  cbn [scanned].
  destruct (ReadFull rest 8) as [e|[lenBuf rest1]] eqn:H8;
    [destruct e; by intros ?%elem_of_nil|].
  apply ReadFull_inr in H8 as [-> Hlen8]; [|lia].
  pose proof (get_be_nonneg lenBuf) as HL. fold (Uint64 lenBuf) in HL.
  destruct (Z.gtb_spec (Uint64 lenBuf) max_int64) as [|Hmax];
    [by intros ?%elem_of_nil|].
  destruct (ReadFull rest1 (Uint64 lenBuf)) as [e|[payloadBuf rest2]] eqn:HP;
    [by intros ?%elem_of_nil|].
  apply ReadFull_inr in HP as [-> HlenP]; [|done].
  unfold DeserializeFileEntry.
  destruct (gob_decode payloadBuf) as [fe|] eqn:Hdec;
    [|by intros ?%elem_of_nil].
  cbn [fst]. intros [->|Hin]%elem_of_cons.
  - split; [done|]. exists seen, lenBuf, payloadBuf, rest2.
    by cbn [rp_offset rp_payloadLen rp_entry].
  - rewrite !len_app in Hfit.
    pose proof (len_nonneg seen). pose proof (len_nonneg rest2).
    unfold max_int64 in Hfit, Hmax.
    rewrite uint64_small in Hin by lia.
    rewrite (int64_small (8 + _)) in Hin by (unfold min_int64, max_int64; lia).
    rewrite int64_small in Hin by (unfold min_int64, max_int64; lia).
    replace (seen ++ lenBuf ++ payloadBuf ++ rest2)
      with ((seen ++ lenBuf ++ payloadBuf) ++ rest2)
      by (by rewrite <- !app_assoc).
    eapply IH; [|  |exact Hin].
    + rewrite !len_app. lia.
    + rewrite !len_app. unfold max_int64. lia.
Qed.

Lemma scanned_file_record_in fs filePath r :
  (forall c, fs !! filePath = Some (RegularFile c) -> len c <= max_int64) ->
  r ∈ (scanned_file fs filePath).1 ->
  exists c, fs !! rp_file r = Some (RegularFile c) /\ record_in c r.
Proof.
  intros Hfit. unfold scanned_file.
  destruct (fs !! filePath) as [[c|]|] eqn:Hc; [|by intros ?%elem_of_nil..].
  intros Hin. apply (scanned_record_in _ _ [] c 0) in Hin as [-> Hin];
    [by exists c|done|by apply Hfit].
Qed.

Lemma scanned_entries_record_in fs dir entries r :
  (forall p c, fs !! p = Some (RegularFile c) -> len c <= max_int64) ->
  r ∈ (scanned_entries fs dir entries).1 ->
  exists c, fs !! rp_file r = Some (RegularFile c) /\ record_in c r.
Proof.
  intros Hfit. induction entries as [|fileInfo entries IH];
    [by intros ?%elem_of_nil|].
  cbn [scanned_entries].
  destruct (IsDir fileInfo || negb (HasSuffix (Name fileInfo) ".data"));
    [done|].
  destruct (scanned_file fs _) as [recs [e|[]]] eqn:Hfile; cbn [fst].
  - intros Hin. apply (scanned_file_record_in fs (filepath_Join dir (Name fileInfo)));
      [apply Hfit|by rewrite Hfile].
  - intros [Hin|Hin]%elem_of_app; [|by apply IH].
    apply (scanned_file_record_in fs (filepath_Join dir (Name fileInfo)));
      [apply Hfit|by rewrite Hfile].
Qed.

Lemma scanned_directory_record_in w dir r :
  (forall p c, files w !! p = Some (RegularFile c) -> len c <= max_int64) ->
  r ∈ (scanned_directory w dir).1 ->
  exists c, files w !! rp_file r = Some (RegularFile c) /\ record_in c r.
Proof.
  intros Hfit. unfold scanned_directory.
  destruct (os_ReadDir dir _) as [[e|entries] s']; [by intros ?%elem_of_nil|].
  by apply scanned_entries_record_in.
Qed.

(** A locator that points at a record of the file fetches the entry of
    that record. *)
Lemma fetchFromDisk_record record s c r :
  files (world s) !! KeyDir.FileID record = Some (RegularFile c) ->
  record_in c r -> len c <= max_int64 ->
  KeyDir.ValuePos record = rp_offset r ->
  KeyDir.ValueSz record = uint64 (8 + rp_payloadLen r) ->
  fetchFromDisk record s = (inr (rp_entry r), s).
Proof.
  intros Hfile (pre & lenBuf & payload & post & -> & Hpre & Hlen8 & HlenP & Hdec).
  intros Hfit Hpos Hsz. rewrite !len_app in Hfit.
  pose proof (len_nonneg pre). pose proof (len_nonneg payload).
  pose proof (len_nonneg post). unfold max_int64 in Hfit.
  unfold fetchFromDisk. mred. rewrite Hfile, Hpos, Hsz, <- Hpre, <- HlenP.
  rewrite uint64_small by lia.
  rewrite (int64_small (len pre + 8)) by (unfold min_int64, max_int64; lia).
  rewrite (int64_small (8 + _)) by (unfold min_int64, max_int64; lia).
  replace (8 + len payload - 8) with (len payload) by lia.
  rewrite int64_small by (unfold min_int64, max_int64; lia).
  destruct (Z.ltb_spec (len payload) 0); [lia|].
  rewrite uint64_small by lia.
  replace (pre ++ lenBuf ++ payload ++ post)
    with ((pre ++ lenBuf) ++ payload ++ post) by (by rewrite <- app_assoc).
  replace (len pre + 8) with (len (pre ++ lenBuf))
    by (rewrite len_app; lia).
  rewrite ReadAt_middle. unfold DeserializeFileEntry. by rewrite Hdec.
Qed.

(** X13. Every entry that [BuildIndex] puts into an empty key directory
    can be read: its locator points at a record of its key, in a file of
    the data directory, that is not a tombstone, and [Get] returns the
    value of that record.  This holds for whatever bytes the segment
    files hold (each within [int64]), and also when the rebuild stops
    with an error after a part of the records. *)
Theorem BuildIndex_entries_readable s key record :
  Keydir (engine s) = ∅ ->
  (forall p c, files (world s) !! p = Some (RegularFile c) ->
               len c <= max_int64) ->
  Keydir (engine (after BuildIndex s)) !! key = Some record ->
  exists fe,
    fetchFromDisk record (after BuildIndex s) = (inr fe, after BuildIndex s) /\
    FileEntry.Key fe = key /\ FileEntry.IsTombstone fe = false /\
    Get key (after BuildIndex s) = (inr (FileEntry.Value fe), after BuildIndex s).
Proof.
  intros Hempty Hfit. unfold after. rewrite BuildIndex_scanned. cbn [snd].
  rewrite Hempty.
  set (recs := (scanned_directory (world s) (ActiveDir (engine s))).1).
  set (s' := with_Keydir (replay recs ∅) s).
  intros Hk. change (Keydir (engine s')) with (replay recs ∅) in Hk.
  assert (Horigin :
    exists r c, files (world s) !! rp_file r = Some (RegularFile c) /\
                record_in c r /\
                FileEntry.Key (rp_entry r) = key /\
                FileEntry.IsTombstone (rp_entry r) = false /\
                record = KeyDir.mk (rp_file r) (uint64 (8 + rp_payloadLen r))
                           (rp_offset r) (FileEntry.Tstamp (rp_entry r))).
  { revert key record Hk.
    apply (replay_origin
             (fun K e => exists r c,
                  files (world s) !! rp_file r = Some (RegularFile c) /\
                  record_in c r /\
                  FileEntry.Key (rp_entry r) = K /\
                  FileEntry.IsTombstone (rp_entry r) = false /\
                  e = KeyDir.mk (rp_file r) (uint64 (8 + rp_payloadLen r))
                        (rp_offset r) (FileEntry.Tstamp (rp_entry r)))
             recs ∅).
    - intros K e. by rewrite lookup_empty.
    - intros r Hr Hlive.
      destruct (scanned_directory_record_in _ _ r Hfit Hr) as (c & Hc & Hin).
      by exists r, c. }
  destruct Horigin as (r & c & Hc & Hin & Hkey & Hlive & ->).
  assert (Hfetch : fetchFromDisk
                     (KeyDir.mk (rp_file r) (uint64 (8 + rp_payloadLen r))
                        (rp_offset r) (FileEntry.Tstamp (rp_entry r))) s'
                   = (inr (rp_entry r), s')).
  { apply (fetchFromDisk_record _ s' c r); try done. by apply (Hfit (rp_file r)). }
  exists (rp_entry r). split; [done|]. split; [done|]. split; [done|].
  unfold Get. mred.
  change (Keydir (engine s')) with (replay recs ∅). rewrite Hk.
  mred. rewrite Hfetch. by rewrite Hlive.
Qed.

(** X14. A second [BuildIndex] changes nothing: when every entry of the
    key directory has a record at least as recent in the segment files
    (as for an empty directory), [BuildIndex] run again on the state it
    left returns the same result and leaves that state as it is. *)
Theorem BuildIndex_twice s :
  covered_by (scanned_directory (world s) (ActiveDir (engine s))).1
    (Keydir (engine s)) ->
  BuildIndex (after BuildIndex s) = ((BuildIndex s).1, after BuildIndex s).
Proof.
  intros Hcov. unfold after. rewrite (BuildIndex_scanned s). cbn [fst snd].
  rewrite BuildIndex_scanned. cbn [with_Keydir engine world Keydir ActiveDir].
  set (recs := (scanned_directory (world s) (ActiveDir (engine s))).1) in *.
  f_equal. unfold with_Keydir. cbn [engine world Keydir ActiveFile ActiveDir
                                     MaxFileSize].
  do 2 f_equal.
  rewrite (replay_from_scratch recs (Keydir (engine s))) by done.
  apply replay_from_scratch. unfold covered_by.
  apply (replay_origin
           (fun K e => exists r, r ∈ recs /\ FileEntry.Key (rp_entry r) = K /\
                                 KeyDir.Tstamp e <= FileEntry.Tstamp (rp_entry r))
           recs ∅).
  - intros K e. by rewrite lookup_empty.
  - intros r Hr _. exists r. cbn. split; [done|]. split; [done|lia].
Qed.

End Locators.

Lemma BuildIndex_entries_readable_witness :
  let s := opened "db"
             (world (after Close
                       (after (@Put tagged_codec "a" "1")
                          (opened "db" (still_world 100))))) in
  let s' := after (@BuildIndex tagged_codec) s in
  let record := KeyDir.mk "db/100.data" 59 0 100 in
  Keydir (engine s) = ∅ /\
  Keydir (engine s') !! "a" = Some record /\
  exists fe,
    FileEntry.Key fe = "a" /\
    @Get tagged_codec "a" s' = (inr (FileEntry.Value fe), s').
Proof.
  intros s s' record.
  assert (Hempty : Keydir (engine s) = ∅) by reflexivity.
  assert (Hfiles : files (world s) =
                     <["db/100.data" :=
                         RegularFile
                           (@frame tagged_codec (entry_at 100 "a" "1" false))]>
                       (<["db" := Directory]> ∅))
    by (vm_compute; reflexivity).
  assert (Hfit : forall p c, files (world s) !! p = Some (RegularFile c) ->
                             len c <= max_int64).
  { intros p c. rewrite Hfiles, lookup_insert.
    case_decide; [intros [= <-]; vm_compute; discriminate|].
    rewrite lookup_insert. case_decide; [discriminate|].
    by rewrite lookup_empty. }
  assert (Hk : Keydir (engine (after (@BuildIndex tagged_codec) s)) !! "a"
               = Some record) by (vm_compute; reflexivity).
  split; [exact Hempty|]. split; [exact Hk|].
  destruct (@BuildIndex_entries_readable tagged_codec s "a" record
              Hempty Hfit Hk) as (fe & _ & Hkey & _ & Hget).
  exists fe. split; [exact Hkey|exact Hget].
Defined.

Lemma BuildIndex_twice_witness :
  let s := after (@Put tagged_codec "a" "1") (opened "db" (still_world 100)) in
  let s' := after (@BuildIndex tagged_codec) s in
  covered_by
    (@scanned_directory tagged_codec (world s) (ActiveDir (engine s))).1
    (Keydir (engine s)) /\
  @BuildIndex tagged_codec s' = ((@BuildIndex tagged_codec s).1, s').
Proof.
  intros s s'.
  assert (Hcov : covered_by
                   (@scanned_directory tagged_codec (world s)
                      (ActiveDir (engine s))).1
                   (Keydir (engine s))).
  { intros K e.
    change (Keydir (engine s))
      with (<["a" := KeyDir.mk "db/100.data" 59 0 100]>
              (∅ : gmap string KeyDir.t)).
    rewrite lookup_insert. case_decide as HK; [|by rewrite lookup_empty].
    intros [= <-]. subst K.
    exists (mkReplayed "db/100.data" 0 51 (entry_at 100 "a" "1" false)).
    split; [|split; [reflexivity|vm_compute; discriminate]].
    vm_compute. apply list_elem_of_here. }
  split; [exact Hcov|].
  exact (@BuildIndex_twice tagged_codec s Hcov).
Defined.

(** ** The key directory and the active segment *)

Lemma clock_monotone_later clk n m :
  (n <= m)%nat -> clock_monotone clk n -> clock_monotone clk m.
Proof. intros Hnm H i j Hi Hj. apply H; lia. Qed.

Section Synced.
Context `{codec : GobCodec}.

Lemma located_app filePath off fes1 fes2 :
  located filePath off (fes1 ++ fes2) =
    located filePath off fes1 ++
    located filePath (off + len (flat_map frame fes1)) fes2.
Proof.
  revert off. induction fes1 as [|fe fes1 IH]; intros off.
  - cbn. by rewrite Z.add_0_r.
  - cbn [app located]. rewrite IH, len_flat_map_frame_cons.
    cbn [app]. do 3 f_equal. lia.
Qed.

Lemma located_entry filePath off fes r :
  r ∈ located filePath off fes -> rp_file r = filePath /\ rp_entry r ∈ fes.
Proof.
  revert off. induction fes as [|fe fes IH]; intros off;
    [by intros ?%elem_of_nil|].
  cbn [located]. intros [->|Hin]%elem_of_cons.
  - split; [done|apply list_elem_of_here].
  - destruct (IH _ Hin). split; [done|by apply list_elem_of_further].
Qed.

(** The entries of a replay of located records are not ahead of the
    records. *)
Lemma replay_located_Tstamp filePath fes t K e :
  Forall (fun fe => FileEntry.Tstamp fe <= t) fes ->
  replay (located filePath 0 fes) ∅ !! K = Some e ->
  KeyDir.Tstamp e <= t /\ KeyDir.FileID e = filePath.
Proof.
  intros Hts. revert K e.
  apply (replay_origin
           (fun K e => KeyDir.Tstamp e <= t /\ KeyDir.FileID e = filePath)).
  - intros K e. by rewrite lookup_empty.
  - intros r Hr _. apply located_entry in Hr as [Hfile Hin].
    rewrite Forall_forall in Hts. split; [by apply Hts|done].
Qed.

(** One more record at the end of the segment: the replay takes it as
    the write path does. *)
Lemma replay_located_snoc filePath fes fe :
  Forall (fun fe' => FileEntry.Tstamp fe' <= FileEntry.Tstamp fe) fes ->
  replay (located filePath 0 (fes ++ [fe])) ∅ =
    let kd := replay (located filePath 0 fes) ∅ in
    if FileEntry.IsTombstone fe then delete (FileEntry.Key fe) kd
    else <[FileEntry.Key fe :=
             KeyDir.mk filePath (uint64 (8 + len (gob_encode fe)))
               (len (flat_map frame fes)) (FileEntry.Tstamp fe)]> kd.
Proof.
  intros Hts. rewrite located_app, replay_app. cbn [located replay fold_left].
  unfold apply_replayed. cbn [rp_file rp_offset rp_payloadLen rp_entry].
  rewrite Z.add_0_l. apply indexRecord_newer.
  destruct (replay (located filePath 0 fes) ∅ !! FileEntry.Key fe) as [e|] eqn:He;
    [right|by left].
  exists e. split; [done|].
  by destruct (replay_located_Tstamp filePath fes _ _ e Hts He).
Qed.

Lemma fits_in_place_inv s fe f c :
  active_on s f c -> fits_in_place s fe = true ->
  rolls_over (engine s) c fe = false /\
  len c + 8 + len (gob_encode fe) <= max_int64.
Proof.
  intros (Hf & _ & Hc). unfold fits_in_place. rewrite Hf, Hc.
  intros [Hr Hfit]%andb_true_iff. split; [by apply negb_true_iff|lia].
Qed.

(** The state after a record went to the end of the segment. *)
Lemma synced_append s p fes fe kd' :
  synced (mkState (engine s) (world s)) p fes ->
  clock_monotone (clock (world s)) (ticks (world s)) ->
  FileEntry.Tstamp fe = now (world s) ->
  fits_in_place s fe = true ->
  kd' = replay (located p 0 (fes ++ [fe])) ∅ ->
  exists kd s',
    putFileEntry fe (mkState (engine s) (tick (world s))) = (inr kd, s') /\
    synced (with_Keydir kd' s') p (fes ++ [fe]) /\
    kd = KeyDir.mk p (uint64 (8 + len (gob_encode fe)))
           (len (flat_map frame fes)) (FileEntry.Tstamp fe) /\
    Keydir (engine s') = Keydir (engine s) /\
    files (world s') =
      <[p := RegularFile (flat_map frame (fes ++ [fe]))]> (files (world s)) /\
    clock (world s') = clock (world s) /\
    ticks (world s') = S (ticks (world s)).
Proof.
  destruct s as [be w]. cbn [engine world].
  intros ((f & Hact & Hname & Hoff) & Hlen & Hkd & Hts) Hmono Hstamp Hfits ->.
  destruct (fits_in_place_inv _ fe f _ Hact Hfits) as [Hroll Hfit].
  destruct Hact as (Hf & Hcl & Hc). cbn [engine world] in *.
  assert (Hput := putFileEntry_appended fe be (tick w) f _ Hf Hcl Hc Hroll).
  rewrite Hput. unfold written. eexists _, _. split; [reflexivity|].
  rewrite Hname, Hoff. cbn [engine world Keydir files clock ticks tick].
  assert (Hflat : flat_map frame (fes ++ [fe]) = flat_map frame fes ++ frame fe)
    by (rewrite flat_map_app; cbn [flat_map]; by rewrite app_nil_r).
  unfold synced. rewrite !Hflat.
  cbn [with_Keydir engine world Keydir ActiveFile files clock ticks].
  split; [|repeat split; done].
  split; [|split; [|split; [done|]]].
  - exists (mkFile p (len (flat_map frame fes ++ frame fe)) false).
    unfold active_on.
    cbn [with_Keydir engine world ActiveFile files file_name file_closed
         file_offset].
    by rewrite lookup_insert_eq.
  - rewrite len_app, len_frame. lia.
  - apply Forall_app. split.
    + eapply Forall_impl; [exact Hts|]. cbn. intros fe' Hle.
      etransitivity; [exact Hle|]. unfold now. cbn [clock ticks].
      apply Hmono; lia.
    + constructor; [|constructor]. rewrite Hstamp. unfold now. cbn [clock ticks].
      apply Hmono; lia.
Qed.

Lemma synced_step o s p fes :
  synced s p fes ->
  clock_monotone (clock (world s)) (ticks (world s)) ->
  in_place o s = true ->
  exists fes',
    synced (run_op o s) p (fes ++ fes') /\
    files (world (run_op o s)) =
      <[p := RegularFile (flat_map frame (fes ++ fes'))]> (files (world s)) /\
    clock (world (run_op o s)) = clock (world s) /\
    (ticks (world s) <= ticks (world (run_op o s)))%nat.
Proof.
  intros Hsync Hmono Hin.
  assert (Hsame : files (world s) =
                    <[p := RegularFile (flat_map frame fes)]> (files (world s))).
  { destruct Hsync as ((f & (_ & _ & Hc) & <- & _) & _). by rewrite insert_id. }
  assert (Hstay : forall s', s' = s ->
            exists fes', synced s' p (fes ++ fes') /\
              files (world s') =
                <[p := RegularFile (flat_map frame (fes ++ fes'))]> (files (world s)) /\
              clock (world s') = clock (world s) /\
              (ticks (world s) <= ticks (world s'))%nat).
  { intros s' ->. exists []. by rewrite app_nil_r. }
  destruct o as [key value|key|key| |]; cbn [run_op in_place] in *; try done.
  - (* Put *)
    set (fe := entry_at (now (world s)) key value false) in *.
    destruct (synced_append s p fes fe _ ltac:(by destruct s) Hmono eq_refl Hin eq_refl)
      as (kd & s' & Hput & Hsync' & Hkd & Hkeep & Hfiles & Hclk & Hticks).
    exists [fe]. destruct s as [be w]. cbn [engine world] in *.
    unfold after. rewrite (Put_run _ _ _ _ _ _ Hput). cbn [snd].
    assert (HK : <[key := kd]> (Keydir (engine s')) =
                 replay (located p 0 (fes ++ [fe])) ∅).
    { rewrite replay_located_snoc.
      - cbv zeta. cbn [fe entry_at FileEntry.IsTombstone FileEntry.Key
                       FileEntry.Tstamp].
        destruct Hsync as (_ & _ & Hk0 & _). cbn [engine] in Hk0.
        rewrite Hkeep, Hkd, Hk0. reflexivity.
      - by destruct Hsync as (_ & _ & _ & Hts). }
    rewrite HK. split; [done|]. cbn [with_Keydir world].
    rewrite Hfiles, Hclk, Hticks. repeat split; try done. lia.
  - (* Delete *)
    destruct (Keydir (engine s) !! key) as [e|] eqn:Hk.
    2:{ apply Hstay. destruct s as [be w]. unfold after.
        destruct (Delete_cases key be w) as [[_ ->]|[(e & He & _)|(kd & Hkd & _)]];
          [done| |].
        - cbn [engine] in Hk. unfold after, Delete. mred. by rewrite Hk.
        - cbn [engine] in Hk. unfold after, Delete. mred. by rewrite Hk. }
    set (fe := entry_at (now (world s)) key "" true) in *.
    destruct (synced_append s p fes fe _ ltac:(by destruct s) Hmono eq_refl Hin eq_refl)
      as (kd & s' & Hput & Hsync' & Hkd & Hkeep & Hfiles & Hclk & Hticks).
    exists [fe]. destruct s as [be w]. cbn [engine world] in *.
    unfold after. rewrite (Delete_run _ _ _ _ _ _ Hk Hput). cbn [snd].
    assert (HK : delete key (Keydir (engine s')) =
                 replay (located p 0 (fes ++ [fe])) ∅).
    { rewrite replay_located_snoc.
      - cbv zeta. cbn [fe entry_at FileEntry.IsTombstone FileEntry.Key].
        destruct Hsync as (_ & _ & Hk0 & _). cbn [engine] in Hk0.
        rewrite Hkeep, Hk0. reflexivity.
      - by destruct Hsync as (_ & _ & _ & Hts). }
    rewrite HK. split; [done|]. cbn [with_Keydir world].
    rewrite Hfiles, Hclk, Hticks. repeat split; try done. lia.
  - (* Get *)
    apply Hstay. unfold after. apply Get_state.
Qed.

Lemma synced_run_ops ops s p fes :
  synced s p fes ->
  clock_monotone (clock (world s)) (ticks (world s)) ->
  all_in_place ops s = true ->
  exists fes',
    synced (run_ops ops s) p fes' /\
    files (world (run_ops ops s)) =
      <[p := RegularFile (flat_map frame fes')]> (files (world s)) /\
    clock (world (run_ops ops s)) = clock (world s) /\
    (ticks (world s) <= ticks (world (run_ops ops s)))%nat.
Proof.
  revert s fes. induction ops as [|o ops IH]; intros s fes Hsync Hmono Hall.
  - exists fes. split; [done|]. split; [|done].
    destruct Hsync as ((f & (_ & _ & Hc) & <- & _) & _). by rewrite insert_id.
  - cbn [all_in_place] in Hall. apply andb_true_iff in Hall as [Ho Hall].
    destruct (synced_step o s p fes Hsync Hmono Ho)
      as (fes1 & Hsync1 & Hfiles1 & Hclk1 & Hticks1).
    destruct (IH (run_op o s) _ Hsync1) as (fes2 & Hsync2 & Hfiles2 & Hclk2 & Hticks2);
      [rewrite Hclk1; by apply (clock_monotone_later _ (ticks (world s)))|done|].
    exists fes2.
    change (run_ops (o :: ops) s) with (run_ops ops (run_op o s)).
    split; [done|].
    rewrite Hfiles2, Hfiles1, insert_insert_eq, Hclk2, Hclk1.
    repeat split; try done. lia.
Qed.


End Synced.


(** ** Persistence across close and reopen *)

Lemma strip_prefix_Some p s r : strip_prefix p s = Some r -> s = p +:+ r.
Proof.
  revert s. induction p as [|c p IH]; intros s; cbn [strip_prefix].
  - by intros [= ->].
  - destruct s as [|d s]; [done|].
    destruct (Ascii.eqb_spec c d) as [->|]; [|done].
    intros H%IH. by rewrite H.
Qed.

(** A path that is not longer than [dir] is not an entry of [dir]. *)
Lemma entry_of_short dir q n :
  clean_dir dir = true ->
  (String.length q <= String.length dir)%nat ->
  entry_of dir (q, n) = None.
Proof.
  intros Hclean Hlen. unfold entry_of. cbn [fst].
  rewrite dir_prefix_clean by done.
  destruct (strip_prefix (dir +:+ "/") q) as [r|] eqn:H; [|done].
  apply strip_prefix_Some in H. apply (f_equal String.length) in H.
  rewrite !length_app_string in H. cbn [String.length] in H. lia.
Qed.

Lemma omap_all_None {A B} (f : A -> option B) l :
  (forall x, x ∈ l -> f x = None) -> omap f l = [].
Proof.
  induction l as [|x l IH]; intros H; [done|].
  cbn [omap list_omap]. rewrite (H x) by apply list_elem_of_here.
  apply IH. intros y Hy. apply H. by apply list_elem_of_further.
Qed.

(** The entries of [dir], before [os.ReadDir] sorts them. *)
Lemma listing_insert dir (fs : gmap string Node) q n :
  fs !! q = None ->
  omap (entry_of dir) (map_to_list (<[q := n]> fs)) ≡ₚ
    match entry_of dir (q, n) with
    | Some e => e :: omap (entry_of dir) (map_to_list fs)
    | None => omap (entry_of dir) (map_to_list fs)
    end.
Proof.
  intros Hq. rewrite (map_to_list_insert fs q n Hq).
  cbn [omap list_omap]. by destruct (entry_of dir (q, n)).
Qed.

Lemma listing_mkdir dir (fs : gmap string Node) l :
  (forall a, a ∈ l -> entry_of dir (a, Directory) = None) ->
  omap (entry_of dir) (map_to_list (fold_left mkdir_if_missing l fs)) ≡ₚ
    omap (entry_of dir) (map_to_list fs).
Proof.
  revert fs. induction l as [|a l IH]; intros fs Hl; [done|].
  cbn [fold_left]. rewrite IH by (intros b Hb; apply Hl; by right).
  unfold mkdir_if_missing. destruct (fs !! a) eqn:Ha; [done|].
  rewrite (listing_insert dir fs a Directory Ha).
  by rewrite (Hl a) by apply list_elem_of_here.
Qed.

Lemma listing_unused w dir fs :
  clean_dir dir = true ->
  dir_unused w dir ->
  fs = match files w !! dir with
       | Some _ => files w
       | None =>
           fold_left mkdir_if_missing (ancestors dir ++ [dir]) (files w)
       end ->
  omap (entry_of dir) (map_to_list fs) = [].
Proof.
  intros Hclean [Hdir Hnone] ->.
  assert (H0 : omap (entry_of dir) (map_to_list (files w)) = []).
  { apply omap_all_None. intros [q n] Hq. apply Hnone.
    by apply elem_of_map_to_list. }
  destruct (files w !! dir) eqn:Hd; [done|].
  apply Permutation_nil_r. rewrite listing_mkdir; [by rewrite H0|].
  intros a [Ha|Ha]%elem_of_app; apply entry_of_short; try done.
  - apply ancestors_shorter in Ha. lia.
  - apply list_elem_of_singleton in Ha as ->. lia.
Qed.

Lemma name_timestamp_segment t d :
  min_int64 <= t <= max_int64 ->
  name_timestamp (mkDirEntry (Sprintf_d_data t) d) = Some t.
Proof.
  intros Ht. unfold name_timestamp, Sprintf_d_data. cbn [Name].
  by rewrite TrimSuffix_app, ParseInt_Sprintf_d.
Qed.

(** Two segments come out of the sort of [BuildIndex] with the older one
    first, in whichever order they were listed. *)
Lemma sort_two_segments t0 t1 entries :
  min_int64 <= t0 -> t0 < t1 -> t1 <= max_int64 ->
  entries ≡ₚ [mkDirEntry (Sprintf_d_data t1) false;
              mkDirEntry (Sprintf_d_data t0) false] ->
  sort_Slice less_by_timestamp entries =
    [mkDirEntry (Sprintf_d_data t0) false; mkDirEntry (Sprintf_d_data t1) false].
Proof.
  intros H0 Hlt H1 Hperm.
  set (e0 := mkDirEntry (Sprintf_d_data t0) false) in *.
  set (e1 := mkDirEntry (Sprintf_d_data t1) false) in *.
  assert (Hn0 : name_timestamp e0 = Some t0)
    by (apply name_timestamp_segment; lia).
  assert (Hn1 : name_timestamp e1 = Some t1)
    by (apply name_timestamp_segment; lia).
  assert (Hin : forall e, e ∈ entries -> e = e0 \/ e = e1).
  { intros e He. rewrite Hperm in He.
    apply elem_of_cons in He as [->|He]; [by right|].
    apply list_elem_of_singleton in He as ->. by left. }
  pose proof (sort_Slice_sorted less_by_timestamp
                (fun e => default 0 (name_timestamp e)) entries) as Hs.
  assert (Hless : forall a b, a ∈ entries -> b ∈ entries ->
            less_by_timestamp a b =
              (default 0 (name_timestamp a) <? default 0 (name_timestamp b))).
  { intros a b Ha Hb.
    destruct (Hin a Ha) as [->| ->], (Hin b Hb) as [->| ->];
      rewrite ?Hn0, ?Hn1; cbn [default];
      by erewrite less_by_timestamp_numeric. }
  specialize (Hs Hless).
  assert (Hp : sort_Slice less_by_timestamp entries ≡ₚ [e1; e0])
    by (etransitivity; [apply sort_Slice_perm|exact Hperm]).
  symmetry in Hp.
  apply Permutation_length_2_inv in Hp as [Hp|Hp]; [|done].
  rewrite Hp in Hs. apply StronglySorted_inv in Hs as [_ Hs].
  apply Forall_cons in Hs as [Hs _]. rewrite Hn0, Hn1 in Hs. cbn in Hs. lia.
Qed.

Section Reopen.
Context `{codec : GobCodec}.

Lemma Get_agree key s s' :
  Keydir (engine s') = Keydir (engine s) ->
  (forall record, Keydir (engine s) !! key = Some record ->
     files (world s') !! KeyDir.FileID record =
       files (world s) !! KeyDir.FileID record) ->
  (Get key s').1 = (Get key s).1.
Proof.
  intros HK Hfiles. unfold Get. mred. rewrite HK.
  destruct (Keydir (engine s) !! key) as [record|] eqn:Hk; [|done]. mred.
  specialize (Hfiles record eq_refl).
  unfold fetchFromDisk. mred. rewrite Hfiles.
  destruct (files (world s) !! KeyDir.FileID record) as [node|]; [|done].
  destruct (_ <? 0); [done|].
  destruct (match node with RegularFile _ => _ | Directory => _ end)
    as [e|buf]; [done|].
  destruct (DeserializeFileEntry buf) as [e|fe]; [done|].
  by destruct (FileEntry.IsTombstone fe).
Qed.

(** The segment [p] of second [t] is not in a directory that lists
    nothing. *)
Lemma unused_segment w dir t :
  dir_unused w dir -> files w !! filepath_Join dir (Sprintf_d_data t) = None.
Proof.
  intros [_ Hnone].
  destruct (files w !! filepath_Join dir (Sprintf_d_data t)) as [n|] eqn:H;
    [|done].
  apply Hnone in H. by rewrite entry_of_segment in H.
Qed.

(** X16. What was written is there after a restart.  An engine is opened
    on a clean data directory that lists nothing yet (with no regular
    file on the way to it); [Put], [Delete] and [Get] run, every record
    going to the end of the active segment (no rollover), with a clock
    that does not go back; the engine is closed, a new engine is opened
    on the directory (in the same second or later) and [BuildIndex] runs.
    Then [BuildIndex] succeeds, the key directory is the one the first
    engine had, and every [Get] returns what it returned before the
    engine was closed. *)
Theorem persistence_after_reopen dir w ops :
  clean_dir dir = true ->
  dir_unused w dir ->
  Forall (fun a => is_regular (files w !! a) = false) (ancestors dir) ->
  clock_monotone (clock w) (ticks w) ->
  all_in_place ops (opened dir w) = true ->
  let s1 := run_ops ops (opened dir w) in
  let s3 := opened dir (world (after Close s1)) in
  (BuildIndex s3).1 = inr tt /\
  Keydir (engine (after BuildIndex s3)) = Keydir (engine s1) /\
  forall key, (Get key (after BuildIndex s3)).1 = (Get key s1).1.
Proof.
  intros Hclean Hunused Hanc Hmono Hall s1 s3.
  set (t0 := now w).
  set (p0 := filepath_Join dir (Sprintf_d_data t0)).
  assert (Hp0dir : p0 <> dir)
    by (apply filepath_Join_neq; [done|apply plain_Sprintf_d_data]).
  assert (Hp0 : files w !! p0 = None) by by apply unused_segment.
  (* the first engine *)
  destruct (NewBistcaskEngine_run dir w Hclean (proj1 Hunused) Hanc)
    as (B & Hopen0 & HB & HBdir & HBp & _);
    [fold t0 p0; by rewrite Hp0|].
  fold t0 p0 in Hopen0, HBp.
  assert (HBp0 : B !! p0 = None) by (by rewrite HBp).
  assert (HLB : omap (entry_of dir) (map_to_list B) = [])
    by by apply (listing_unused w dir).
  assert (Hs0 : opened dir w =
                  mkState (mkEngine ∅ (Some (mkFile p0 0 false)) dir
                             (1 * 1024 * 1024))
                    (mkWorld (<[p0 := RegularFile []]> B) (clock w)
                       (S (ticks w)) (p0 :: open_files w))).
  { unfold opened. rewrite Hopen0. unfold content_at. by rewrite Hp0. }
  assert (Hsync0 : synced (opened dir w) p0 []).
  { rewrite Hs0. split; [|split; [vm_compute; discriminate|split; [done|constructor]]].
    exists (mkFile p0 0 false). unfold active_on.
    cbn [engine world ActiveFile files file_name file_closed file_offset flat_map].
    by rewrite lookup_insert_eq. }
  assert (Hmono0 : clock_monotone (clock (world (opened dir w)))
                     (ticks (world (opened dir w)))).
  { rewrite Hs0. cbn [world clock ticks].
    apply (clock_monotone_later _ (ticks w)); [lia|done]. }
  destruct (synced_run_ops ops _ p0 [] Hsync0 Hmono0 Hall)
    as (fes & Hsync1 & Hfiles1 & Hclk1 & Hticks1).
  fold s1 in Hsync1, Hfiles1, Hclk1, Hticks1.
  rewrite Hs0 in Hfiles1, Hclk1, Hticks1.
  cbn [world files clock ticks] in Hfiles1, Hclk1, Hticks1.
  rewrite insert_insert_eq in Hfiles1.
  set (c := flat_map frame fes) in *.
  destruct Hsync1 as (_ & Hlen & Hkd1 & Hts1).
  (* the second engine *)
  set (w2 := world (after Close s1)) in *.
  assert (Hw2f : files w2 = files (world s1))
    by (unfold w2; by rewrite Close_state).
  assert (Hw2c : clock w2 = clock (world s1))
    by (unfold w2; by rewrite Close_state).
  assert (Hw2t : ticks w2 = ticks (world s1))
    by (unfold w2; by rewrite Close_state).
  set (t1 := now w2).
  set (p1 := filepath_Join dir (Sprintf_d_data t1)).
  assert (Ht01 : t0 <= t1).
  { unfold t0, t1, now. rewrite Hw2c, Hw2t, Hclk1. apply Hmono; lia. }
  pose proof (int64_range (clock w (ticks w))) as Hr0. fold (now w) in Hr0.
  fold t0 in Hr0.
  pose proof (int64_range (clock w2 (ticks w2))) as Hr1. fold (now w2) in Hr1.
  fold t1 in Hr1.
  assert (Hp1dir : p1 <> dir)
    by (apply filepath_Join_neq; [done|apply plain_Sprintf_d_data]).
  assert (Hfiles2 : files w2 = <[p0 := RegularFile c]> B)
    by (by rewrite Hw2f).
  assert (Hdir2 : files w2 !! dir = Some Directory)
    by (rewrite Hfiles2; by rewrite lookup_insert_ne).
  assert (Hp1w : files w !! p1 = None) by by apply unused_segment.
  assert (HBp1 : p1 <> p0 -> (<[p0 := RegularFile c]> B) !! p1 = None).
  { intros Hne. rewrite lookup_insert_ne by done.
    rewrite HB. destruct (files w !! dir); [done|].
    rewrite fold_mkdir_other; [done|]. rewrite not_elem_of_app. split.
    - intros Hin%ancestors_shorter.
      unfold p1 in Hin.
      rewrite filepath_Join_clean in Hin by (done || apply plain_Sprintf_d_data).
      rewrite !length_app_string in Hin. lia.
    - by intros ->%list_elem_of_singleton. }
  assert (Hanc2 : Forall (fun a => is_regular (files w2 !! a) = false)
                    (ancestors dir)).
  { apply Forall_forall. intros a Ha.
    rewrite Forall_forall in Hanc. specialize (Hanc a Ha).
    rewrite Hfiles2.
    assert (a <> p0).
    { intros ->. apply ancestors_shorter in Ha. unfold p0 in Ha.
      rewrite filepath_Join_clean in Ha by (done || apply plain_Sprintf_d_data).
      rewrite !length_app_string in Ha. lia. }
    rewrite lookup_insert_ne by done.
    rewrite HB. destruct (files w !! dir) eqn:Hd; [done|].
    destruct (fold_mkdir_cases (ancestors dir ++ [dir]) (files w) a) as [-> | ->];
      done. }
  assert (Hfiles3 :
    exists fs3 entries,
      files (world s3) = fs3 /\
      fs3 !! dir = Some Directory /\
      fs3 !! p0 = Some (RegularFile c) /\
      omap (entry_of dir) (map_to_list fs3) ≡ₚ entries /\
      sort_Slice less_by_timestamp
        (sort_Slice (fun a b => string_lt (Name a) (Name b))
           (omap (entry_of dir) (map_to_list fs3))) = entries /\
      scanned_entries fs3 dir entries = (framed_records p0 0 fes, inr tt) /\
      Keydir (engine s3) = ∅ /\ ActiveDir (engine s3) = dir).
  { destruct (NewBistcaskEngine_run dir w2 Hclean (or_intror Hdir2) Hanc2)
      as (B2 & Hopen3 & HB2 & _ & _ & _).
    { fold t1 p1. rewrite Hfiles2, lookup_insert.
      case_decide; [done|]. rewrite <- (lookup_insert_ne B p0 p1 (RegularFile c))
        by done. rewrite HBp1; done. }
    fold t1 p1 in Hopen3. rewrite Hdir2 in HB2. subst B2.
    assert (Hs3 : s3 =
        mkState (mkEngine ∅ (Some (mkFile p1 0 false)) dir (1 * 1024 * 1024))
          (mkWorld (<[p1 := RegularFile (content_at (files w2) p1)]> (files w2))
             (clock w2) (S (ticks w2)) (p1 :: open_files w2))).
    { unfold s3, opened. fold w2. by rewrite Hopen3. }
    rewrite Hs3. cbn [world engine files Keydir ActiveDir].
    rewrite Hfiles2.
    assert (Hscan0 : forall fs, fs !! p0 = Some (RegularFile c) ->
              scanned_file fs p0 = (framed_records p0 0 fes, inr tt)).
    { intros fs Hfs. by apply scanned_file_frames, frames_fit. }
    destruct (decide (t1 = t0)) as [Heq|Hneq].
    - (* reopened in the second of the segment: the same file *)
      assert (Hp : p1 = p0) by (unfold p1, p0; by rewrite Heq).
      rewrite Hp. unfold content_at. rewrite lookup_insert_eq, insert_insert_eq.
      set (fs3 := <[p0 := RegularFile c]> B).
      assert (HL : omap (entry_of dir) (map_to_list fs3) ≡ₚ
                   [mkDirEntry (Sprintf_d_data t0) false]).
      { unfold fs3. rewrite (listing_insert dir B p0 _ HBp0).
        unfold p0. by rewrite entry_of_segment, HLB. }
      assert (Hsorted :
        sort_Slice less_by_timestamp
          (sort_Slice (fun a b => string_lt (Name a) (Name b))
             (omap (entry_of dir) (map_to_list fs3))) =
          [mkDirEntry (Sprintf_d_data t0) false]).
      { apply Permutation_singleton_r. by rewrite !sort_Slice_perm. }
      exists fs3, [mkDirEntry (Sprintf_d_data t0) false].
      split; [done|]. split; [unfold fs3; by rewrite lookup_insert_ne|].
      split; [apply lookup_insert_eq|]. split; [done|]. split; [done|].
      split; [|done].
      cbn [scanned_entries IsDir Name]. rewrite HasSuffix_Sprintf_d_data.
      cbn [negb orb]. fold p0. rewrite Hscan0 by apply lookup_insert_eq.
      cbn [fst snd]. by rewrite app_nil_r.
    - (* reopened later: a new, empty segment *)
      assert (Hlt : t0 < t1) by lia.
      assert (Hp : p1 <> p0).
      { intros E. apply segment_path_inj in E. lia. }
      assert (Hp1 : (<[p0 := RegularFile c]> B) !! p1 = None) by by apply HBp1.
      unfold content_at. rewrite Hp1.
      set (fs3 := <[p1 := RegularFile []]> (<[p0 := RegularFile c]> B)).
      assert (HL : omap (entry_of dir) (map_to_list fs3) ≡ₚ
                   [mkDirEntry (Sprintf_d_data t1) false;
                    mkDirEntry (Sprintf_d_data t0) false]).
      { unfold fs3. rewrite (listing_insert dir _ p1 _ Hp1).
        unfold p1 at 1. rewrite entry_of_segment.
        rewrite (listing_insert dir B p0 _ HBp0).
        unfold p0 at 1. by rewrite entry_of_segment, HLB. }
      assert (Hsorted :
        sort_Slice less_by_timestamp
          (sort_Slice (fun a b => string_lt (Name a) (Name b))
             (omap (entry_of dir) (map_to_list fs3))) =
          [mkDirEntry (Sprintf_d_data t0) false;
           mkDirEntry (Sprintf_d_data t1) false]).
      { apply sort_two_segments; [lia..|]. by rewrite sort_Slice_perm. }
      exists fs3, [mkDirEntry (Sprintf_d_data t0) false;
                   mkDirEntry (Sprintf_d_data t1) false].
      split; [done|].
      split; [unfold fs3; by rewrite !lookup_insert_ne|].
      split; [unfold fs3; rewrite lookup_insert_ne by done;
              apply lookup_insert_eq|].
      split; [rewrite HL; apply perm_swap|]. split; [done|]. split; [|done].
      cbn [scanned_entries IsDir Name]. rewrite !HasSuffix_Sprintf_d_data.
      cbn [negb orb]. fold p0 p1.
      rewrite Hscan0
        by (unfold fs3; rewrite lookup_insert_ne by done; apply lookup_insert_eq).
      rewrite (scanned_file_frames fs3 p1 [])
        by (constructor || (unfold fs3; apply lookup_insert_eq)).
      cbn [fst snd framed_records]. by rewrite !app_nil_r. }
  destruct Hfiles3
    as (fs3 & entries & Hfs3 & Hdir3 & Hp03 & _ & Hsorted & Hscan & HK3 & HD3).
  (* the rebuild *)
  assert (Hdirscan : scanned_directory (world s3) (ActiveDir (engine s3)) =
                       (framed_records p0 0 fes, inr tt)).
  { unfold scanned_directory, os_ReadDir. mred. rewrite HD3, Hfs3, Hdir3.
    mred. by rewrite Hsorted. }
  assert (Hkd4 : Keydir (engine (after BuildIndex s3)) = Keydir (engine s1)).
  { unfold after. rewrite BuildIndex_scanned, Hdirscan. cbn [fst snd].
    cbn [with_Keydir engine Keydir]. rewrite HK3, Hkd1.
    by rewrite framed_records_located by (done || lia). }
  split; [by rewrite BuildIndex_scanned, Hdirscan|].
  split; [done|].
  intros key. apply Get_agree; [done|].
  intros record Hrec. rewrite Hkd1 in Hrec.
  destruct (replay_located_Tstamp p0 fes _ _ _ Hts1 Hrec) as [_ ->].
  unfold after. rewrite BuildIndex_scanned. cbn [snd with_Keydir world].
  by rewrite Hfs3, Hp03, Hfiles1, lookup_insert_eq.
Qed.

End Reopen.

Lemma persistence_after_reopen_witness :
  let w := mkWorld ∅ (fun n => if (n <? 5)%nat then 100 else 200) 0 [] in
  let ops := [OpPut "a" "1"; OpPut "b" "2"; OpDelete "a"; OpPut "a" "3";
              OpGet "a"] in
  let s1 := @run_ops tagged_codec ops (opened "db" w) in
  let s3 := opened "db" (world (after Close s1)) in
  let s4 := after (@BuildIndex tagged_codec) s3 in
  clean_dir "db" = true /\
  dir_unused w "db" /\
  clock_monotone (clock w) (ticks w) /\
  @all_in_place tagged_codec ops (opened "db" w) = true /\
  file_name <$> ActiveFile (engine s3) = Some "db/200.data" /\
  (@BuildIndex tagged_codec s3).1 = inr tt /\
  (@Get tagged_codec "a" s4).1 = inr "3" /\
  (@Get tagged_codec "b" s4).1 = inr "2".
Proof.
  intros w ops s1 s3 s4.
  assert (Hclean : clean_dir "db" = true) by (vm_compute; reflexivity).
  assert (Hunused : dir_unused w "db").
  { split; [by left|]. intros q n Hq.
    change (files w) with (∅ : gmap string Node) in Hq.
    by rewrite lookup_empty in Hq. }
  assert (Hanc : Forall (fun a => is_regular (files w !! a) = false)
                   (ancestors "db")) by (vm_compute; constructor).
  assert (Hmono : clock_monotone (clock w) (ticks w)).
  { intros i j _ Hij. change (clock w) with
      (fun n : nat => if (n <? 5)%nat then 100 else 200). cbv beta.
    destruct (Nat.ltb_spec i 5), (Nat.ltb_spec j 5);
      try (vm_compute; discriminate). lia. }
  assert (Hall : @all_in_place tagged_codec ops (opened "db" w) = true)
    by (vm_compute; reflexivity).
  destruct (@persistence_after_reopen tagged_codec "db" w ops Hclean Hunused
              Hanc Hmono Hall) as (Hok & _ & Hget).
  split; [exact Hclean|]. split; [exact Hunused|]. split; [exact Hmono|].
  split; [exact Hall|]. split; [vm_compute; reflexivity|].
  split; [exact Hok|]. split.
  - etransitivity; [apply Hget|]. vm_compute. reflexivity.
  - etransitivity; [apply Hget|]. vm_compute. reflexivity.
Defined.
